(** * Portfolio page (src/app.js): typing animation, reveal-on-scroll,
      contact form and section rendering.

    A shallow embedding of the classes [TypingAnimation], [ScrollAnimator],
    [SkillBarsAnimator], [ContactForm] and of the functions [renderSkills]
    and [renderProjects], with the properties the specification states
    about them. *)

From Stdlib Require Import ZArith String Ascii Lia.
From stdpp Require Import base option list gmap strings.

Local Open Scope Z_scope.

(** ** JavaScript values used by the page *)

Module JS.

(** A JavaScript string is a sequence of UTF-16 code units. *)
Definition code_unit : Type := N.
Abbreviation jsstring := (list N).

(** An ASCII literal of the source, as code units. *)
Definition lit (s : string) : jsstring :=
  N_of_ascii <$> list_ascii_of_string s.

(** The double quote character, U+0022. *)
Definition dquote : jsstring := [34%N].

(** [s.length] *)
Definition str_length (s : jsstring) : Z := Z.of_nat (length s).

(** [arr.length] *)
Definition arr_length {A} (arr : list A) : Z := Z.of_nat (length arr).

(** [String.prototype.substring(start, end)]: each index is clamped to
    [0, length] and the two are swapped when start > end. *)
Definition clamp (len x : Z) : Z := Z.min (Z.max x 0) len.

Definition substring (s : jsstring) (start end_ : Z) : jsstring :=
  let len := str_length s in
  let a := clamp len start in
  let b := clamp len end_ in
  let lo := Z.min a b in
  let hi := Z.max a b in
  take (Z.to_nat (hi - lo)) (drop (Z.to_nat lo) s).

(** [arr[i]] for an integer index: [None] is [undefined]. *)
Definition index {A} (arr : list A) (i : Z) : option A :=
  if i <? 0 then None else arr !! Z.to_nat i.

(** What a call does: it returns, or it throws a TypeError
    (here: a property read on [undefined]). *)
Inductive result (A : Type) : Type :=
| Returned (a : A)
| TypeError.
Arguments Returned {A} a.
Arguments TypeError {A}.

End JS.
Import JS.

(** ** TypingAnimation (src/app.js, lines 45-88) *)

Module Typing.

(** The two closures handed to [setTimeout] by [type]:
    [() => { this.isDeleting = true; this.type(); }] and
    [() => this.type()]. *)
Inductive Callback : Type :=
| PauseThenType
| JustType.

Record Timer : Type := mkTimer { callback : Callback; delay : Z }.

(** The object's fields; [innerHTML] is the content of [this.element].
    The indices and speeds are integers far below 2^53, where the
    arithmetic of JavaScript numbers is that of Z. *)
Record TypingAnimation : Type := mkTyping {
  innerHTML : jsstring;
  texts : list jsstring;
  typingSpeed : Z;
  deletingSpeed : Z;
  textIndex : Z;
  charIndex : Z;
  isDeleting : bool
}.

(** [constructor(element, texts, typingSpeed = 80, deletingSpeed = 50)] *)
Definition new (element : jsstring) (ts : list jsstring)
    (tsp dsp : Z) : TypingAnimation :=
  {| innerHTML := element; texts := ts; typingSpeed := tsp;
     deletingSpeed := dsp; textIndex := 0; charIndex := 0;
     isDeleting := false |}.

Definition default_typingSpeed : Z := 80.
Definition default_deletingSpeed : Z := 50.

(** The cursor marker appended to every rendered prefix. *)
Definition cursor : jsstring :=
  lit "<span class=" ++ dquote ++ lit "cursor" ++ dquote ++ lit "></span>".

Definition set_innerHTML (h : jsstring) (a : TypingAnimation) :=
  mkTyping h (texts a) (typingSpeed a) (deletingSpeed a)
           (textIndex a) (charIndex a) (isDeleting a).
Definition set_textIndex (i : Z) (a : TypingAnimation) :=
  mkTyping (innerHTML a) (texts a) (typingSpeed a) (deletingSpeed a)
           i (charIndex a) (isDeleting a).
Definition set_charIndex (c : Z) (a : TypingAnimation) :=
  mkTyping (innerHTML a) (texts a) (typingSpeed a) (deletingSpeed a)
           (textIndex a) c (isDeleting a).
Definition set_isDeleting (d : bool) (a : TypingAnimation) :=
  mkTyping (innerHTML a) (texts a) (typingSpeed a) (deletingSpeed a)
           (textIndex a) (charIndex a) d.

(** [type()]: the new object state and the timers it hands to
    [setTimeout], in order.  [currentText.substring] on an undefined
    [currentText] throws before anything is written. *)
Definition type (a : TypingAnimation)
    : result (TypingAnimation * list Timer) :=
  match index (texts a) (textIndex a) with
  | None => TypeError
  | Some currentText =>
    if negb (isDeleting a) then
      let a := set_innerHTML
                 (substring currentText 0 (charIndex a) ++ cursor) a in
      let a := set_charIndex (charIndex a + 1) a in
      if charIndex a >? str_length currentText then
        Returned (a, [mkTimer PauseThenType 2000])
      else
        let speed :=
          if isDeleting a then deletingSpeed a else typingSpeed a in
        Returned (a, [mkTimer JustType speed])
    else
      let a := set_innerHTML
                 (substring currentText 0 (charIndex a) ++ cursor) a in
      let a := set_charIndex (charIndex a - 1) a in
      let a :=
        if charIndex a =? 0 then
          let a := set_isDeleting false a in
          set_textIndex
            (Z.rem (textIndex a + 1) (arr_length (texts a))) a
        else a in
      let speed :=
        if isDeleting a then deletingSpeed a else typingSpeed a in
      Returned (a, [mkTimer JustType speed])
  end.

(** One write to the display surface: the phrase index, mode and cursor
    position the object had when [innerHTML] was assigned, and the text
    assigned. *)
Record Frame : Type := mkFrame {
  frame_index : Z;
  frame_deleting : bool;
  frame_cursor : Z;
  frame_html : jsstring
}.

(** The page as far as the animation is concerned: the object, the
    timers that are pending, the writes made so far to the display
    surface (oldest first) and the number of uncaught exceptions. *)
Record World : Type := mkWorld {
  anim : TypingAnimation;
  pending : list Timer;
  frames : list Frame;
  uncaught : nat
}.

(** What a callback does before it calls [type]. *)
Definition prepare (cb : Callback) (a : TypingAnimation)
    : TypingAnimation :=
  match cb with
  | PauseThenType => set_isDeleting true a
  | JustType => a
  end.

(** Running a callback body in a world whose timer has been taken off
    the queue: an exception leaves the object as it was when [type]
    threw and schedules nothing. *)
Definition invoke (cb : Callback) (w : World) : World :=
  let a := prepare cb (anim w) in
  match type a with
  | TypeError => mkWorld a (pending w) (frames w) (S (uncaught w))
  | Returned (a', ts) =>
    mkWorld a' (pending w ++ ts)
            (frames w ++ [mkFrame (textIndex a) (isDeleting a)
                                  (charIndex a)
                                  (innerHTML a')])
            (uncaught w)
  end.

(** [start()] calls [type()] directly. *)
Definition start (a : TypingAnimation) : World :=
  invoke JustType (mkWorld a [] [] 0).

(** The [i]-th pending timer fires: it leaves the queue and its
    callback runs to completion. *)
Definition fire (i : nat) (w : World) : option World :=
  match pending w !! i with
  | None => None
  | Some t =>
    Some (invoke (callback t)
            (mkWorld (anim w) (delete i (pending w))
                     (frames w) (uncaught w)))
  end.

(** The event loop with the earliest timer first; idle when nothing is
    pending. *)
Definition next (w : World) : World :=
  match fire 0 w with
  | Some w' => w'
  | None => w
  end.

Fixpoint run (n : nat) (w : World) : World :=
  match n with
  | O => w
  | S n => run n (next w)
  end.

(** Every world the page can be in after [new ...; start()]. *)
Inductive reachable (el : jsstring) (ts : list jsstring) (tsp dsp : Z)
    : World -> Prop :=
| reach_start : reachable el ts tsp dsp (start (new el ts tsp dsp))
| reach_fire w i w' :
    reachable el ts tsp dsp w ->
    fire i w = Some w' ->
    reachable el ts tsp dsp w'.

(** The (mode, cursorPosition) pairs of the writes made so far. *)
Definition rendered (w : World) : list (bool * Z) :=
  (fun f => (frame_deleting f, frame_cursor f)) <$> frames w.

Definition ab : jsstring := lit "ab".

(** *** Predicates on worlds *)

(** The three phases a world is in between two invocations of [type]:
    typing (a tick is pending), holding the full phrase (the pause is
    pending) and deleting (a tick is pending). *)
Definition phase (tsp dsp : Z) (w : World) (len : Z) : Prop :=
  (isDeleting (anim w) = false /\
   pending w = [mkTimer JustType tsp] /\
   0 <= charIndex (anim w) <= len)
  \/ (isDeleting (anim w) = false /\
      pending w = [mkTimer PauseThenType 2000] /\
      charIndex (anim w) = len + 1)
  \/ (isDeleting (anim w) = true /\
      pending w = [mkTimer JustType dsp] /\
      1 <= charIndex (anim w) <= len).

Definition inv (ts : list jsstring) (tsp dsp : Z) (w : World) : Prop :=
  texts (anim w) = ts /\
  typingSpeed (anim w) = tsp /\
  deletingSpeed (anim w) = dsp /\
  uncaught w = 0%nat /\
  exists phrase,
    index ts (textIndex (anim w)) = Some phrase /\
    phase tsp dsp w (str_length phrase).

(** The fields that decide what the machine does next. *)
Definition core (ts : list jsstring) (tsp dsp : Z) (w : World)
    (i c : Z) (d : bool) (p : list Timer) : Prop :=
  texts (anim w) = ts /\
  typingSpeed (anim w) = tsp /\
  deletingSpeed (anim w) = dsp /\
  uncaught w = 0%nat /\
  textIndex (anim w) = i /\
  charIndex (anim w) = c /\
  isDeleting (anim w) = d /\
  pending w = p.

(** The next invocation of [type] starts typing phrase [i]. *)
Definition begins (ts : list jsstring) (tsp dsp : Z) (i : Z)
    (w : World) : Prop :=
  core ts tsp dsp w i 0 false [mkTimer JustType tsp].

(** The world in which [start()]'s call of [type] is still to come,
    seen as a tick that is due. *)
Definition armed (a : TypingAnimation) : World :=
  mkWorld a [mkTimer JustType (typingSpeed a)] [] 0.

(** The number of invocations of [type] that type and delete a
    phrase: one per prefix while typing, one per prefix while
    deleting. *)
Definition cycle_steps (phrase : jsstring) : nat :=
  2 * S (length phrase).

Definition round_steps (phrases : list jsstring) : nat :=
  foldr (fun p n => (cycle_steps p + n)%nat) 0%nat phrases.

(** The bound the specification states for the cursor. *)
Definition cursor_within_phrase (w : World) : Prop :=
  exists phrase,
    index (texts (anim w)) (textIndex (anim w)) = Some phrase /\
    0 <= charIndex (anim w) <= str_length phrase.

(** The bound the code keeps. *)
Definition cursor_within_overshoot (w : World) : Prop :=
  exists phrase,
    index (texts (anim w)) (textIndex (anim w)) = Some phrase /\
    0 <= charIndex (anim w) <= str_length phrase + 1.

(** The display writes of one type/delete cycle of the phrase [ab],
    as the code makes them, and as the specification lists them. *)
Definition ab_cycle : list (bool * Z) :=
  [(false, 0); (false, 1); (false, 2); (true, 3); (true, 2); (true, 1)].

Definition ab_cycle_spec : list (bool * Z) :=
  [(false, 0); (false, 1); (false, 2); (true, 1); (true, 0)].

Definition ab_frames : list Frame :=
  [mkFrame 0 false 0 cursor;
   mkFrame 0 false 1 (lit "a" ++ cursor);
   mkFrame 0 false 2 (ab ++ cursor);
   mkFrame 0 true 3 (ab ++ cursor);
   mkFrame 0 true 2 (ab ++ cursor);
   mkFrame 0 true 1 (lit "a" ++ cursor)].

(** What every write to the display surface looks like: a prefix of
    the phrase indexed at the time, cut by [substring], then the cursor
    marker. *)
Definition frame_ok (ts : list jsstring) (f : Frame) : Prop :=
  exists phrase,
    index ts (frame_index f) = Some phrase /\
    frame_html f = substring phrase 0 (frame_cursor f) ++ cursor /\
    substring phrase 0 (frame_cursor f) `prefix_of` phrase /\
    (str_length phrase < frame_cursor f ->
     frame_html f = phrase ++ cursor).

(** *** Time and the visible text *)

(** The time the next [n] firings take when each timer fires when it is
    due and a callback takes no time: the delay of the one pending timer
    is the time to the next firing. *)
Fixpoint elapsed (n : nat) (w : World) : Z :=
  match n with
  | O => 0
  | S n =>
    match pending w with
    | t :: _ => delay t
    | [] => 0
    end + elapsed n (next w)
  end.

(** The number of code units of the phrase a frame shows. *)
Definition shown (f : Frame) : Z :=
  str_length (frame_html f) - str_length cursor.

(** Each frame shows at most one code unit more or less than the one
    before it. *)
Definition smooth (fs : list Frame) : Prop :=
  forall i f g,
    fs !! i = Some f -> fs !! S i = Some g ->
    -1 <= shown g - shown f <= 1.

(** What the next frame will show. *)
Definition next_shown (w : World) : Z :=
  match index (texts (anim w)) (textIndex (anim w)) with
  | Some phrase => clamp (str_length phrase) (charIndex (anim w))
  | None => 0
  end.

Definition smooth_so_far (w : World) : Prop :=
  smooth (frames w) /\
  exists f, last (frames w) = Some f /\
            -1 <= next_shown w - shown f <= 1.

End Typing.

(** ** ScrollAnimator and SkillBarsAnimator (src/app.js, lines 93-110 and
       310-333) *)

Module Reveal.

(** An element as far as the two animators read or write it: its class
    list (a DOMTokenList: tokens in order, no duplicates), its
    data-width attribute ([None]: absent, [getAttribute] gives null), the
    --skill-width property of its inline style ([None]: not set) and
    the first descendant matching [.skill-progress], which is what
    [querySelector('.skill-progress')] returns ([None]: null). *)
Record Element : Type := mkElement {
  classList : list string;
  data_width : option jsstring;
  skill_width : option jsstring;
  skill_progress : option nat
}.

(** One call of [style.setProperty('--skill-width', value)]: the
    element written to and the value passed. *)
Record StyleWrite : Type := mkWrite {
  write_target : nat;
  write_value : option jsstring
}.

(** The document: elements by node identity, and the calls of
    [setProperty] made so far, oldest first. *)
Record Dom : Type := mkDom {
  elements : gmap nat Element;
  style_writes : list StyleWrite
}.

(** [IntersectionObserverEntry].  The thresholds (0.1 and 0.5) decide
    when the browser reports an entry and what its [isIntersecting] is;
    the callbacks read the flag only, so entries are taken as given. *)
Record Entry : Type := mkEntry { target : nat; isIntersecting : bool }.

(** [classList.add(token)] *)
Definition classList_add (token : string) (el : Element) : Element :=
  mkElement
    (if bool_decide (token ∈ classList el) then classList el
     else classList el ++ [token])
    (data_width el) (skill_width el) (skill_progress el).

(** What [setProperty] leaves in the style for a value: null and the
    empty string remove the property. *)
Definition css_value (value : option jsstring) : option jsstring :=
  match value with
  | Some (c :: v) => Some (c :: v)
  | Some [] => None
  | None => None
  end.

(** [style.setProperty('--skill-width', value)] *)
Definition setProperty (value : option jsstring) (el : Element) : Element :=
  mkElement (classList el) (data_width el) (css_value value)
            (skill_progress el).

Definition update (id : nat) (el : Element) (d : Dom) : Dom :=
  mkDom (<[id := el]> (elements d)) (style_writes d).

Definition record_write (wr : StyleWrite) (d : Dom) : Dom :=
  mkDom (elements d) (style_writes d ++ [wr]).

(** The body of [ScrollAnimator]'s callback for one entry. *)
Definition scroll_entry (d : Dom) (entry : Entry) : Dom :=
  if isIntersecting entry then
    match elements d !! target entry with
    | Some el => update (target entry) (classList_add "visible" el) d
    | None => d
    end
  else d.

(** The body of [SkillBarsAnimator]'s callback for one entry. *)
Definition skill_entry (d : Dom) (entry : Entry) : Dom :=
  if isIntersecting entry then
    match elements d !! target entry with
    | Some el =>
      let d := update (target entry) (classList_add "visible" el) d in
      match skill_progress el with
      | Some p =>
        match elements d !! p with
        | Some progress =>
          let width := data_width progress in
          record_write (mkWrite p width)
            (update p (setProperty width progress) d)
        | None => d
        end
      | None => d
      end
    | None => d
    end
  else d.

(** [entries.forEach(entry => ...)] *)
Definition scroll_callback (entries : list Entry) (d : Dom) : Dom :=
  foldl scroll_entry d entries.

Definition skill_callback (entries : list Entry) (d : Dom) : Dom :=
  foldl skill_entry d entries.

(** An observer: the targets passed to [observe].  Nothing in the page
    calls [unobserve] or [disconnect]. *)
Record IntersectionObserver : Type := mkObserver {
  observed : list nat
}.

Definition observe (id : nat) (o : IntersectionObserver)
    : IntersectionObserver :=
  mkObserver (if bool_decide (id ∈ observed o) then observed o
              else observed o ++ [id]).

(** [document.querySelectorAll('.' + cls)], as node identities. *)
Definition querySelectorAll (cls : string) (d : Dom) : list nat :=
  filter (fun id => cls ∈ default [] (classList <$> elements d !! id))
         (map_to_list (elements d)).*1.

Record Page : Type := mkPage {
  dom : Dom;
  scrollAnimator : IntersectionObserver;
  skillBarsAnimator : IntersectionObserver
}.

(** [initApp]: [skillBarsAnimator.observe()] over the [.skill-card]
    elements and [scrollAnimator.observe(fadeElements)] over the
    [.fade-in] elements. *)
Definition initApp (d : Dom) : Page :=
  mkPage d
    (foldl (fun o id => observe id o) (mkObserver [])
           (querySelectorAll "fade-in" d))
    (foldl (fun o id => observe id o) (mkObserver [])
           (querySelectorAll "skill-card" d)).

(** A visibility-change notification: a batch of entries handed to the
    callback of one of the two observers. *)
Inductive Event : Type :=
| ScrollEntries (entries : list Entry)
| SkillEntries (entries : list Entry).

(** An observer reports only targets it observes. *)
Definition delivered (o : IntersectionObserver) (entries : list Entry)
    : list Entry :=
  filter (fun e => target e ∈ observed o) entries.

Definition handle (pg : Page) (ev : Event) : Page :=
  match ev with
  | ScrollEntries es =>
    mkPage (scroll_callback (delivered (scrollAnimator pg) es) (dom pg))
           (scrollAnimator pg) (skillBarsAnimator pg)
  | SkillEntries es =>
    mkPage (skill_callback (delivered (skillBarsAnimator pg) es) (dom pg))
           (scrollAnimator pg) (skillBarsAnimator pg)
  end.

Definition handle_all (pg : Page) (evs : list Event) : Page :=
  foldl handle pg evs.

(** The element is revealed: it carries the [visible] marker. *)
Definition revealed (d : Dom) (id : nat) : Prop :=
  exists el, elements d !! id = Some el /\ "visible" ∈ classList el.

(** The calls of [setProperty] made on element [p]. *)
Definition writes_to (p : nat) (pg : Page) : list StyleWrite :=
  filter (fun wr => write_target wr = p) (style_writes (dom pg)).

(** An entry that makes [SkillBarsAnimator]'s callback write the width
    of element [p]: it intersects, its target's progress element is
    [p], and [p] is in the document. *)
Definition hit_dom (d : Dom) (p : nat) (e : Entry) : bool :=
  isIntersecting e
  && bool_decide ((elements d !! target e ≫= skill_progress) = Some p)
  && bool_decide (is_Some (elements d !! p)).

(** Such an entry, for a target that the observer observes. *)
Definition hits (pg : Page) (p : nat) (e : Entry) : bool :=
  bool_decide (target e ∈ observed (skillBarsAnimator pg))
  && hit_dom (dom pg) p e.

Definition event_hits (pg : Page) (p : nat) (ev : Event) : nat :=
  match ev with
  | SkillEntries es => length (filter (fun e => hits pg p e = true) es)
  | ScrollEntries _ => 0%nat
  end.

Definition hit_count (pg : Page) (p : nat) (evs : list Event) : nat :=
  sum_list_with (event_hits pg p) evs.

(** A page with one skill card (node 0) whose progress bar (node 1)
    records the proficiency 88%. *)
Definition card88 : Dom :=
  mkDom (<[0%nat := mkElement ["skill-card"; "fade-in"] None None (Some 1%nat)]>
         (<[1%nat := mkElement ["skill-progress"] (Some (lit "88%")) None None]>
          ∅)) [].

Definition in_out_in : list Event :=
  [SkillEntries [mkEntry 0 true];
   SkillEntries [mkEntry 0 false];
   SkillEntries [mkEntry 0 true]].

(** How an element may differ after some callbacks have run: its
    attribute and its descendants are the same, its class list is the
    same or has gained the [visible] token, and its width is the same
    or the one its data-width gives. *)
Definition evolves (el el' : Element) : Prop :=
  data_width el' = data_width el /\
  skill_progress el' = skill_progress el /\
  (classList el' = classList el \/
   (("visible" ∉ classList el) /\
    classList el' = classList el ++ ["visible"])) /\
  (skill_width el' = skill_width el \/
   skill_width el' = css_value (data_width el)).

Definition dom_evolves (d d' : Dom) : Prop :=
  forall id,
    match elements d !! id with
    | Some el => exists el', elements d' !! id = Some el' /\ evolves el el'
    | None => elements d' !! id = None
    end.

(** The state of the width of element [p] after [n] writes, seen from
    the document [d0] the page started with: the elements have only
    evolved, the writes to [p] are the [n] new ones, each of the value
    [wr], and after the first one the width is what [wr] gives. *)
Definition written (d0 : Dom) (p : nat) (wr : option jsstring)
    (n : nat) (d : Dom) : Prop :=
  dom_evolves d0 d /\
  filter (fun w => write_target w = p) (style_writes d)
  = filter (fun w => write_target w = p) (style_writes d0)
    ++ replicate n (mkWrite p wr) /\
  ((1 <= n)%nat ->
   exists el, elements d !! p = Some el /\ skill_width el = css_value wr).

(** *** Where the callbacks leave an element *)

(** An element with the [visible] token added when [vis], and with the
    width its data-width gives when [wid]. *)
Definition settle (vis wid : bool) (el : Element) : Element :=
  mkElement
    (if vis && negb (bool_decide ("visible" ∈ classList el))
     then classList el ++ ["visible"] else classList el)
    (data_width el)
    (if wid then css_value (data_width el) else skill_width el)
    (skill_progress el).

(** An intersecting entry for element [id]. *)
Definition shows (id : nat) (e : Entry) : bool :=
  isIntersecting e && bool_decide (target e = id).

(** Some event delivers an intersecting entry for [id]. *)
Definition revealed_by (pg : Page) (id : nat) (evs : list Event) : bool :=
  existsb
    (fun ev =>
       match ev with
       | ScrollEntries es =>
         existsb (shows id) (delivered (scrollAnimator pg) es)
       | SkillEntries es =>
         existsb (shows id) (delivered (skillBarsAnimator pg) es)
       end) evs.

(** Some event makes [SkillBarsAnimator] write the width of [p]. *)
Definition width_written (pg : Page) (p : nat) (evs : list Event) : bool :=
  existsb
    (fun ev =>
       match ev with
       | ScrollEntries _ => false
       | SkillEntries es =>
         existsb (hit_dom (dom pg) p) (delivered (skillBarsAnimator pg) es)
       end) evs.

(** The elements of [d] are those of [d0], settled as [vis] and [wid]
    say. *)
Definition settled (d0 d : Dom) (vis wid : nat -> bool) : Prop :=
  forall id,
    elements d !! id = settle (vis id) (wid id) <$> elements d0 !! id.

End Reveal.

(** ** ContactForm (src/app.js, lines 176-305) *)

Module Contact.

(** *** Strings: whitespace, [trim], and the e-mail pattern *)

(** The code units that [trim()] strips and that [\s] matches:
    WhiteSpace and LineTerminator. *)
Definition is_space (c : N) : bool :=
  ((9 <=? c) && (c <=? 13) || (c =? 32) || (c =? 160) || (c =? 5760)
   || (8192 <=? c) && (c <=? 8202) || (c =? 8232) || (c =? 8233)
   || (c =? 8239) || (c =? 8287) || (c =? 12288) || (c =? 65279))%N.

Fixpoint trimStart (s : jsstring) : jsstring :=
  match s with
  | c :: s' => if is_space c then trimStart s' else s
  | [] => []
  end.

(** [s.trim()] *)
Definition trim (s : jsstring) : jsstring :=
  reverse (trimStart (reverse (trimStart s))).

(** A string in a condition is true when it is not empty. *)
Definition truthy (s : jsstring) : bool :=
  match s with [] => false | _ :: _ => true end.

(** Regular expressions over code units, matched by derivatives. *)
Inductive regex : Type :=
| Void
| Eps
| Sym (p : N -> bool)
| Cat (r1 r2 : regex)
| Alt (r1 r2 : regex)
| Star (r : regex).

Fixpoint nullable (r : regex) : bool :=
  match r with
  | Void => false
  | Eps => true
  | Sym _ => false
  | Cat r1 r2 => nullable r1 && nullable r2
  | Alt r1 r2 => nullable r1 || nullable r2
  | Star _ => true
  end.

Fixpoint deriv (c : N) (r : regex) : regex :=
  match r with
  | Void => Void
  | Eps => Void
  | Sym p => if p c then Eps else Void
  | Cat r1 r2 =>
    if nullable r1 then Alt (Cat (deriv c r1) r2) (deriv c r2)
    else Cat (deriv c r1) r2
  | Alt r1 r2 => Alt (deriv c r1) (deriv c r2)
  | Star r1 => Cat (deriv c r1) (Star r1)
  end.

(** [/^r$/.test(s)]: the whole string matches. *)
Definition test (r : regex) (s : jsstring) : bool :=
  nullable (foldl (fun r c => deriv c r) r s).

Definition Plus (r : regex) : regex := Cat r (Star r).

(** [[^\s@]] *)
Definition not_space_at (c : N) : bool := negb (is_space c || (c =? 64)%N).

(** [/^[^\s@]+@[^\s@]+\.[^\s@]+$/] *)
Definition emailRegex : regex :=
  Cat (Plus (Sym not_space_at))
    (Cat (Sym (N.eqb 64))
       (Cat (Plus (Sym not_space_at))
          (Cat (Sym (N.eqb 46)) (Plus (Sym not_space_at))))).

(** *** The form *)

(** An [input] or [textarea] with its form group: the [error] class of
    the group and the text of its [.form-error] element ([None]: the
    group has none). *)
Record Field : Type := mkField {
  fid : string;
  ftype : string;
  required : bool;
  value : jsstring;
  group_error : bool;
  error_element : option jsstring
}.

(** [#form-status] *)
Record Status : Type := mkStatus {
  className : string;
  textContent : jsstring;
  display : string
}.

(** [.btn-submit] *)
Record Button : Type := mkButton {
  disabled : bool;
  label : jsstring
}.

Record Form : Type := mkForm {
  fields : list Field;
  status : option Status;
  submitBtn : option Button
}.

Record FormData : Type := mkData {
  data_name : jsstring;
  data_email : jsstring;
  data_subject : jsstring;
  data_message : jsstring;
  data_timestamp : jsstring;
  data_status : jsstring
}.

(** What a timer started by the form does when it fires. *)
Inductive TimerAction : Type :=
| HideStatus
| ResolvePromise.

(** What a handler does besides changing the form: the effects the
    code has, and a network request, which it could make. *)
Inductive Effect : Type :=
| PreventDefault
| ConsoleLog (data : FormData)
| ConsoleError
| SetTimeout (action : TimerAction) (delay : Z)
| NetworkRequest (body : FormData).

Definition required_message : jsstring := lit "This field is required".
Definition email_message : jsstring :=
  lit "Please enter a valid email address".
Definition fix_message : jsstring :=
  lit "Please fix the errors before submitting".
Definition success_message : jsstring :=
  [10003%N]
  ++ lit " Message sent successfully! I'll get back to you soon.".
Definition failure_message : jsstring :=
  [10007%N]
  ++ lit " Failed to send message. Please try again or email me directly.".
Definition loading_label : jsstring :=
  lit "<span class=" ++ dquote ++ lit "loading" ++ dquote
  ++ lit "></span> Sending...".

(** [validateField(field)]: the verdict and the field with its group
    marked. *)
Definition validateField (field : Field) : bool * Field :=
  let isValid := true in
  let errorMessage : jsstring := [] in
  let '(isValid, errorMessage) :=
    if required field && negb (truthy (trim (value field)))
    then (false, required_message)
    else (isValid, errorMessage) in
  let '(isValid, errorMessage) :=
    if bool_decide (ftype field = "email") && truthy (trim (value field))
    then
      if negb (test emailRegex (value field))
      then (false, email_message)
      else (isValid, errorMessage)
    else (isValid, errorMessage) in
  if isValid then
    (true, mkField (fid field) (ftype field) (required field)
                   (value field) false (error_element field))
  else
    (false, mkField (fid field) (ftype field) (required field)
                    (value field) true
                    (match error_element field with
                     | Some _ => Some errorMessage
                     | None => None
                     end)).

(** [validateForm()]: every field is validated, in document order. *)
Definition validateForm (f : Form) : bool * Form :=
  let '(isValid, inputs) :=
    foldl (fun '(isValid, done) input =>
             let '(ok, input') := validateField input in
             (if negb ok then false else isValid, done ++ [input']))
          (true, []) (fields f) in
  (isValid, mkForm inputs (status f) (submitBtn f)).

(** [showStatus(type, message)] *)
Definition showStatus (type : string) (message : jsstring) (f : Form)
    : Form * list Effect :=
  match status f with
  | Some _ =>
    (mkForm (fields f)
            (Some (mkStatus ("form-status " +:+ type) message "block"))
            (submitBtn f),
     [SetTimeout HideStatus 5000])
  | None => (f, [])
  end.

(** [this.form.querySelector('#' + id).value] *)
Definition value_of (id : string) (f : Form) : option jsstring :=
  match list_find (fun fld => fid fld = id) (fields f) with
  | Some (_, fld) => Some (value fld)
  | None => None
  end.

(** [this.form.reset()]: no control of the form has a default value. *)
Definition reset (f : Form) : Form :=
  mkForm ((fun fld => mkField (fid fld) (ftype fld) (required fld) []
                              (group_error fld) (error_element fld))
            <$> fields f)
         (status f) (submitBtn f).

(** [simulateSubmission(data)]: the promise is resolved by a timer and
    nothing rejects it. *)
Definition simulateSubmission (data : FormData) : list Effect :=
  [ConsoleLog data; SetTimeout ResolvePromise 1500].

(** [handleSubmit] is suspended at [await] with [submitBtn] and
    [originalText] in scope. *)
Record Awaiting : Type := mkAwaiting { originalText : jsstring }.

(** [handleSubmit(e)] up to the [await]: the form, the effects in
    order, and the suspended rest if there is one.  [now] is
    [new Date().toISOString()]. *)
Definition handleSubmit (now : jsstring) (f : Form)
    : result (Form * list Effect * option Awaiting) :=
  let '(valid, f) := validateForm f in
  if negb valid then
    let '(f, effs) := showStatus "error" fix_message f in
    Returned (f, PreventDefault :: effs, None)
  else
    match submitBtn f with
    | None => TypeError
    | Some btn =>
      let originalText := label btn in
      let f := mkForm (fields f) (status f)
                      (Some (mkButton true loading_label)) in
      match value_of "name" f, value_of "email" f,
            value_of "subject" f, value_of "message" f with
      | Some n, Some e, Some s, Some m =>
        let formData := mkData n e s m now (lit "new") in
        Returned (f, PreventDefault :: simulateSubmission formData,
                  Some (mkAwaiting originalText))
      | _, _, _, _ => TypeError
      end
    end.

(** How the awaited promise was settled. *)
Inductive Settled : Type :=
| Resolved
| Rejected.

(** The rest of [handleSubmit] after the [await]: the [try] body or the
    [catch] clause, then [finally]. *)
Definition resume (how : Settled) (aw : Awaiting) (f : Form)
    : Form * list Effect :=
  let '(f, effs) :=
    match how with
    | Resolved =>
      let '(f, effs) := showStatus "success" success_message f in
      (reset f, effs)
    | Rejected =>
      let '(f, effs) := showStatus "error" failure_message f in
      (f, effs ++ [ConsoleError])
    end in
  (mkForm (fields f) (status f)
          (match submitBtn f with
           | Some _ => Some (mkButton false (originalText aw))
           | None => None
           end),
   effs).

(** A timer of the form fires. *)
Definition fire_timer (action : TimerAction) (aw : option Awaiting) (f : Form)
    : Form * list Effect :=
  match action, aw with
  | ResolvePromise, Some aw => resume Resolved aw f
  | ResolvePromise, None => (f, [])
  | HideStatus, _ =>
    (mkForm (fields f)
            (match status f with
             | Some st => Some (mkStatus (className st) (textContent st) "none")
             | None => None
             end)
            (submitBtn f), [])
  end.

(** The contact form of the page, as [renderContact] writes it: the
    four controls with their types and [required] attributes, each in a
    group with a [.form-error] element, the status element and the
    submit button. *)
Definition control (fld : Field) : string * string * bool :=
  (fid fld, ftype fld, required fld).

Definition is_contact_form (f : Form) : Prop :=
  control <$> fields f
  = [("name", "text", true); ("email", "email", true);
     ("subject", "text", false); ("message", "textarea", true)] /\
  Forall (fun fld => is_Some (error_element fld)) (fields f) /\
  is_Some (status f) /\
  is_Some (submitBtn f).

Definition values (f : Form) : list jsstring := value <$> fields f.

Definition is_network (e : Effect) : bool :=
  match e with NetworkRequest _ => true | _ => false end.

(** The effects that make up a send: the log of the form data and the
    timer that resolves the promise. *)
Definition is_send (e : Effect) : bool :=
  match e with
  | ConsoleLog _ | SetTimeout ResolvePromise _ | NetworkRequest _ => true
  | _ => false
  end.

(** The verdict of [validateField] and the field it leaves. *)
Definition field_ok (fld : Field) : bool := fst (validateField fld).
Definition validated (fld : Field) : Field := snd (validateField fld).

(** The two conditions of the specification under which a submission
    is refused. *)
Definition required_empty (f : Form) : Prop :=
  Exists (fun fld => required fld = true /\ value fld = []) (fields f).

Definition email_malformed (f : Form) : Prop :=
  Exists (fun fld => ftype fld = "email" /\ value fld <> [] /\
                     test emailRegex (value fld) = false) (fields f).

Definition error_banner : Status :=
  mkStatus "form-status error" fix_message "block".

Definition success_banner : Status :=
  mkStatus "form-status success" success_message "block".

Definition contact_form (n e s m : jsstring) : Form :=
  mkForm [mkField "name" "text" true n false (Some []);
          mkField "email" "email" true e false (Some []);
          mkField "subject" "text" false s false (Some []);
          mkField "message" "textarea" true m false (Some [])]
         (Some (mkStatus "form-status" [] EmptyString))
         (Some (mkButton false (lit "Send Message"))).

(** *** More of the form: the listeners of [init], and what the pattern
        denotes *)

(** The [blur] listener of a control: [validateField(input)]. *)
Definition on_blur (fld : Field) : Field := snd (validateField fld).

(** The [input] listener of a control, run after the control has its new
    value: it validates only when the group carries [error]. *)
Definition on_input (fld : Field) : Field :=
  if group_error fld then snd (validateField fld) else fld.

(** The user types a new value into a control, which fires [input]. *)
Definition type_value (v : jsstring) (fld : Field) : Field :=
  on_input (mkField (fid fld) (ftype fld) (required fld) v
                    (group_error fld) (error_element fld)).

(** The strings a regular expression denotes. *)
Inductive matches : regex -> jsstring -> Prop :=
| matches_eps : matches Eps []
| matches_sym p c : p c = true -> matches (Sym p) [c]
| matches_cat r1 r2 s1 s2 :
    matches r1 s1 -> matches r2 s2 -> matches (Cat r1 r2) (s1 ++ s2)
| matches_alt_l r1 r2 s : matches r1 s -> matches (Alt r1 r2) s
| matches_alt_r r1 r2 s : matches r2 s -> matches (Alt r1 r2) s
| matches_star_nil r : matches (Star r) []
| matches_star_cons r s1 s2 :
    matches r s1 -> matches (Star r) s2 -> matches (Star r) (s1 ++ s2).

(** A non-empty run of code units that are neither whitespace nor [@]. *)
Definition word (s : jsstring) : Prop :=
  s <> [] /\ Forall (fun c => not_space_at c = true) s.

(** local-part [@] domain [.] rest, each part a [word]. *)
Definition email_shape (s : jsstring) : Prop :=
  exists u v w,
    s = u ++ [64%N] ++ v ++ [46%N] ++ w /\ word u /\ word v /\ word w.

Definition blank (s : jsstring) : Prop :=
  Forall (fun c => is_space c = true) s.

(** The string does not begin with whitespace. *)
Definition no_lead (s : jsstring) : Prop :=
  match s with
  | c :: _ => is_space c = false
  | [] => True
  end.

(** What [validateField] accepts, in words: a required field must hold
    more than whitespace, and an e-mail field that holds more than
    whitespace must have the shape of an address. *)
Definition acceptable (fld : Field) : Prop :=
  (required fld = true -> ~ blank (value fld)) /\
  (ftype fld = "email" -> ~ blank (value fld) -> email_shape (value fld)).

(** The message [validateField] leaves for a refused field. *)
Definition refusal_message (fld : Field) : jsstring :=
  if bool_decide (ftype fld = "email") && truthy (trim (value fld))
  then email_message else required_message.

(** The controls of the form after a send has succeeded: empty and
    unmarked. *)
Definition cleared (fld : Field) : Prop :=
  value fld = [] /\ group_error fld = false.

(** The marks that a submission of the empty form leaves: the required
    controls are marked and say so. *)
Definition marked_required (fld : Field) : Prop :=
  group_error fld = required fld /\
  (required fld = true -> error_element fld = Some required_message).

End Contact.

(** ** renderSkills and renderProjects (src/app.js, lines 518-577) *)

Module Render.

(** A literal of a template, written with the apostrophe for the double
    quote (no literal of these templates holds an apostrophe). *)
Definition html (s : string) : jsstring :=
  (fun a => if Ascii.eqb a "'"%char then 34%N else N_of_ascii a)
    <$> list_ascii_of_string s.

(** [parts.join(sep)] *)
Fixpoint join (sep : jsstring) (parts : list jsstring) : jsstring :=
  match parts with
  | [] => []
  | [part] => part
  | part :: parts => part ++ sep ++ join sep parts
  end.

(** A literal that spans lines of the source, given line by line. *)
Definition text (lines : list string) : jsstring :=
  join [10%N] (html <$> lines).

(** The decimal digits of a natural number, as [String(n)] gives them
    for the integers it prints without an exponent. *)
Fixpoint uint_units (u : Decimal.uint) : jsstring :=
  match u with
  | Decimal.Nil => []
  | Decimal.D0 u => 48%N :: uint_units u
  | Decimal.D1 u => 49%N :: uint_units u
  | Decimal.D2 u => 50%N :: uint_units u
  | Decimal.D3 u => 51%N :: uint_units u
  | Decimal.D4 u => 52%N :: uint_units u
  | Decimal.D5 u => 53%N :: uint_units u
  | Decimal.D6 u => 54%N :: uint_units u
  | Decimal.D7 u => 55%N :: uint_units u
  | Decimal.D8 u => 56%N :: uint_units u
  | Decimal.D9 u => 57%N :: uint_units u
  end.

Definition number_toString (n : N) : jsstring := uint_units (N.to_uint n).

(** The entries of [portfolioData.skills] and
    [portfolioData.featuredProjects]. *)
Record Skill : Type := mkSkill {
  skill_name : jsstring;
  proficiency : N;
  category : jsstring;
  skill_icon : jsstring
}.

Record Project : Type := mkProject {
  title : jsstring;
  description : jsstring;
  problem : jsstring;
  solution : jsstring;
  impact : jsstring;
  techStack : list jsstring;
  github : jsstring;
  demo : jsstring;
  project_icon : jsstring
}.

Record PortfolioData : Type := mkPortfolio {
  skills : list Skill;
  featuredProjects : list Project
}.

(** The literal parts of the template of [renderSkills]. *)
Definition skills_open : jsstring :=
  text
    [EmptyString;
     "    <section id='skills' class='section' role='region' aria-labelledby='skills-title'>";
     "      <h2 id='skills-title' class='section-title fade-in'>Skills</h2>";
     "      <div class='skills-grid'>";
     "        "].

Definition skill_card_1 : jsstring :=
  text
    [EmptyString;
     "          <div class='skill-card fade-in'>";
     "            <div class='skill-header'>";
     "              <i class='skill-icon "].

Definition skill_card_2 : jsstring :=
  text
    ["'></i>";
     "              <h3 class='skill-name'>"].

Definition skill_card_3 : jsstring :=
  text
    ["</h3>";
     "            </div>";
     "            <div class='skill-bar'>";
     "              <div class='skill-progress' data-width='"].

Definition skill_card_4 : jsstring :=
  text
    ["%'></div>";
     "            </div>";
     "            <div class='skill-percentage'>"].

Definition skill_card_5 : jsstring :=
  text
    ["%</div>";
     "          </div>";
     "        "].

Definition skills_close : jsstring :=
  text
    [EmptyString;
     "      </div>";
     "    </section>";
     "  "].

(** The literal parts of the template of [renderProjects]. *)
Definition projects_open : jsstring :=
  text
    [EmptyString;
     "    <section id='projects' class='section' role='region' aria-labelledby='projects-title'>";
     "      <h2 id='projects-title' class='section-title fade-in'>Featured Projects</h2>";
     "      <div class='projects-grid'>";
     "        "].

Definition project_card_1 : jsstring :=
  text
    [EmptyString;
     "          <article class='project-card fade-in'>";
     "            <div class='project-image'>";
     "              <i class='"].

Definition project_card_2 : jsstring :=
  text
    ["'></i>";
     "            </div>";
     "            <div class='project-content'>";
     "              <h3 class='project-title'>"].

Definition project_card_3 : jsstring :=
  text
    ["</h3>";
     "              <p class='project-description'>"].

Definition project_card_4 : jsstring :=
  text
    ["</p>";
     "              <div class='project-details'>";
     "                <p><strong>Problem:</strong> "].

Definition project_card_5 : jsstring :=
  text
    ["</p>";
     "                <p><strong>Solution:</strong> "].

Definition project_card_6 : jsstring :=
  text
    ["</p>";
     "                <p><strong>Impact:</strong> "].

Definition project_card_7 : jsstring :=
  text
    ["</p>";
     "              </div>";
     "              <div class='tech-stack'>";
     "                "].

Definition project_card_8 : jsstring :=
  text
    [EmptyString;
     "              </div>";
     "              <div class='project-links'>";
     "                <a href='"].

Definition project_card_9 : jsstring :=
  text
    ["' class='btn btn-primary btn-small' target='_blank' rel='noopener noreferrer'>";
     "                  <i class='fab fa-github'></i> GitHub";
     "                </a>";
     "                <a href='"].

Definition project_card_10 : jsstring :=
  text
    ["' class='btn btn-secondary btn-small'>";
     "                  <i class='fas fa-external-link-alt'></i> Live Demo";
     "                </a>";
     "              </div>";
     "            </div>";
     "          </article>";
     "        "].

Definition tech_tag_open : jsstring :=
  text
    ["<span class='tech-tag'>"].

Definition tech_tag_close : jsstring :=
  text
    ["</span>"].

Definition projects_close : jsstring :=
  text
    [EmptyString;
     "      </div>";
     "    </section>";
     "  "].

(** The arrow function mapped over [skills]. *)
Definition skill_card (skill : Skill) : jsstring :=
  skill_card_1 ++ skill_icon skill
  ++ skill_card_2 ++ skill_name skill
  ++ skill_card_3 ++ number_toString (proficiency skill)
  ++ skill_card_4 ++ number_toString (proficiency skill)
  ++ skill_card_5.

Definition renderSkills (portfolioData : PortfolioData) : jsstring :=
  skills_open
  ++ join [] (skill_card <$> skills portfolioData)
  ++ skills_close.

(** The arrow function mapped over [project.techStack]. *)
Definition tech_tag (tech : jsstring) : jsstring :=
  tech_tag_open ++ tech ++ tech_tag_close.

(** The arrow function mapped over [featuredProjects]. *)
Definition project_card (project : Project) : jsstring :=
  project_card_1 ++ project_icon project
  ++ project_card_2 ++ title project
  ++ project_card_3 ++ description project
  ++ project_card_4 ++ problem project
  ++ project_card_5 ++ solution project
  ++ project_card_6 ++ impact project
  ++ project_card_7 ++ join [] (tech_tag <$> techStack project)
  ++ project_card_8 ++ github project
  ++ project_card_9 ++ demo project
  ++ project_card_10.

Definition renderProjects (portfolioData : PortfolioData) : jsstring :=
  projects_open
  ++ join [] (project_card <$> featuredProjects portfolioData)
  ++ projects_close.


(** *** Cards in markup *)

(** The opening tags of a skill card and of a project card. *)
Definition skill_tag : jsstring := html "<div class='skill-card fade-in'>".
Definition project_tag : jsstring :=
  html "<article class='project-card fade-in'>".

Fixpoint is_prefix (tag s : jsstring) : bool :=
  match tag, s with
  | [], _ => true
  | _ :: _, [] => false
  | a :: tag', b :: s' => (a =? b)%N && is_prefix tag' s'
  end.

(** The number of places of the markup at which the tag stands. *)
Fixpoint count_tag (tag s : jsstring) : nat :=
  match s with
  | [] => 0
  | _ :: s' => ((if is_prefix tag s then 1 else 0) + count_tag tag s')%nat
  end.

(** A literal decides the tag: whatever follows it, no occurrence of the
    tag begins inside the literal and ends after it. *)
Definition decided (tag u : jsstring) : bool :=
  (length tag <=? length u)%nat || negb (is_prefix u tag).

Fixpoint safe (tag lit : jsstring) : bool :=
  match lit with
  | [] => true
  | _ :: lit' => decided tag lit && safe tag lit'
  end.

Definition skill_pieces : list jsstring :=
  [skill_card_1; skill_card_2; skill_card_3; skill_card_4; skill_card_5].

Definition project_pieces : list jsstring :=
  [project_card_1; project_card_2; project_card_3; project_card_4;
   project_card_5; project_card_6; project_card_7; project_card_8;
   project_card_9; project_card_10].

Definition tech_pieces : list jsstring := [tech_tag_open; tech_tag_close].

(** The occurrences of the tag in the literals of a template. *)
Definition pieces_count (tag : jsstring) (pieces : list jsstring) : nat :=
  foldr (fun piece n => (count_tag tag piece + n)%nat) 0%nat pieces.

(** Plain text: no [<]. *)
Definition plain (s : jsstring) : bool :=
  forallb (fun c => negb (c =? 60)%N) s.

Definition plain_skill (skill : Skill) : bool :=
  plain (skill_name skill) && plain (skill_icon skill).

Definition plain_project (project : Project) : bool :=
  plain (title project) && plain (description project)
  && plain (problem project) && plain (solution project)
  && plain (impact project) && forallb plain (techStack project)
  && plain (github project) && plain (demo project)
  && plain (project_icon project).

Definition plain_data (d : PortfolioData) : bool :=
  forallb plain_skill (skills d) && forallb plain_project (featuredProjects d).

(** The data of the page. *)
Definition page_skills : list Skill :=
  [mkSkill (lit "HTML") 95 (lit "Frontend") (lit "fab fa-html5");
   mkSkill (lit "CSS") 90 (lit "Frontend") (lit "fab fa-css3-alt");
   mkSkill (lit "JavaScript") 92 (lit "Frontend") (lit "fab fa-js");
   mkSkill (lit "Java") 85 (lit "Backend") (lit "fab fa-java");
   mkSkill (lit "Flutter (Dart)") 88 (lit "Mobile") (lit "fas fa-mobile-alt");
   mkSkill (lit "Firebase") 87 (lit "Backend") (lit "fas fa-fire")].

Definition page_projects : list Project :=
  [mkProject
     (lit "School Portal")
     (lit "A comprehensive student management and results system for educational institutions")
     (lit "Schools need efficient digital solutions for managing student data and academic records")
     (lit "Built a full-stack portal with user authentication, grade tracking, attendance management, and automated reporting features")
     (lit "Streamlined operations for 500+ students and reduced administrative workload by 40%")
     [(lit "HTML"); (lit "CSS"); (lit "JavaScript"); (lit "Firebase")]
     (lit "https://github.com/NigelBerewere") (lit "#") (lit "fas fa-school");
   mkProject
     (lit "Interns & Companies Connector")
     (lit "Platform connecting students with internship opportunities at companies")
     (lit "Significant gap between students seeking internships and companies looking to hire talent")
     (lit "Created a matching platform with user profiles, job listings, application tracking, and communication features")
     (lit "Successfully connected 100+ students with internship opportunities and facilitated 50+ placements")
     [(lit "Flutter"); (lit "Firebase"); (lit "JavaScript")]
     (lit "https://github.com/NigelBerewere") (lit "#") (lit "fas fa-handshake");
   mkProject
     (lit "Numbers")
     (lit "Personal finance management application helping users track and plan their finances")
     (lit "Users struggle to track daily expenses and create effective budget plans")
     (lit "Developed mobile app with expense tracking, budget planning, financial insights, and spending analytics")
     (lit "Helped users save an average of 20% more monthly through better financial awareness")
     [(lit "Flutter (Dart)"); (lit "Firebase")]
     (lit "https://github.com/NigelBerewere") (lit "#") (lit "fas fa-chart-line");
   mkProject
     (lit "Project & Staff Manager")
     (lit "Company tool for project management and staff organization")
     (lit "Companies need centralized systems for managing projects, tasks, and team members")
     (lit "Built collaborative platform with task assignment, progress tracking, team communication, and reporting dashboards")
     (lit "Increased team productivity by 30% and improved project completion rates")
     [(lit "Java"); (lit "JavaScript"); (lit "Firebase")]
     (lit "https://github.com/NigelBerewere") (lit "#") (lit "fas fa-tasks")].

Definition portfolioData : PortfolioData :=
  mkPortfolio page_skills page_projects.

End Render.

(** ** ThemeManager (src/app.js, lines 12-40) and the theme toggle of
       [initApp] (lines 1026-1043) *)

Module Theme.

(** The manager's [theme] field, [window.currentTheme] ([None]:
    undefined), the [data-theme] attribute of the document element
    ([None]: absent) and the class of the icon in the toggle button. *)
Record ThemeState : Type := mkTheme {
  theme : string;
  currentTheme : option string;
  data_theme : option string;
  icon : string
}.

(** [value || fallback] for a string or undefined: the empty string and
    undefined are falsy. *)
Definition or_else (value : option string) (fallback : string) : string :=
  match value with
  | Some EmptyString => fallback
  | Some s => s
  | None => fallback
  end.

(** [getStoredTheme()] *)
Definition getStoredTheme (s : ThemeState) : string :=
  or_else (currentTheme s) "dark".

(** [applyTheme(theme)] *)
Definition applyTheme (t : string) (s : ThemeState) : ThemeState :=
  mkTheme t (Some t) (Some t) (icon s).

(** [new ThemeManager()], in a page whose [window.currentTheme] is
    [stored]. *)
Definition new (stored : option string) (icon0 : string) : ThemeState :=
  let s := mkTheme EmptyString stored None icon0 in
  let t := or_else (Some (getStoredTheme s)) "dark" in
  applyTheme t (mkTheme t stored None icon0).

(** [toggle()]: the new state and the theme returned. *)
Definition toggle (s : ThemeState) : ThemeState * string :=
  let newTheme := if bool_decide (theme s = "dark") then "light" else "dark" in
  (applyTheme newTheme s, newTheme).

(** [updateThemeIcon()] *)
Definition updateThemeIcon (s : ThemeState) : ThemeState :=
  mkTheme (theme s) (currentTheme s) (data_theme s)
          (if bool_decide (theme s = "dark") then "fas fa-sun"
           else "fas fa-moon").

(** The [click] listener of the toggle button. *)
Definition click (s : ThemeState) : ThemeState :=
  updateThemeIcon (fst (toggle s)).

(** The page after the script has loaded and [initApp] has run. *)
Definition loaded (stored : option string) (icon0 : string) : ThemeState :=
  updateThemeIcon (new stored icon0).

Fixpoint clicks (n : nat) (s : ThemeState) : ThemeState :=
  match n with
  | O => s
  | S n => clicks n (click s)
  end.

(** The three places that hold the theme agree, and the icon shows the
    sun exactly in the dark theme. *)
Definition consistent (s : ThemeState) : Prop :=
  currentTheme s = Some (theme s) /\
  data_theme s = Some (theme s) /\
  icon s = (if bool_decide (theme s = "dark") then "fas fa-sun"
            else "fas fa-moon").

End Theme.

(** ** Navigation.highlightActiveSection (src/app.js, lines 152-170) *)

Module Navigation.

(** A [section] element: its [id] attribute ([None]: absent) and its
    offsets, in pixels. *)
Record PageSection : Type := mkSection {
  section_id : option string;
  offsetTop : Z;
  offsetHeight : Z
}.

(** A link of the menu: its [href] attribute and whether its class list
    holds [active]. *)
Record NavLink : Type := mkLink {
  href : option string;
  active : bool
}.

(** [`#${id}`]: a null id prints as [null]. *)
Definition hash (id : option string) : string :=
  "#" +:+ match id with Some s => s | None => "null" end.

(** The inner loop: every link loses [active], and the links to the
    section get it. *)
Definition mark_links (id : option string) (links : list NavLink)
    : list NavLink :=
  (fun link => mkLink (href link)
                      (bool_decide (href link = Some (hash id))))
    <$> links.

Definition contains (scrollPos : Z) (section : PageSection) : bool :=
  (offsetTop section <=? scrollPos)
  && (scrollPos <? offsetTop section + offsetHeight section).

(** [highlightActiveSection()], with [window.scrollY] as [scrollY]. *)
Definition highlightActiveSection (scrollY : Z)
    (sections : list PageSection) (links : list NavLink) : list NavLink :=
  let scrollPos := scrollY + 100 in
  foldl (fun links section =>
           if contains scrollPos section
           then mark_links (section_id section) links
           else links)
        links sections.

(** The sections under the scroll position, in document order. *)
Definition under (scrollY : Z) (sections : list PageSection)
    : list PageSection :=
  filter (fun section => contains (scrollY + 100) section = true) sections.

End Navigation.

(** ** The particle presets of [initApp] (src/app.js, lines 997-1023) *)

Module Particles.

Section Presets.

(** A configuration object of particles.js. *)
Variable Config : Type.

(** [particlePresets]: the entry [network], and the entries by name. *)
Variable network : Config.
Variable particlePresets : string -> option Config.

(** The calls the page makes to the library and to the console. *)
Inductive Call : Type :=
| DestroyParticles
| ParticlesJS (tag_id : string) (cfg : Config)
| ConsoleWarn.

(** The toggle: [current], the text of the button, whether
    [window.particlesJS] is defined, and the calls made so far. *)
Record Toggle : Type := mkToggle {
  current : Z;
  textContent : string;
  library : bool;
  calls : list Call
}.

(** [initParticlesWithPreset(presetName)]; [throws] tells for which
    configuration the library throws. *)
Definition initParticlesWithPreset (throws : Config -> bool)
    (presetName : option string) (t : Toggle) : Toggle :=
  if negb (library t) then t
  else
    let cfg :=
      match presetName ≫= particlePresets with
      | Some cfg => cfg
      | None => network
      end in
    mkToggle (current t) (textContent t) (library t)
             (calls t ++ [DestroyParticles; ParticlesJS "particles-js" cfg]
              ++ (if throws cfg then [ConsoleWarn] else [])).

(** The [click] listener of the toggle button, over the list [presets]
    of names.  The listener also leaves a timer, whose callback is
    [restore] below. *)
Definition click (throws : Config -> bool) (presets : list string)
    (t : Toggle) : Toggle :=
  let current' := Z.rem (current t + 1) (arr_length presets) in
  let name := index presets current' in
  let t := initParticlesWithPreset throws name
             (mkToggle current' (textContent t) (library t) (calls t)) in
  mkToggle (current t)
           (match name with Some s => s | None => EmptyString end)
           (library t) (calls t).

Fixpoint clicks (throws : Config -> bool) (presets : list string)
    (n : nat) (t : Toggle) : Toggle :=
  match n with
  | O => t
  | S n => clicks throws presets n (click throws presets t)
  end.

(** The callback of the timer a click leaves, run 1400 ms later: it puts
    the text of the button back. *)
Definition restore (t : Toggle) : Toggle :=
  mkToggle (current t) "Style" (library t) (calls t).

(** What happens to the toggle: a click, or one of the timers fires. *)
Inductive Event : Type :=
| Click
| TimerFires.

Definition handle (throws : Config -> bool) (presets : list string)
    (e : Event) (t : Toggle) : Toggle :=
  match e with
  | Click => click throws presets t
  | TimerFires => restore t
  end.

Definition run (throws : Config -> bool) (presets : list string)
    (evs : list Event) (t : Toggle) : Toggle :=
  fold_left (fun t e => handle throws presets e t) evs t.

Fixpoint click_count (evs : list Event) : nat :=
  match evs with
  | [] => O
  | Click :: evs => S (click_count evs)
  | TimerFires :: evs => click_count evs
  end.

(** The configuration a name selects. *)
Definition selected (name : string) : Config :=
  match particlePresets name with
  | Some cfg => cfg
  | None => network
  end.

End Presets.

Arguments DestroyParticles {Config}.
Arguments ParticlesJS {Config} tag_id cfg.
Arguments ConsoleWarn {Config}.
Arguments mkToggle {Config} current textContent library calls.
Arguments current {Config} t.
Arguments textContent {Config} t.
Arguments library {Config} t.
Arguments calls {Config} t.

End Particles.

(** ** The other render functions and the markup of [initApp]
       (src/app.js, lines 438-516, 579-776) *)

Module PageRender.
Import Render.

(** A literal of a template, line by line, written with the backquote
    for the double quote (a template literal holds no backquote). *)
Definition markup_line (s : string) : jsstring :=
  (fun a => if Ascii.eqb a "`"%char then 34%N else N_of_ascii a)
    <$> list_ascii_of_string s.

Definition markup (lines : list string) : jsstring :=
  join [10%N] (markup_line <$> lines).

(** The rest of [portfolioData]. *)
Record PersonalInfo : Type := mkInfo {
  info_name : jsstring;
  info_title : jsstring;
  info_email : jsstring;
  info_location : jsstring;
  info_bio : jsstring
}.

Record SocialLinks : Type := mkSocial {
  social_github : jsstring;
  social_linkedin : jsstring;
  social_twitter : jsstring;
  social_instagram : jsstring;
  social_email : jsstring
}.

Record OtherProject : Type := mkOther {
  other_title : jsstring;
  other_description : jsstring;
  other_tech : jsstring;
  other_github : jsstring;
  other_icon : jsstring
}.

Record Education : Type := mkEducation {
  degree : jsstring;
  institution : jsstring;
  edu_year : jsstring
}.

Record Experience : Type := mkExperience {
  role : jsstring;
  company : jsstring;
  period : jsstring;
  exp_description : jsstring
}.

Record Certification : Type := mkCertification {
  cert_name : jsstring;
  cert_year : jsstring
}.

Record Resume : Type := mkResume {
  education : list Education;
  experience : list Experience;
  certifications : list Certification
}.

Record SiteData : Type := mkSite {
  personalInfo : PersonalInfo;
  socialLinks : SocialLinks;
  portfolio : PortfolioData;
  otherProjects : list OtherProject;
  resume : Resume
}.

(** *** The literal parts of the templates *)

Definition header_1 : jsstring :=
  markup
    [EmptyString;
     "    <a href=`#main` class=`skip-to-main`>Skip to main content</a>";
     "    <header class=`header`>";
     "      <nav class=`nav-container` role=`navigation` aria-label=`Main navigation`>";
     "        <div class=`logo`>{'NB'}</div>";
     "        <ul class=`nav-menu`>";
     "          <li><a href=`#home`>Home</a></li>";
     "          <li><a href=`#about`>About</a></li>";
     "          <li><a href=`#skills`>Skills</a></li>";
     "          <li><a href=`#projects`>Projects</a></li>";
     "          <li><a href=`#resume`>Resume</a></li>";
     "          <li><a href=`#contact`>Contact</a></li>";
     "          <li>";
     "            <button class=`theme-toggle` aria-label=`Toggle theme`>";
     "              <i class=`fas fa-moon`></i>";
     "            </button>";
     "          </li>";
     "        </ul>";
     "        <button class=`mobile-menu-toggle` aria-label=`Toggle mobile menu`>";
     "          <i class=`fas fa-bars`></i>";
     "        </button>";
     "      </nav>";
     "    </header>";
     "  "].

Definition hero_1 : jsstring :=
  markup
    [EmptyString;
     "    <section id=`home` class=`hero` role=`banner`>";
     "      <div id=`particles-js` aria-hidden=`true`></div>";
     "      <button id=`particles-toggle` class=`particles-toggle` title=`Change background style` aria-label=`Change hero background`>Style</button>";
     "      <div class=`hero-content fade-in`>";
     "        <div class=`terminal-window`>";
     "          <div class=`terminal-header`>";
     "            <span class=`terminal-btn red`></span>";
     "            <span class=`terminal-btn yellow`></span>";
     "            <span class=`terminal-btn green`></span>";
     "          </div>";
     "          <div class=`terminal-body`>";
     "            <div class=`terminal-prompt`>&gt; nigel-berewere.init()</div>";
     "            <div class=`typing-text` id=`typing-text`>";
     "              <span class=`cursor`></span>";
     "            </div>";
     "          </div>";
     "        </div>";
     "        <div class=`hero-buttons`>";
     "          <a href=`#projects` class=`btn btn-primary`>";
     "            <i class=`fas fa-code`></i> View Projects";
     "          </a>";
     "          <a href=`#contact` class=`btn btn-secondary`>";
     "            <i class=`fas fa-envelope`></i> Contact Me";
     "          </a>";
     "        </div>";
     "      </div>";
     "    </section>";
     "  "].

Definition about_1 : jsstring :=
  markup
    [EmptyString;
     "    <section id=`about` class=`section` role=`region` aria-labelledby=`about-title`>";
     "      <h2 id=`about-title` class=`section-title fade-in`>About Me</h2>";
     "      <div class=`about-content`>";
     "        <div class=`about-text fade-in`>";
     "          <p>"].

Definition about_2 : jsstring :=
  markup
    ["</p>";
     "          <p>With a strong foundation in both frontend and backend technologies, I create seamless user experiences and robust server-side solutions. My passion lies in turning complex problems into elegant, user-friendly applications.</p>";
     "          <p>When I'm not coding, you can find me exploring new technologies, contributing to open-source projects, or sharing knowledge with the developer community.</p>";
     "        </div>";
     "        <div class=`about-image fade-in`>";
     "          <div class=`profile-img`>";
     "            <i class=`fas fa-user`></i>";
     "          </div>";
     "        </div>";
     "      </div>";
     "    </section>";
     "  "].

Definition other_1 : jsstring :=
  markup
    [EmptyString;
     "    <section class=`section` role=`region` aria-labelledby=`other-projects-title`>";
     "      <h2 id=`other-projects-title` class=`section-title fade-in`>Other Projects</h2>";
     "      <div class=`other-projects-grid`>";
     "        "].

Definition other_card_1 : jsstring :=
  markup
    [EmptyString;
     "          <article class=`other-project-card fade-in`>";
     "            <i class=`"].

Definition other_card_2 : jsstring :=
  markup
    ["` style=`font-size: 2.5rem; color: var(--accent); margin-bottom: 1rem;`></i>";
     "            <h4>"].

Definition other_card_3 : jsstring :=
  markup
    ["</h4>";
     "            <p>"].

Definition other_card_4 : jsstring :=
  markup
    ["</p>";
     "            <div class=`tech-stack`>";
     "              <span class=`tech-tag`>"].

Definition other_card_5 : jsstring :=
  markup
    ["</span>";
     "            </div>";
     "            <a href=`"].

Definition other_card_6 : jsstring :=
  markup
    ["` class=`btn btn-secondary btn-small mt-1` target=`_blank` rel=`noopener noreferrer`>";
     "              <i class=`fab fa-github`></i> View Code";
     "            </a>";
     "          </article>";
     "        "].

Definition other_2 : jsstring :=
  markup
    [EmptyString;
     "      </div>";
     "    </section>";
     "  "].

Definition resume_1 : jsstring :=
  markup
    [EmptyString;
     "    <section id=`resume` class=`section` role=`region` aria-labelledby=`resume-title`>";
     "      <h2 id=`resume-title` class=`section-title fade-in`>Resume</h2>";
     "      <div class=`resume-content`>";
     "        <div class=`resume-download fade-in`>";
     "          <a href=`/Nigel_Berewere_Resume.pdf` class=`btn btn-primary` download>";
     "            <i class=`fas fa-download`></i> Download Resume";
     "          </a>";
     "        </div>";
     "        ";
     "        <div class=`timeline fade-in`>";
     "          <h3 style=`margin-bottom: 2rem; color: var(--accent);`>Education</h3>";
     "          "].

Definition education_item_1 : jsstring :=
  markup
    [EmptyString;
     "            <div class=`timeline-item`>";
     "              <h4>"].

Definition education_item_2 : jsstring :=
  markup
    ["</h4>";
     "              <p class=`subtitle`>"].

Definition education_item_3 : jsstring :=
  markup
    [" "]
  ++ [8226%N]
  ++ markup
    [" "].

Definition education_item_4 : jsstring :=
  markup
    ["</p>";
     "            </div>";
     "          "].

Definition resume_2 : jsstring :=
  markup
    [EmptyString;
     "        </div>";
     "        ";
     "        <div class=`timeline fade-in`>";
     "          <h3 style=`margin-bottom: 2rem; color: var(--accent);`>Experience</h3>";
     "          "].

Definition experience_item_1 : jsstring :=
  markup
    [EmptyString;
     "            <div class=`timeline-item`>";
     "              <h4>"].

Definition experience_item_2 : jsstring :=
  markup
    ["</h4>";
     "              <p class=`subtitle`>"].

Definition experience_item_3 : jsstring :=
  markup
    [" "]
  ++ [8226%N]
  ++ markup
    [" "].

Definition experience_item_4 : jsstring :=
  markup
    ["</p>";
     "              <p>"].

Definition experience_item_5 : jsstring :=
  markup
    ["</p>";
     "            </div>";
     "          "].

Definition resume_3 : jsstring :=
  markup
    [EmptyString;
     "        </div>";
     "        ";
     "        <div class=`timeline fade-in`>";
     "          <h3 style=`margin-bottom: 2rem; color: var(--accent);`>Certifications</h3>";
     "          "].

Definition certification_item_1 : jsstring :=
  markup
    [EmptyString;
     "            <div class=`timeline-item`>";
     "              <h4>"].

Definition certification_item_2 : jsstring :=
  markup
    ["</h4>";
     "              <p class=`subtitle`>"].

Definition certification_item_3 : jsstring :=
  markup
    ["</p>";
     "            </div>";
     "          "].

Definition resume_4 : jsstring :=
  markup
    [EmptyString;
     "        </div>";
     "      </div>";
     "    </section>";
     "  "].

Definition contact_1 : jsstring :=
  markup
    [EmptyString;
     "    <section id=`contact` class=`section` role=`region` aria-labelledby=`contact-title`>";
     "      <h2 id=`contact-title` class=`section-title fade-in`>Get In Touch</h2>";
     "      <div class=`contact-content`>";
     "        <div class=`contact-info fade-in`>";
     "          <div class=`contact-item`>";
     "            <i class=`fas fa-envelope`></i>";
     "            <div>";
     "              <h4>Email</h4>";
     "              <a href=`mailto:"].

Definition contact_2 : jsstring :=
  markup
    ["`>"].

Definition contact_3 : jsstring :=
  markup
    ["</a>";
     "            </div>";
     "          </div>";
     "          <div class=`contact-item`>";
     "            <i class=`fas fa-map-marker-alt`></i>";
     "            <div>";
     "              <h4>Location</h4>";
     "              <p>"].

Definition contact_4 : jsstring :=
  markup
    ["</p>";
     "            </div>";
     "          </div>";
     "        </div>";
     "        ";
     "        <form id=`contact-form` class=`contact-form fade-in`>";
     "          <div id=`form-status` class=`form-status`></div>";
     "          ";
     "          <div class=`form-group`>";
     "            <label for=`name`>Name *</label>";
     "            <input type=`text` id=`name` name=`name` required aria-required=`true`>";
     "            <span class=`form-error`></span>";
     "          </div>";
     "          ";
     "          <div class=`form-group`>";
     "            <label for=`email`>Email *</label>";
     "            <input type=`email` id=`email` name=`email` required aria-required=`true`>";
     "            <span class=`form-error`></span>";
     "          </div>";
     "          ";
     "          <div class=`form-group`>";
     "            <label for=`subject`>Subject</label>";
     "            <input type=`text` id=`subject` name=`subject`>";
     "            <span class=`form-error`></span>";
     "          </div>";
     "          ";
     "          <div class=`form-group`>";
     "            <label for=`message`>Message *</label>";
     "            <textarea id=`message` name=`message` required aria-required=`true`></textarea>";
     "            <span class=`form-error`></span>";
     "          </div>";
     "          ";
     "          <button type=`submit` class=`btn-submit`>Send Message</button>";
     "        </form>";
     "      </div>";
     "    </section>";
     "  "].

Definition footer_1 : jsstring :=
  markup
    [EmptyString;
     "    <footer class=`footer` role=`contentinfo`>";
     "      <div class=`footer-content`>";
     "        <div class=`footer-section`>";
     "          <h4>"].

Definition footer_2 : jsstring :=
  markup
    ["</h4>";
     "          <p>Full-Stack Developer passionate about creating innovative solutions.</p>";
     "        </div>";
     "        ";
     "        <div class=`footer-section`>";
     "          <h4>Quick Links</h4>";
     "          <ul class=`footer-links`>";
     "            <li><a href=`#home`>Home</a></li>";
     "            <li><a href=`#about`>About</a></li>";
     "            <li><a href=`#projects`>Projects</a></li>";
     "            <li><a href=`#contact`>Contact</a></li>";
     "          </ul>";
     "        </div>";
     "        ";
     "        <div class=`footer-section`>";
     "          <h4>Connect</h4>";
     "          <div class=`social-links`>";
     "            <a href=`"].

Definition footer_3 : jsstring :=
  markup
    ["` class=`social-link` target=`_blank` rel=`noopener noreferrer` aria-label=`GitHub`>";
     "              <i class=`fab fa-github`></i>";
     "            </a>";
     "            <a href=`"].

Definition footer_4 : jsstring :=
  markup
    ["` class=`social-link` target=`_blank` rel=`noopener noreferrer` aria-label=`LinkedIn`>";
     "              <i class=`fab fa-linkedin`></i>";
     "            </a>";
     "            <a href=`"].

Definition footer_5 : jsstring :=
  markup
    ["` class=`social-link` target=`_blank` rel=`noopener noreferrer` aria-label=`Twitter`>";
     "              <i class=`fab fa-twitter`></i>";
     "            </a>";
     "            <a href=`"].

Definition footer_6 : jsstring :=
  markup
    ["` class=`social-link` target=`_blank` rel=`noopener noreferrer` aria-label=`Instagram`>";
     "              <i class=`fab fa-instagram`></i>";
     "            </a>";
     "            <a href=`"].

Definition footer_7 : jsstring :=
  markup
    ["` class=`social-link` aria-label=`Email`>";
     "              <i class=`fas fa-envelope`></i>";
     "            </a>";
     "          </div>";
     "        </div>";
     "      </div>";
     "      ";
     "      <div class=`footer-bottom`>";
     "        <p>&copy; 2025 "].

Definition footer_8 : jsstring :=
  markup
    [". All rights reserved.</p>";
     "        <p>Built with <i class=`fas fa-heart` style=`color: var(--accent);`></i> using HTML, CSS & JavaScript</p>";
     "      </div>";
     "    </footer>";
     "  "].

Definition app_1 : jsstring :=
  markup
    [EmptyString;
     "    "].

Definition app_2 : jsstring :=
  markup
    [EmptyString;
     "    <main id=`main`>";
     "      "].

Definition app_3 : jsstring :=
  markup
    [EmptyString;
     "      "].

Definition app_4 : jsstring :=
  markup
    [EmptyString;
     "      "].

Definition app_5 : jsstring :=
  markup
    [EmptyString;
     "      "].

Definition app_6 : jsstring :=
  markup
    [EmptyString;
     "      "].

Definition app_7 : jsstring :=
  markup
    [EmptyString;
     "      "].

Definition app_8 : jsstring :=
  markup
    [EmptyString;
     "      "].

Definition app_9 : jsstring :=
  markup
    [EmptyString;
     "    </main>";
     "    "].

Definition app_10 : jsstring :=
  markup
    [EmptyString;
     "  "].

(** *** The render functions *)

(** [renderHeader()] *)
Definition renderHeader : jsstring :=
  header_1.

(** [renderHero()] *)
Definition renderHero : jsstring :=
  hero_1.

(** [renderAbout()] *)
Definition renderAbout (d : SiteData) : jsstring :=
  about_1
  ++ info_bio (personalInfo d)
  ++ about_2.

(** The arrow function mapped over [otherProjects]. *)
Definition other_card (project : OtherProject) : jsstring :=
  other_card_1
  ++ other_icon project
  ++ other_card_2
  ++ other_title project
  ++ other_card_3
  ++ other_description project
  ++ other_card_4
  ++ other_tech project
  ++ other_card_5
  ++ other_github project
  ++ other_card_6.

(** [renderOtherProjects()] *)
Definition renderOtherProjects (d : SiteData) : jsstring :=
  other_1
  ++ join [] (other_card <$> otherProjects d)
  ++ other_2.

(** The arrow function mapped over [resume.education]. *)
Definition education_item (edu : Education) : jsstring :=
  education_item_1
  ++ degree edu
  ++ education_item_2
  ++ institution edu
  ++ education_item_3
  ++ edu_year edu
  ++ education_item_4.

(** The arrow function mapped over [resume.experience]. *)
Definition experience_item (exp : Experience) : jsstring :=
  experience_item_1
  ++ role exp
  ++ experience_item_2
  ++ company exp
  ++ experience_item_3
  ++ period exp
  ++ experience_item_4
  ++ exp_description exp
  ++ experience_item_5.

(** The arrow function mapped over [resume.certifications]. *)
Definition certification_item (cert : Certification) : jsstring :=
  certification_item_1
  ++ cert_name cert
  ++ certification_item_2
  ++ cert_year cert
  ++ certification_item_3.

(** [renderResume()] *)
Definition renderResume (d : SiteData) : jsstring :=
  resume_1
  ++ join [] (education_item <$> education (resume d))
  ++ resume_2
  ++ join [] (experience_item <$> experience (resume d))
  ++ resume_3
  ++ join [] (certification_item <$> certifications (resume d))
  ++ resume_4.

(** [renderContact()] *)
Definition renderContact (d : SiteData) : jsstring :=
  contact_1
  ++ info_email (personalInfo d)
  ++ contact_2
  ++ info_email (personalInfo d)
  ++ contact_3
  ++ info_location (personalInfo d)
  ++ contact_4.

(** [renderFooter()] *)
Definition renderFooter (d : SiteData) : jsstring :=
  footer_1
  ++ info_name (personalInfo d)
  ++ footer_2
  ++ social_github (socialLinks d)
  ++ footer_3
  ++ social_linkedin (socialLinks d)
  ++ footer_4
  ++ social_twitter (socialLinks d)
  ++ footer_5
  ++ social_instagram (socialLinks d)
  ++ footer_6
  ++ social_email (socialLinks d)
  ++ footer_7
  ++ info_name (personalInfo d)
  ++ footer_8.

(** The markup [initApp] assigns to [app.innerHTML]. *)
Definition app_innerHTML (d : SiteData) : jsstring :=
  app_1
  ++ renderHeader
  ++ app_2
  ++ renderHero
  ++ app_3
  ++ renderAbout d
  ++ app_4
  ++ renderSkills (portfolio d)
  ++ app_5
  ++ renderProjects (portfolio d)
  ++ app_6
  ++ renderOtherProjects d
  ++ app_7
  ++ renderResume d
  ++ app_8
  ++ renderContact d
  ++ app_9
  ++ renderFooter d
  ++ app_10.

(** *** Templates as lists of parts *)

(** A part of a template: a literal of the source, or a value of the
    data interpolated as it is. *)
Inductive Part : Type :=
| Lit (s : jsstring)
| Data (s : jsstring).

Definition part_string (p : Part) : jsstring :=
  match p with Lit s => s | Data s => s end.

Fixpoint flatten (parts : list Part) : jsstring :=
  match parts with
  | [] => []
  | p :: parts => part_string p ++ flatten parts
  end.

Definition skill_parts (skill : Skill) : list Part :=
  [Lit skill_card_1; Data (skill_icon skill);
   Lit skill_card_2; Data (skill_name skill);
   Lit skill_card_3; Data (number_toString (proficiency skill));
   Lit skill_card_4; Data (number_toString (proficiency skill));
   Lit skill_card_5].

Definition skills_parts (pd : PortfolioData) : list Part :=
  [Lit skills_open] ++ concat (skill_parts <$> skills pd)
  ++ [Lit skills_close].

Definition tech_parts (tech : jsstring) : list Part :=
  [Lit tech_tag_open; Data tech; Lit tech_tag_close].

Definition project_parts (project : Project) : list Part :=
  [Lit project_card_1; Data (project_icon project);
   Lit project_card_2; Data (title project);
   Lit project_card_3; Data (description project);
   Lit project_card_4; Data (problem project);
   Lit project_card_5; Data (solution project);
   Lit project_card_6; Data (impact project);
   Lit project_card_7]
  ++ concat (tech_parts <$> techStack project)
  ++ [Lit project_card_8; Data (github project);
      Lit project_card_9; Data (demo project);
      Lit project_card_10].

Definition projects_parts (pd : PortfolioData) : list Part :=
  [Lit projects_open] ++ concat (project_parts <$> featuredProjects pd)
  ++ [Lit projects_close].

Definition header_parts : list Part :=
  [Lit header_1].

Definition hero_parts : list Part :=
  [Lit hero_1].

Definition about_parts (d : SiteData) : list Part :=
  [Lit about_1]
  ++ [Data (info_bio (personalInfo d))]
  ++ [Lit about_2].

Definition other_card_parts (project : OtherProject) : list Part :=
  [Lit other_card_1]
  ++ [Data (other_icon project)]
  ++ [Lit other_card_2]
  ++ [Data (other_title project)]
  ++ [Lit other_card_3]
  ++ [Data (other_description project)]
  ++ [Lit other_card_4]
  ++ [Data (other_tech project)]
  ++ [Lit other_card_5]
  ++ [Data (other_github project)]
  ++ [Lit other_card_6].

Definition other_parts (d : SiteData) : list Part :=
  [Lit other_1]
  ++ concat (other_card_parts <$> otherProjects d)
  ++ [Lit other_2].

Definition education_item_parts (edu : Education) : list Part :=
  [Lit education_item_1]
  ++ [Data (degree edu)]
  ++ [Lit education_item_2]
  ++ [Data (institution edu)]
  ++ [Lit education_item_3]
  ++ [Data (edu_year edu)]
  ++ [Lit education_item_4].

Definition experience_item_parts (exp : Experience) : list Part :=
  [Lit experience_item_1]
  ++ [Data (role exp)]
  ++ [Lit experience_item_2]
  ++ [Data (company exp)]
  ++ [Lit experience_item_3]
  ++ [Data (period exp)]
  ++ [Lit experience_item_4]
  ++ [Data (exp_description exp)]
  ++ [Lit experience_item_5].

Definition certification_item_parts (cert : Certification) : list Part :=
  [Lit certification_item_1]
  ++ [Data (cert_name cert)]
  ++ [Lit certification_item_2]
  ++ [Data (cert_year cert)]
  ++ [Lit certification_item_3].

Definition resume_parts (d : SiteData) : list Part :=
  [Lit resume_1]
  ++ concat (education_item_parts <$> education (resume d))
  ++ [Lit resume_2]
  ++ concat (experience_item_parts <$> experience (resume d))
  ++ [Lit resume_3]
  ++ concat (certification_item_parts <$> certifications (resume d))
  ++ [Lit resume_4].

Definition contact_parts (d : SiteData) : list Part :=
  [Lit contact_1]
  ++ [Data (info_email (personalInfo d))]
  ++ [Lit contact_2]
  ++ [Data (info_email (personalInfo d))]
  ++ [Lit contact_3]
  ++ [Data (info_location (personalInfo d))]
  ++ [Lit contact_4].

Definition footer_parts (d : SiteData) : list Part :=
  [Lit footer_1]
  ++ [Data (info_name (personalInfo d))]
  ++ [Lit footer_2]
  ++ [Data (social_github (socialLinks d))]
  ++ [Lit footer_3]
  ++ [Data (social_linkedin (socialLinks d))]
  ++ [Lit footer_4]
  ++ [Data (social_twitter (socialLinks d))]
  ++ [Lit footer_5]
  ++ [Data (social_instagram (socialLinks d))]
  ++ [Lit footer_6]
  ++ [Data (social_email (socialLinks d))]
  ++ [Lit footer_7]
  ++ [Data (info_name (personalInfo d))]
  ++ [Lit footer_8].

Definition app_parts (d : SiteData) : list Part :=
  [Lit app_1]
  ++ header_parts
  ++ [Lit app_2]
  ++ hero_parts
  ++ [Lit app_3]
  ++ about_parts d
  ++ [Lit app_4]
  ++ skills_parts (portfolio d)
  ++ [Lit app_5]
  ++ projects_parts (portfolio d)
  ++ [Lit app_6]
  ++ other_parts d
  ++ [Lit app_7]
  ++ resume_parts d
  ++ [Lit app_8]
  ++ contact_parts d
  ++ [Lit app_9]
  ++ footer_parts d
  ++ [Lit app_10].

(** *** Counting in the markup of the page *)

(** A part is harmless for a tag when it is a literal that decides the
    tag, or plain text. *)
Definition part_ok (tag : jsstring) (p : Part) : Prop :=
  match p with
  | Lit s => safe tag s = true
  | Data s => plain s = true
  end.

(** The occurrences of the tag in the literals of a list of parts. *)
Definition lits_count (tag : jsstring) (parts : list Part) : nat :=
  foldr (fun p n =>
           match p with
           | Lit s => (count_tag tag s + n)%nat
           | Data _ => n
           end) 0%nat parts.

(** Every literal of the templates. *)
Definition page_literals : list jsstring :=
  [header_1; hero_1; about_1; about_2; other_1; other_card_1;
   other_card_2; other_card_3; other_card_4; other_card_5; other_card_6;
   other_2; resume_1; education_item_1; education_item_2;
   education_item_3; education_item_4; resume_2; experience_item_1;
   experience_item_2; experience_item_3; experience_item_4;
   experience_item_5; resume_3; certification_item_1;
   certification_item_2; certification_item_3; resume_4; contact_1;
   contact_2; contact_3; contact_4; footer_1; footer_2; footer_3;
   footer_4; footer_5; footer_6; footer_7; footer_8; app_1; app_2;
   app_3; app_4; app_5; app_6; app_7; app_8; app_9; app_10; skills_open;
   skill_card_1; skill_card_2; skill_card_3; skill_card_4; skill_card_5;
   skills_close; projects_open; project_card_1; project_card_2;
   project_card_3; project_card_4; project_card_5; project_card_6;
   project_card_7; project_card_8; project_card_9; project_card_10;
   tech_tag_open; tech_tag_close; projects_close].

(** The literals that occur once in the page. *)
Definition fixed_literals : list jsstring :=
  [header_1; hero_1; about_1; about_2; other_1; other_2; resume_1;
   resume_2; resume_3; resume_4; contact_1; contact_2; contact_3;
   contact_4; footer_1; footer_2; footer_3; footer_4; footer_5;
   footer_6; footer_7; footer_8; app_1; app_2; app_3; app_4; app_5;
   app_6; app_7; app_8; app_9; app_10; skills_open; skills_close;
   projects_open; projects_close].

Definition other_pieces : list jsstring :=
  [other_card_1; other_card_2; other_card_3; other_card_4; other_card_5;
   other_card_6].

Definition education_pieces : list jsstring :=
  [education_item_1; education_item_2; education_item_3; education_item_4].

Definition experience_pieces : list jsstring :=
  [experience_item_1; experience_item_2; experience_item_3;
   experience_item_4; experience_item_5].

Definition certification_pieces : list jsstring :=
  [certification_item_1; certification_item_2; certification_item_3].

Definition plain_other (p : OtherProject) : bool :=
  plain (other_icon p) && plain (other_title p)
  && plain (other_description p) && plain (other_tech p)
  && plain (other_github p).

Definition plain_education (e : Education) : bool :=
  plain (degree e) && plain (institution e) && plain (edu_year e).

Definition plain_experience (e : Experience) : bool :=
  plain (role e) && plain (company e) && plain (period e)
  && plain (exp_description e).

Definition plain_certification (c : Certification) : bool :=
  plain (cert_name c) && plain (cert_year c).

(** Every interpolated value of the data is plain text. *)
Definition plain_site (d : SiteData) : bool :=
  plain (info_name (personalInfo d)) && plain (info_email (personalInfo d))
  && plain (info_location (personalInfo d))
  && plain (info_bio (personalInfo d))
  && plain (social_github (socialLinks d))
  && plain (social_linkedin (socialLinks d))
  && plain (social_twitter (socialLinks d))
  && plain (social_instagram (socialLinks d))
  && plain (social_email (socialLinks d))
  && plain_data (portfolio d)
  && forallb plain_other (otherProjects d)
  && forallb plain_education (education (resume d))
  && forallb plain_experience (experience (resume d))
  && forallb plain_certification (certifications (resume d)).

(** The number of occurrences of a tag in the page, from the numbers of
    entries of the data. *)
Definition expected_count (tag : jsstring) (d : SiteData) : nat :=
  (pieces_count tag fixed_literals
   + length (skills (portfolio d)) * pieces_count tag skill_pieces
   + length (featuredProjects (portfolio d))
     * pieces_count tag project_pieces
   + length (otherProjects d) * pieces_count tag other_pieces
   + length (education (resume d)) * pieces_count tag education_pieces
   + length (experience (resume d)) * pieces_count tag experience_pieces
   + length (certifications (resume d))
     * pieces_count tag certification_pieces)%nat.

(** The opening tags of the elements the components of the page look
    up, each expected once. *)
Definition anchors : list jsstring :=
  [markup ["<header class=`header`>"];
   markup ["<ul class=`nav-menu`>"];
   markup ["<button class=`theme-toggle` aria-label=`Toggle theme`>"];
   markup ["<button class=`mobile-menu-toggle` aria-label=`Toggle mobile menu`>"];
   markup ["<div id=`particles-js` aria-hidden=`true`>"];
   markup ["<button id=`particles-toggle` class=`particles-toggle` "];
   markup ["<div class=`typing-text` id=`typing-text`>"];
   markup ["<form id=`contact-form` class=`contact-form fade-in`>"];
   markup ["<div id=`form-status` class=`form-status`>"];
   markup ["<input type=`text` id=`name` name=`name` required aria-required=`true`>"];
   markup ["<input type=`email` id=`email` name=`email` required aria-required=`true`>"];
   markup ["<input type=`text` id=`subject` name=`subject`>"];
   markup ["<textarea id=`message` name=`message` required aria-required=`true`>"];
   markup ["<button type=`submit` class=`btn-submit`>"]].

(** The opening tags of the repeated elements. *)
Definition other_tag : jsstring :=
  markup ["<article class=`other-project-card fade-in`>"].
Definition timeline_tag : jsstring := markup ["<div class=`timeline-item`>"].

(** The data of the page besides the skills and the featured projects,
    with one entry of each kind. *)
Definition sample_site : SiteData :=
  mkSite
    (mkInfo (lit "Nigel Berewere") (lit "Full-Stack Developer")
            (lit "nigelberewere@gmail.com") (lit "Harare, Zimbabwe")
            (lit "Passionate full-stack developer"))
    (mkSocial (lit "https://github.com/NigelBerewere")
              (lit "https://www.linkedin.com/in/nigel-berewere")
              (lit "https://twitter.com/NigelBerewere")
              (lit "https://www.instagram.com/nigelberewere")
              (lit "mailto:nigelberewere@gmail.com"))
    portfolioData
    [mkOther (lit "Weather App")
             (lit "Real-time weather application with forecasts")
             (lit "JavaScript, API") (lit "https://github.com/NigelBerewere")
             (lit "fas fa-cloud-sun")]
    (mkResume
       [mkEducation (lit "Bachelor of Science in Computer Science")
                    (lit "National University of Science and technology")
                    (lit "2024-2028")]
       [mkExperience (lit "Full-Stack Developer") (lit "Tech Company")
                     (lit "2023-Present")
                     (lit "Developed web and mobile applications")]
       [mkCertification (lit "Firebase Certified Developer") (lit "2024")]).

End PageRender.

(** ** The markup as the page receives it: the part of HTML parsing that
       the templates of [renderSkills] and [renderProjects] need, and
       the class selector of [querySelectorAll] (src/app.js, lines 312
       and 764)

    The parser follows the HTML parsing algorithm, tokenizer and tree
    builder at once, for markup as the two templates write it: start
    and end tags in lower case, attributes in double quotes, the
    elements of the templates, every element closed by its own end tag.
    For any other markup it gives no tree, where the algorithm would
    repair, ignore or replace something. *)

Module Html.
Import JS.

(** A node of the tree that [innerHTML = markup] builds. *)
#[warnings="-register-all"]
Inductive Node : Type :=
| Text (data : jsstring)
| Element (tagName : jsstring) (attributes : list (jsstring * jsstring))
          (children : list Node).

(** No text node is empty. *)
Definition text_nodes (buf : jsstring) : list Node :=
  match buf with
  | [] => []
  | _ :: _ => [Text buf]
  end.

Arguments text_nodes !buf /.

(** The list with one more item at its end. *)
Fixpoint snoc {A : Type} (l : list A) (a : A) : list A :=
  match l with
  | [] => [a]
  | b :: l' => b :: snoc l' a
  end.

Fixpoint same (s t : jsstring) : bool :=
  match s, t with
  | [], [] => true
  | a :: s', b :: t' => (a =? b)%N && same s' t'
  | _, _ => false
  end.

Definition one_of (names : list string) (name : jsstring) : bool :=
  existsb (fun n => same name (lit n)) names.

Definition is_lower (c : code_unit) : bool := (97 <=? c)%N && (c <=? 122)%N.
Definition is_upper (c : code_unit) : bool := (65 <=? c)%N && (c <=? 90)%N.
Definition is_digit (c : code_unit) : bool := (48 <=? c)%N && (c <=? 57)%N.

(** What makes a character reference of the ampersand before it: a
    letter, a digit or [#]. *)
Definition names_reference (c : code_unit) : bool :=
  is_lower c || is_upper c || is_digit c || (c =? 35)%N.

(** The text read so far ends with an ampersand. *)
Definition after_amp (buf : jsstring) : bool :=
  match last buf with
  | Some c => (c =? 38)%N
  | None => false
  end.

(** The whitespace that separates the parts of a tag: tab, line feed,
    form feed and space. *)
Definition is_tag_space (c : code_unit) : bool :=
  (c =? 9)%N || (c =? 10)%N || (c =? 12)%N || (c =? 32)%N.

(** The elements of the fragment, by the rule that the tree builder
    applies to their start tag in a body. *)
Inductive Kind : Type :=
| Block
| Paragraph
| Heading
| Anchor
| Phrasing.

Definition kind (name : jsstring) : option Kind :=
  if one_of ["div"; "section"; "article"] name then Some Block
  else if one_of ["p"] name then Some Paragraph
  else if one_of ["h1"; "h2"; "h3"; "h4"; "h5"; "h6"] name then Some Heading
  else if one_of ["a"] name then Some Anchor
  else if one_of ["i"; "strong"; "span"] name then Some Phrasing
  else None.

(** An open element: its name, its attributes, the children it has so
    far, and whether a [p] or an [a] element is open at or above it. *)
Record Frame : Type := mkFrame {
  f_name : jsstring;
  f_attrs : list (jsstring * jsstring);
  f_kids : list Node;
  in_p : bool;
  in_a : bool
}.

(** Where the tokenizer stands. *)
Inductive Mode : Type :=
| InText (buf : jsstring)
| TagOpen
| EndTagOpen
| TagName (name : jsstring)
| EndTagName (name : jsstring)
| BeforeAttr (name : jsstring) (attrs : list (jsstring * jsstring))
| AttrName (name : jsstring) (attrs : list (jsstring * jsstring))
           (aname : jsstring)
| BeforeValue (name : jsstring) (attrs : list (jsstring * jsstring))
              (aname : jsstring)
| InValue (name : jsstring) (attrs : list (jsstring * jsstring))
          (aname value : jsstring)
| AfterValue (name : jsstring) (attrs : list (jsstring * jsstring)).

(** The parser: the tokenizer and the stack of open elements, the
    current node first; the last frame stands for the element whose
    [innerHTML] is set. *)
Record Parser : Type := mkParser {
  mode : Mode;
  stack : list Frame
}.

Definition append (node : list Node) (f : Frame) : Frame :=
  mkFrame (f_name f) (f_attrs f) (f_kids f ++ node) (in_p f) (in_a f).

(** The text read so far becomes a child of the current node. *)
Definition flush (buf : jsstring) (stack : list Frame) : list Frame :=
  match stack with
  | [] => []
  | top :: rest => append (text_nodes buf) top :: rest
  end.

(** A start tag: the element is opened in the current node.  [None]
    where the tree builder would do more than that: a [p] element is
    open and the tag would close it, a heading is opened in a heading,
    an [a] in an [a], or the element is none of the fragment. *)
Definition start_tag (name : jsstring) (attrs : list (jsstring * jsstring))
    (stack : list Frame) : option (list Frame) :=
  match stack with
  | [] => None
  | top :: _ =>
    match kind name with
    | Some Block =>
      if in_p top then None
      else Some (mkFrame name attrs [] false (in_a top) :: stack)
    | Some Paragraph =>
      if in_p top then None
      else Some (mkFrame name attrs [] true (in_a top) :: stack)
    | Some Heading =>
      if in_p top then None
      else
        match kind (f_name top) with
        | Some Heading => None
        | _ => Some (mkFrame name attrs [] false (in_a top) :: stack)
        end
    | Some Anchor =>
      if in_a top then None
      else Some (mkFrame name attrs [] (in_p top) true :: stack)
    | Some Phrasing =>
      Some (mkFrame name attrs [] (in_p top) (in_a top) :: stack)
    | None => None
    end
  end.

(** An end tag: it must close the current node, which becomes a child
    of the node below it. *)
Definition end_tag (name : jsstring) (stack : list Frame)
    : option (list Frame) :=
  match stack with
  | top :: parent :: rest =>
    if same name (f_name top)
    then Some (append [Element (f_name top) (f_attrs top) (f_kids top)]
                      parent :: rest)
    else None
  | _ => None
  end.

Definition has_attr (aname : jsstring) (attrs : list (jsstring * jsstring))
    : bool :=
  existsb (fun a => same aname (fst a)) attrs.

(** After a tag the tokenizer reads text again. *)
Definition resume (stack : option (list Frame)) : option Parser :=
  match stack with
  | Some stack => Some (mkParser (InText []) stack)
  | None => None
  end.

(** One code unit of the markup.  [None]: the markup leaves the
    fragment: a tag that is not written as [<name attr="value" ...>] or
    [</name>] in lower case, a comment, a repeated attribute, an element
    outside [kind], or a text or an attribute value that is not the
    code units written (a text with a character reference, an attribute
    value with an ampersand, either with a NUL or a carriage return). *)
Definition step (p : Parser) (c : code_unit) : option Parser :=
  match mode p with
  | InText buf =>
    if (c =? 60)%N then Some (mkParser TagOpen (flush buf (stack p)))
    else if (c =? 0)%N || (c =? 13)%N then None
    else if names_reference c && after_amp buf then None
    else Some (mkParser (InText (buf ++ [c])) (stack p))
  | TagOpen =>
    if (c =? 47)%N then Some (mkParser EndTagOpen (stack p))
    else if is_lower c then Some (mkParser (TagName [c]) (stack p))
    else None
  | EndTagOpen =>
    if is_lower c then Some (mkParser (EndTagName [c]) (stack p))
    else None
  | TagName name =>
    if is_lower c || is_digit c
    then Some (mkParser (TagName (snoc name c)) (stack p))
    else if is_tag_space c then Some (mkParser (BeforeAttr name []) (stack p))
    else if (c =? 62)%N
    then resume (start_tag name [] (stack p))
    else None
  | EndTagName name =>
    if is_lower c || is_digit c
    then Some (mkParser (EndTagName (snoc name c)) (stack p))
    else if (c =? 62)%N
    then resume (end_tag name (stack p))
    else None
  | BeforeAttr name attrs =>
    if is_tag_space c then Some p
    else if (c =? 62)%N
    then resume (start_tag name attrs (stack p))
    else if is_lower c then Some (mkParser (AttrName name attrs [c]) (stack p))
    else None
  | AttrName name attrs aname =>
    if is_lower c || is_digit c || (c =? 45)%N
    then Some (mkParser (AttrName name attrs (snoc aname c)) (stack p))
    else if (c =? 61)%N
    then if has_attr aname attrs then None
         else Some (mkParser (BeforeValue name attrs aname) (stack p))
    else None
  | BeforeValue name attrs aname =>
    if (c =? 34)%N then Some (mkParser (InValue name attrs aname []) (stack p))
    else None
  | InValue name attrs aname value =>
    if (c =? 34)%N
    then Some (mkParser (AfterValue name (snoc attrs (aname, value)))
                        (stack p))
    else if (c =? 38)%N || (c =? 0)%N || (c =? 13)%N then None
    else Some (mkParser (InValue name attrs aname (value ++ [c])) (stack p))
  | AfterValue name attrs =>
    if is_tag_space c then Some (mkParser (BeforeAttr name attrs) (stack p))
    else if (c =? 62)%N
    then resume (start_tag name attrs (stack p))
    else None
  end.

Fixpoint feed (markup : jsstring) (p : Parser) : option Parser :=
  match markup with
  | [] => Some p
  | c :: markup' =>
    match step p c with
    | Some p' => feed markup' p'
    | None => None
    end
  end.

(** The element whose [innerHTML] is set, with no child yet. *)
Definition root : Frame := mkFrame [] [] [] false false.

(** The end of the markup: every element must have been closed. *)
Definition finish (p : Parser) : option (list Node) :=
  match mode p, stack p with
  | InText buf, [top] => Some (f_kids top ++ text_nodes buf)
  | _, _ => None
  end.

(** The children that [element.innerHTML = markup] gives a flow
    element, for markup of the fragment. *)
Definition parse (markup : jsstring) : option (list Node) :=
  match feed markup (mkParser (InText []) [root]) with
  | Some p => finish p
  | None => None
  end.

(** *** The class selector *)

(** ASCII whitespace, which separates the tokens of a [class]
    attribute. *)
Definition is_ascii_space (c : code_unit) : bool :=
  (c =? 9)%N || (c =? 10)%N || (c =? 12)%N || (c =? 13)%N || (c =? 32)%N.

(** The pieces between the whitespace of a string, empty ones
    included. *)
Fixpoint split (s : jsstring) : list jsstring :=
  match s with
  | [] => [[]]
  | c :: s' =>
    if is_ascii_space c then [] :: split s'
    else
      match split s' with
      | piece :: pieces => (c :: piece) :: pieces
      | [] => [[c]]
      end
  end.

Definition non_empty (s : jsstring) : bool :=
  match s with
  | [] => false
  | _ :: _ => true
  end.

Definition class_tokens (value : jsstring) : list jsstring :=
  List.filter non_empty (split value).

Definition to_lower (c : code_unit) : code_unit :=
  if (65 <=? c)%N && (c <=? 90)%N then (c + 32)%N else c.

(** Whether a token is the class of the selector: code unit by code
    unit, and without regard to ASCII case in a document in quirks
    mode. *)
Definition is_class (quirks : bool) (cls token : jsstring) : bool :=
  if quirks then same (to_lower <$> cls) (to_lower <$> token)
  else same cls token.

Definition class_value (attrs : list (jsstring * jsstring)) : jsstring :=
  match List.find (fun a => same (lit "class") (fst a)) attrs with
  | Some a => snd a
  | None => []
  end.

(** Whether the [class] attribute among these holds the class. *)
Definition matches_class (quirks : bool) (cls : jsstring)
    (attrs : list (jsstring * jsstring)) : bool :=
  existsb (is_class quirks cls) (class_tokens (class_value attrs)).

Definition has_class (quirks : bool) (cls : jsstring) (n : Node) : bool :=
  match n with
  | Text _ => false
  | Element _ attrs _ => matches_class quirks cls attrs
  end.

(** The elements of a tree, in document order. *)
Fixpoint elements (n : Node) : list Node :=
  match n with
  | Text _ => []
  | Element _ _ kids => n :: concat (List.map elements kids)
  end.

(** [querySelectorAll('.' + cls)] over the nodes. *)
Definition select (quirks : bool) (cls : jsstring) (nodes : list Node)
    : list Node :=
  List.filter (has_class quirks cls) (concat (List.map elements nodes)).

(** The elements that the selector finds after [innerHTML = markup]. *)
Definition querySelectorAll (quirks : bool) (cls markup : jsstring)
    : option (list Node) :=
  match parse markup with
  | Some nodes => Some (select quirks cls nodes)
  | None => None
  end.

End Html.

(** ** The cards of the page as elements *)

Module Cards.
Import JS Render Html.

(** A line break and the indentation that follows it. *)
Definition indent (n : nat) : jsstring := 10%N :: repeat 32%N n.

Definition attr (name : string) (value : jsstring) : jsstring * jsstring :=
  (lit name, value).

Definition class (value : string) : jsstring * jsstring :=
  attr "class" (lit value).

Definition percent (n : N) : jsstring := number_toString n ++ lit "%".

(** The element that the template of [renderSkills] describes for a
    skill with this icon, name and proficiency. *)
Definition skill_element (icon name : jsstring) (proficiency : N) : Node :=
  Element (lit "div") [class "skill-card fade-in"]
    [Text (indent 12);
     Element (lit "div") [class "skill-header"]
       [Text (indent 14);
        Element (lit "i") [attr "class" (lit "skill-icon " ++ icon)] [];
        Text (indent 14);
        Element (lit "h3") [class "skill-name"] (text_nodes name);
        Text (indent 12)];
     Text (indent 12);
     Element (lit "div") [class "skill-bar"]
       [Text (indent 14);
        Element (lit "div")
          [class "skill-progress"; attr "data-width" (percent proficiency)]
          [];
        Text (indent 12)];
     Text (indent 12);
     Element (lit "div") [class "skill-percentage"]
       [Text (percent proficiency)];
     Text (indent 10)].

Definition skill_card_element (skill : Skill) : Node :=
  skill_element (skill_icon skill) (skill_name skill) (proficiency skill).

(** The element of a technology of a project. *)
Definition tech_element (tech : jsstring) : Node :=
  Element (lit "span") [class "tech-tag"] (text_nodes tech).

(** The children of the [tech-stack] element: the tags stand side by
    side between two runs of whitespace, which are one text when there
    is no tag. *)
Definition tech_children (techs : list jsstring) : list Node :=
  match techs with
  | [] => [Text (indent 16 ++ indent 14)]
  | _ :: _ =>
    [Text (indent 16)] ++ (tech_element <$> techs) ++ [Text (indent 14)]
  end.

(** A line of the details of a project. *)
Definition detail (label : string) (value : jsstring) : Node :=
  Element (lit "p") []
    [Element (lit "strong") [] [Text (lit label)];
     Text (lit " " ++ value)].

(** A link of a project. *)
Definition link (href : jsstring) (attrs : list (jsstring * jsstring))
    (icon label : string) : Node :=
  Element (lit "a") (attr "href" href :: attrs)
    [Text (indent 18);
     Element (lit "i") [class icon] [];
     Text (lit label ++ indent 16)].

(** The element that the template of [renderProjects] describes for a
    project with these fields. *)
Definition project_element (icon title description problem solution impact
    : jsstring) (techs : list jsstring) (github demo : jsstring) : Node :=
  Element (lit "article") [class "project-card fade-in"]
    [Text (indent 12);
     Element (lit "div") [class "project-image"]
       [Text (indent 14);
        Element (lit "i") [attr "class" icon] [];
        Text (indent 12)];
     Text (indent 12);
     Element (lit "div") [class "project-content"]
       [Text (indent 14);
        Element (lit "h3") [class "project-title"] (text_nodes title);
        Text (indent 14);
        Element (lit "p") [class "project-description"]
          (text_nodes description);
        Text (indent 14);
        Element (lit "div") [class "project-details"]
          [Text (indent 16);
           detail "Problem:" problem;
           Text (indent 16);
           detail "Solution:" solution;
           Text (indent 16);
           detail "Impact:" impact;
           Text (indent 14)];
        Text (indent 14);
        Element (lit "div") [class "tech-stack"] (tech_children techs);
        Text (indent 14);
        Element (lit "div") [class "project-links"]
          [Text (indent 16);
           link github
             [class "btn btn-primary btn-small"; attr "target" (lit "_blank");
              attr "rel" (lit "noopener noreferrer")]
             "fab fa-github" " GitHub";
           Text (indent 16);
           link demo [class "btn btn-secondary btn-small"]
             "fas fa-external-link-alt" " Live Demo";
           Text (indent 14)];
        Text (indent 12)];
     Text (indent 10)].

Definition project_card_element (project : Project) : Node :=
  project_element (project_icon project) (title project)
    (description project) (problem project) (solution project)
    (impact project) (techStack project) (github project) (demo project).

(** The children of the element that holds the cards: each card after a
    run of whitespace, and whitespace at the end. *)
Definition grid_children (cards : list Node) : list Node :=
  concat ((fun card => [Text (indent 8 ++ indent 10); card]) <$> cards)
  ++ [Text (indent 8 ++ indent 6)].

(** The section of a template, with its title and its cards. *)
Definition section_element (id : string) (title : string) (grid : string)
    (cards : list Node) : Node :=
  Element (lit "section")
    [attr "id" (lit id); class "section"; attr "role" (lit "region");
     attr "aria-labelledby" (lit (id +:+ "-title"))]
    [Text (indent 6);
     Element (lit "h2")
       [attr "id" (lit (id +:+ "-title")); class "section-title fade-in"]
       [Text (lit title)];
     Text (indent 6);
     Element (lit "div") [class grid] (grid_children cards);
     Text (indent 4)].

Definition skills_section (d : PortfolioData) : Node :=
  section_element "skills" "Skills" "skills-grid"
    (skill_card_element <$> skills d).

Definition projects_section (d : PortfolioData) : Node :=
  section_element "projects" "Featured Projects" "projects-grid"
    (project_card_element <$> featuredProjects d).

(** The nodes that the two sections of the page make. *)
Definition sections (d : PortfolioData) : list Node :=
  [Text (indent 4); skills_section d;
   Text (indent 2 ++ indent 6 ++ indent 4); projects_section d;
   Text (indent 2)].












End Cards.

(** ** Facts about TypingAnimation *)

Module TypingFacts.
Import Typing.

(** *** Facts about indexing and [substring] *)

Lemma index_Some_range {A} (l : list A) i x :
  index l i = Some x -> 0 <= i < arr_length l.
Proof.
  unfold index, arr_length. destruct (Z.ltb_spec i 0); [discriminate|].
  intros Hl. apply lookup_lt_Some in Hl. lia.
Qed.

Lemma index_in_range {A} (l : list A) i :
  0 <= i < arr_length l -> is_Some (index l i).
Proof.
  unfold index, arr_length. intros Hi.
  destruct (Z.ltb_spec i 0); [lia|].
  apply lookup_lt_is_Some. lia.
Qed.

Lemma index_nil {A} i : index (@nil A) i = None.
Proof. unfold index. destruct (i <? 0); reflexivity. Qed.

Lemma rem_in_range i n : 0 <= i < n -> 0 <= Z.rem (i + 1) n < n.
Proof. intros Hi. rewrite Z.rem_mod_nonneg by lia. apply Z.mod_pos_bound. lia. Qed.

Lemma substring_0 (s : jsstring) c :
  substring s 0 c = take (Z.to_nat (clamp (str_length s) c)) s.
Proof.
  unfold substring. set (len := str_length s).
  assert (Hlen : 0 <= len) by (unfold len, str_length; lia).
  assert (Ha : clamp len 0 = 0) by (unfold clamp; lia).
  assert (Hb : 0 <= clamp len c) by (unfold clamp; lia).
  rewrite Ha, Z.min_l, Z.max_r, Z.sub_0_r by lia. reflexivity.
Qed.

Lemma substring_0_prefix (s : jsstring) c : substring s 0 c `prefix_of` s.
Proof. rewrite substring_0. apply prefix_take. Qed.

Lemma substring_0_full (s : jsstring) c :
  str_length s <= c -> substring s 0 c = s.
Proof.
  intros Hc. rewrite substring_0. apply take_ge.
  unfold clamp, str_length in *. lia.
Qed.

Lemma substring_0_length (s : jsstring) c :
  0 <= c <= str_length s -> str_length (substring s 0 c) = c.
Proof.
  intros Hc. rewrite substring_0. unfold clamp, str_length in *.
  rewrite length_take. lia.
Qed.

Section Invariant.

Variable el : jsstring.
Variable ts : list jsstring.
Variables tsp dsp : Z.

Local Abbreviation inv := (inv ts tsp dsp).
Local Abbreviation phase := (phase tsp dsp).

Hypothesis nonempty : ts <> [].

Lemma arr_length_pos : 0 < arr_length ts.
Proof. unfold arr_length. destruct ts; [congruence | simpl; lia]. Qed.

Lemma index_0 : is_Some (index ts 0).
Proof. apply index_in_range. pose proof arr_length_pos. lia. Qed.

Lemma index_advance i phrase :
  index ts i = Some phrase ->
  is_Some (index ts (Z.rem (i + 1) (arr_length ts))).
Proof.
  intros Hi. apply index_in_range, rem_in_range.
  eapply index_Some_range, Hi.
Qed.

Lemma inv_start : inv (start (new el ts tsp dsp)).
Proof.
  destruct index_0 as [phrase Hp].
  unfold inv, start, invoke, type, new; simpl. rewrite Hp; simpl.
  destruct (Z.gtb_spec (0 + 1) (str_length phrase)); simpl;
    (repeat split; [exists phrase; split; [exact Hp|]]);
    unfold phase; simpl; unfold str_length in *; [right; left | left];
    repeat split; lia.
Qed.

Lemma inv_fire w i w' : inv w -> fire i w = Some w' -> inv w'.
Proof.
  destruct w as [[h t tsp' dsp' ti ci d] p f u].
  intros (Ht & Htsp & Hdsp & Hu & phrase & Hp & Hph) Hf.
  simpl in *. subst t tsp' dsp' u.
  unfold fire in Hf. simpl in Hf.
  destruct Hph as [(Hd & Hq & Hc) | [(Hd & Hq & Hc) | (Hd & Hq & Hc)]];
    simpl in *; subst d p;
    (destruct i as [|i]; simpl in Hf; [|discriminate]);
    injection Hf as <-;
    unfold invoke, type; simpl; rewrite Hp; simpl.
  - destruct (Z.gtb_spec (ci + 1) (str_length phrase)); simpl;
      (repeat split; [exists phrase; split; [exact Hp|]]);
      unfold phase; simpl; [right; left | left]; repeat split; lia.
  - subst ci.
    destruct (Z.eqb_spec (str_length phrase + 1 - 1) 0) as [Hz|Hz]; simpl.
    + destruct (index_advance _ _ Hp) as [phrase' Hp'].
      repeat split. exists phrase'. split; [exact Hp'|].
      unfold phase; simpl. left. unfold str_length in *. repeat split; lia.
    + repeat split. exists phrase. split; [exact Hp|].
      unfold phase; simpl. right; right.
      unfold str_length in *. repeat split; lia.
  - destruct (Z.eqb_spec (ci - 1) 0) as [Hz|Hz]; simpl.
    + destruct (index_advance _ _ Hp) as [phrase' Hp'].
      repeat split. exists phrase'. split; [exact Hp'|].
      unfold phase; simpl. left. unfold str_length in *. repeat split; lia.
    + repeat split. exists phrase. split; [exact Hp|].
      unfold phase; simpl. right; right. repeat split; lia.
Qed.

Lemma inv_reachable w : reachable el ts tsp dsp w -> inv w.
Proof.
  induction 1 as [|w i w' _ IH Hf]; [apply inv_start|].
  eapply inv_fire; eassumption.
Qed.

End Invariant.


(** *** Single steps of the machine *)

Section Steps.

Variable ts : list jsstring.
Variables tsp dsp : Z.

Local Abbreviation core := (core ts tsp dsp).

Ltac open_world w :=
  destruct w as [[? ? ? ? ? ? ?] ? ? ?];
  unfold Typing.core in *; simpl in *.

Ltac one_step Hp :=
  unfold next, fire; simpl; unfold invoke, type; simpl;
  rewrite Hp; simpl.

Lemma step_typing w i c phrase :
  core w i c false [mkTimer JustType tsp] ->
  index ts i = Some phrase ->
  0 <= c < str_length phrase ->
  core (next w) i (c + 1) false [mkTimer JustType tsp].
Proof.
  open_world w. intros (-> & -> & -> & -> & -> & -> & -> & ->) Hp Hc.
  one_step Hp.
  destruct (Z.gtb_spec (c + 1) (str_length phrase)); [lia|].
  simpl. repeat split.
Qed.

Lemma step_typed w i phrase :
  core w i (str_length phrase) false [mkTimer JustType tsp] ->
  index ts i = Some phrase ->
  core (next w) i (str_length phrase + 1) false
       [mkTimer PauseThenType 2000]
  /\ innerHTML (anim (next w)) = phrase ++ cursor.
Proof.
  open_world w. intros (-> & -> & -> & -> & -> & -> & -> & ->) Hp.
  one_step Hp.
  destruct (Z.gtb_spec (str_length phrase + 1) (str_length phrase));
    [|lia].
  simpl. rewrite substring_0_full by lia. repeat split.
Qed.

Lemma step_pause w i phrase :
  core w i (str_length phrase + 1) false [mkTimer PauseThenType 2000] ->
  index ts i = Some phrase ->
  0 < str_length phrase ->
  core (next w) i (str_length phrase) true [mkTimer JustType dsp].
Proof.
  open_world w. intros (-> & -> & -> & -> & -> & -> & -> & ->) Hp Hc.
  one_step Hp.
  destruct (Z.eqb_spec (str_length phrase + 1 - 1) 0); [lia|].
  simpl. repeat split; lia.
Qed.

Lemma step_pause_empty w i phrase :
  core w i (str_length phrase + 1) false [mkTimer PauseThenType 2000] ->
  index ts i = Some phrase ->
  str_length phrase = 0 ->
  core (next w) (Z.rem (i + 1) (arr_length ts)) 0 false
       [mkTimer JustType tsp].
Proof.
  open_world w. intros (-> & -> & -> & -> & -> & -> & -> & ->) Hp Hc.
  one_step Hp.
  destruct (Z.eqb_spec (str_length phrase + 1 - 1) 0); [|lia].
  simpl. repeat split; lia.
Qed.

Lemma step_deleting w i c phrase :
  core w i c true [mkTimer JustType dsp] ->
  index ts i = Some phrase ->
  1 < c ->
  core (next w) i (c - 1) true [mkTimer JustType dsp].
Proof.
  open_world w. intros (-> & -> & -> & -> & -> & -> & -> & ->) Hp Hc.
  one_step Hp.
  destruct (Z.eqb_spec (c - 1) 0); [lia|].
  simpl. repeat split.
Qed.

Lemma step_deleted w i phrase :
  core w i 1 true [mkTimer JustType dsp] ->
  index ts i = Some phrase ->
  core (next w) (Z.rem (i + 1) (arr_length ts)) 0 false
       [mkTimer JustType tsp].
Proof.
  open_world w. intros (-> & -> & -> & -> & -> & -> & -> & ->) Hp.
  one_step Hp. repeat split.
Qed.

Lemma run_add n m w : run (n + m) w = run m (run n w).
Proof. revert w. induction n as [|n IH]; intros w; simpl; [reflexivity | apply IH]. Qed.

Lemma run_S n w : run (S n) w = next (run n w).
Proof. replace (S n) with (n + 1)%nat by lia. rewrite run_add. reflexivity. Qed.

(** Typing [k] more characters. *)
Lemma run_typing k : forall w i c phrase,
  core w i c false [mkTimer JustType tsp] ->
  index ts i = Some phrase ->
  0 <= c -> c + Z.of_nat k <= str_length phrase ->
  core (run k w) i (c + Z.of_nat k) false [mkTimer JustType tsp].
Proof.
  induction k as [|k IH]; intros w i c phrase Hw Hp Hc Hk.
  - simpl. rewrite Z.add_0_r. exact Hw.
  - simpl run.
    replace (c + Z.of_nat (S k)) with (c + 1 + Z.of_nat k) by lia.
    apply IH with phrase; [|assumption|lia|lia].
    apply step_typing with phrase; [assumption|assumption|lia].
Qed.

(** Deleting [k] characters, the cursor staying above 0. *)
Lemma run_deleting k : forall w i c phrase,
  core w i c true [mkTimer JustType dsp] ->
  index ts i = Some phrase ->
  Z.of_nat k < c ->
  core (run k w) i (c - Z.of_nat k) true [mkTimer JustType dsp].
Proof.
  induction k as [|k IH]; intros w i c phrase Hw Hp Hk.
  - simpl. rewrite Z.sub_0_r. exact Hw.
  - simpl run.
    replace (c - Z.of_nat (S k)) with (c - 1 - Z.of_nat k) by lia.
    apply IH with phrase; [|assumption|lia].
    apply step_deleting with phrase; [assumption|assumption|lia].
Qed.

(** Typing the whole phrase from an empty display: after
    [length phrase + 1] invocations the phrase is shown in full and
    the pause is pending. *)
Lemma run_typed w i phrase :
  begins ts tsp dsp i w ->
  index ts i = Some phrase ->
  core (run (S (length phrase)) w) i (str_length phrase + 1) false
       [mkTimer PauseThenType 2000]
  /\ innerHTML (anim (run (S (length phrase)) w)) = phrase ++ cursor.
Proof.
  intros Hw Hp. rewrite run_S.
  apply step_typed; [|assumption].
  change (str_length phrase) with (Z.of_nat (length phrase)).
  rewrite <- (Z.add_0_l (Z.of_nat (length phrase))).
  apply run_typing with phrase; unfold str_length; try lia; assumption.
Qed.

(** A full type/delete cycle of phrase [i] leads to the start of the
    next phrase, in [cycle_steps phrase] invocations. *)
Lemma run_cycle w i phrase :
  begins ts tsp dsp i w ->
  index ts i = Some phrase ->
  begins ts tsp dsp (Z.rem (i + 1) (arr_length ts))
         (run (cycle_steps phrase) w).
Proof.
  intros Hw Hp.
  destruct (run_typed w i phrase Hw Hp) as [Hfull _].
  unfold cycle_steps.
  replace (2 * S (length phrase))%nat
    with (S (length phrase) + S (length phrase))%nat by lia.
  rewrite run_add. set (w1 := run (S (length phrase)) w) in *.
  destruct (length phrase) as [|n] eqn:Hlen.
  - simpl run. apply step_pause_empty with phrase;
      [assumption | assumption | unfold str_length; lia].
  - rewrite run_S. rewrite run_S.
    apply step_deleted with phrase; [|assumption].
    assert (Hd : core (next w1) i (str_length phrase) true
                      [mkTimer JustType dsp]).
    { apply step_pause; [assumption | assumption |].
      unfold str_length; lia. }
    replace 1 with (str_length phrase - Z.of_nat n)
      by (unfold str_length; lia).
    rewrite <- run_S. simpl run.
    apply run_deleting with phrase;
      [assumption | assumption | unfold str_length; lia].
Qed.

End Steps.


(** *** Rounds over the whole phrase sequence *)

Section Rounds.

Variable ts : list jsstring.
Variables tsp dsp : Z.

Local Abbreviation begins := (begins ts tsp dsp).

Lemma index_of_nat (i : nat) : index ts (Z.of_nat i) = ts !! i.
Proof.
  unfold index. destruct (Z.ltb_spec (Z.of_nat i) 0); [lia|].
  rewrite Nat2Z.id. reflexivity.
Qed.

Lemma drop_cons_inv (i : nat) p rest :
  drop i ts = p :: rest ->
  ts !! i = Some p /\ drop (S i) ts = rest /\
  length ts = (i + S (length rest))%nat.
Proof.
  intros Hd.
  assert (Hp : ts !! i = Some p).
  { rewrite <- (Nat.add_0_r i), <- lookup_drop, Hd. reflexivity. }
  split; [exact Hp|]. split.
  - rewrite (drop_S _ _ _ Hp) in Hd. congruence.
  - assert (Hl := f_equal length Hd). rewrite length_drop in Hl.
    simpl in Hl. apply lookup_lt_Some in Hp. lia.
Qed.

(** From the start of phrase [i], typing and deleting every
    remaining phrase of the sequence leads back to phrase 0. *)
Lemma run_suffix suffix : forall (i : nat) w,
  drop i ts = suffix -> suffix <> [] ->
  begins (Z.of_nat i) w ->
  begins 0 (run (round_steps suffix) w).
Proof.
  induction suffix as [|p rest IH]; intros i w Hd Hne Hw; [congruence|].
  destruct (drop_cons_inv i p rest Hd) as (Hp & Hrest & Hlen).
  change (round_steps (p :: rest))
    with (cycle_steps p + round_steps rest)%nat. rewrite run_add.
  assert (Hc := run_cycle ts tsp dsp w (Z.of_nat i) p Hw).
  rewrite index_of_nat in Hc. specialize (Hc Hp).
  unfold arr_length in Hc. rewrite Hlen in Hc.
  destruct rest as [|q rest'].
  - simpl in *. replace (Z.of_nat i + 1) with (Z.of_nat (i + 1)) in Hc by lia.
    rewrite Z.rem_same in Hc by lia. exact Hc.
  - rewrite Z.rem_small in Hc by (simpl; lia).
    apply (IH (S i)); [exact Hrest | discriminate |].
    replace (Z.of_nat (S i)) with (Z.of_nat i + 1) by lia. exact Hc.
Qed.

Lemma run_round w :
  ts <> [] -> begins 0 w -> begins 0 (run (round_steps ts) w).
Proof. intros Hne Hw. apply (run_suffix ts 0%nat); auto. Qed.

Lemma run_rounds k : forall w,
  ts <> [] -> begins 0 w -> begins 0 (run (k * round_steps ts) w).
Proof.
  induction k as [|k IH]; intros w Hne Hw; [exact Hw|].
  simpl. rewrite run_add. apply IH; [assumption|].
  apply run_round; assumption.
Qed.

Lemma round_steps_app l1 l2 :
  round_steps (l1 ++ l2) = (round_steps l1 + round_steps l2)%nat.
Proof.
  induction l1 as [|p l1 IH]; [reflexivity|].
  change (round_steps ((p :: l1) ++ l2))
    with (cycle_steps p + round_steps (l1 ++ l2))%nat.
  change (round_steps (p :: l1)) with (cycle_steps p + round_steps l1)%nat.
  rewrite IH. lia.
Qed.

(** From the start of phrase 0, typing and deleting the first [i]
    phrases leads to the start of phrase [i]. *)
Lemma run_prefix (i : nat) : forall w,
  (i < length ts)%nat ->
  begins 0 w ->
  begins (Z.of_nat i) (run (round_steps (take i ts)) w).
Proof.
  induction i as [|i IH]; intros w Hi Hw.
  - rewrite take_0. exact Hw.
  - destruct (lookup_lt_is_Some_2 ts i) as [p Hp]; [lia|].
    rewrite (take_S_r _ _ _ Hp), round_steps_app, run_add.
    change (round_steps [p]) with (cycle_steps p + 0)%nat.
    rewrite Nat.add_0_r.
    assert (Hc := run_cycle ts tsp dsp _ (Z.of_nat i) p
                    (IH w ltac:(lia) Hw)).
    rewrite index_of_nat in Hc. specialize (Hc Hp).
    rewrite Z.rem_small in Hc by (unfold arr_length; lia).
    replace (Z.of_nat (S i)) with (Z.of_nat i + 1) by lia. exact Hc.
Qed.

Lemma round_steps_pos : ts <> [] -> (2 <= round_steps ts)%nat.
Proof. destruct ts; [congruence|]. intros _. simpl. lia. Qed.

End Rounds.

Lemma armed_begins el ts tsp dsp :
  begins ts tsp dsp 0 (armed (new el ts tsp dsp)).
Proof. repeat split. Qed.

Lemma start_armed a : start a = next (armed a).
Proof. reflexivity. Qed.

Lemma run_start n a : run n (start a) = run (S n) (armed a).
Proof. reflexivity. Qed.


(** *** What one invocation of [type] does *)

Lemma prepare_fields cb a :
  texts (prepare cb a) = texts a /\
  textIndex (prepare cb a) = textIndex a /\
  charIndex (prepare cb a) = charIndex a.
Proof. destruct cb; repeat split. Qed.

Lemma type_returns a phrase :
  index (texts a) (textIndex a) = Some phrase ->
  exists a' tm,
    type a = Returned (a', [tm]) /\
    innerHTML a' = substring phrase 0 (charIndex a) ++ cursor.
Proof.
  intros Hp. unfold type. rewrite Hp.
  destruct (isDeleting a); simpl.
  - eexists _, _. split; [reflexivity|].
    destruct (_ =? _); reflexivity.
  - destruct (_ >? _); eexists _, _; split; reflexivity.
Qed.

Lemma invoke_frames cb w phrase :
  index (texts (anim w)) (textIndex (anim w)) = Some phrase ->
  exists f,
    frames (invoke cb w) = frames w ++ [f] /\
    frame_index f = textIndex (anim w) /\
    frame_cursor f = charIndex (anim w) /\
    frame_html f = substring phrase 0 (charIndex (anim w)) ++ cursor.
Proof.
  intros Hp. destruct (prepare_fields cb (anim w)) as (Ht & Hi & Hc).
  destruct (type_returns (prepare cb (anim w)) phrase) as (a' & tm & Hty & Hh).
  { rewrite Ht, Hi. exact Hp. }
  unfold invoke. rewrite Hty. simpl. eexists. split; [reflexivity|].
  simpl. rewrite Hi, Hc in *. repeat split. exact Hh.
Qed.

Lemma frame_ok_intro ts i c h phrase d :
  index ts i = Some phrase ->
  h = substring phrase 0 c ++ cursor ->
  frame_ok ts (mkFrame i d c h).
Proof.
  intros Hp ->. exists phrase. simpl. split; [exact Hp|].
  split; [reflexivity|]. split; [apply substring_0_prefix|].
  intros Hc. rewrite substring_0_full by lia. reflexivity.
Qed.

Section Reachable.

Variable el : jsstring.
Variable ts : list jsstring.
Variables tsp dsp : Z.
Hypothesis nonempty : ts <> [].

Local Abbreviation reachable := (reachable el ts tsp dsp).
Local Abbreviation inv := (inv ts tsp dsp).

Lemma inv_pending w : inv w -> exists t, pending w = [t].
Proof.
  intros (_ & _ & _ & _ & phrase & _ & Hph).
  destruct Hph as [(_ & -> & _) | [(_ & -> & _) | (_ & -> & _)]]; eauto.
Qed.

Lemma inv_next w : inv w -> fire 0 w = Some (next w).
Proof.
  intros Hw. destruct (inv_pending w Hw) as [t Ht].
  unfold next, fire. rewrite Ht. reflexivity.
Qed.

Lemma reachable_next w : reachable w -> reachable (next w).
Proof.
  intros Hw. apply reach_fire with w 0%nat; [exact Hw|].
  apply inv_next. eapply inv_reachable; eassumption.
Qed.

Lemma reachable_run n : forall w, reachable w -> reachable (run n w).
Proof.
  induction n as [|n IH]; intros w Hw; [exact Hw|].
  simpl. apply IH, reachable_next, Hw.
Qed.

Lemma fire_frames w i w' :
  inv w -> fire i w = Some w' ->
  exists f, frames w' = frames w ++ [f] /\ frame_ok ts f.
Proof.
  intros (Ht & _ & _ & _ & phrase & Hp & _) Hf.
  unfold fire in Hf. destruct (pending w !! i) as [t|]; [|discriminate].
  injection Hf as <-.
  destruct (invoke_frames (callback t)
              (mkWorld (anim w) (delete i (pending w)) (frames w)
                       (uncaught w)) phrase)
    as (f & Hfr & Hi & Hc & Hh).
  { simpl. rewrite Ht. exact Hp. }
  exists f. split; [exact Hfr|]. destruct f as [fi fd fc fh].
  simpl in *. subst fi fc. eapply frame_ok_intro; eassumption.
Qed.

Lemma frames_reachable w : reachable w -> Forall (frame_ok ts) (frames w).
Proof.
  induction 1 as [|w i w' Hw IH Hf].
  - destruct (index_0 ts nonempty) as [phrase Hp].
    destruct (invoke_frames JustType
                (mkWorld (new el ts tsp dsp) [] [] 0) phrase Hp)
      as (f & Hfr & Hi & Hc & Hh).
    unfold start. rewrite Hfr. simpl. constructor; [|constructor].
    destruct f as [fi fd fc fh]. simpl in *. subst fi fc.
    eapply frame_ok_intro; eassumption.
  - destruct (fire_frames w i w' (inv_reachable el ts tsp dsp nonempty w Hw) Hf)
      as (f & -> & Hok).
    apply Forall_app. split; [exact IH|]. constructor; [exact Hok|constructor].
Qed.

End Reachable.


(** *** The phrase [ab] *)

Lemma ab_cycle_run h tsp dsp fs u :
  run 6 (mkWorld (mkTyping h [ab] tsp dsp 0 0 false)
                 [mkTimer JustType tsp] fs u)
  = mkWorld (mkTyping (lit "a" ++ cursor) [ab] tsp dsp 0 0 false)
            [mkTimer JustType tsp] (fs ++ ab_frames) u.
Proof.
  transitivity
    (mkWorld (mkTyping (lit "a" ++ cursor) [ab] tsp dsp 0 0 false)
             [mkTimer JustType tsp]
             ((((((fs ++ [mkFrame 0 false 0 cursor])
                    ++ [mkFrame 0 false 1 (lit "a" ++ cursor)])
                   ++ [mkFrame 0 false 2 (ab ++ cursor)])
                  ++ [mkFrame 0 true 3 (ab ++ cursor)])
                 ++ [mkFrame 0 true 2 (ab ++ cursor)])
                ++ [mkFrame 0 true 1 (lit "a" ++ cursor)]) u).
  - vm_compute. reflexivity.
  - rewrite <- !app_assoc. reflexivity.
Qed.

Lemma ab_cycles_run k : forall h tsp dsp fs u,
  exists h',
    run (6 * k) (mkWorld (mkTyping h [ab] tsp dsp 0 0 false)
                         [mkTimer JustType tsp] fs u)
    = mkWorld (mkTyping h' [ab] tsp dsp 0 0 false)
              [mkTimer JustType tsp]
              (fs ++ concat (replicate k ab_frames)) u.
Proof.
  induction k as [|k IH]; intros h tsp dsp fs u.
  - exists h. simpl. rewrite app_nil_r. reflexivity.
  - replace (6 * S k)%nat with (6 + 6 * k)%nat by lia.
    rewrite run_add, ab_cycle_run.
    destruct (IH (lit "a" ++ cursor) tsp dsp (fs ++ ab_frames) u)
      as [h' ->].
    exists h'. simpl. rewrite <- app_assoc. reflexivity.
Qed.

Lemma rendered_ab_frames :
  (fun f => (frame_deleting f, frame_cursor f)) <$> ab_frames = ab_cycle.
Proof. reflexivity. Qed.

Lemma rendered_cycles k :
  (fun f => (frame_deleting f, frame_cursor f))
    <$> concat (replicate k ab_frames)
  = concat (replicate k ab_cycle).
Proof.
  induction k as [|k IH]; [reflexivity|].
  change (concat (replicate (S k) ab_frames))
    with (ab_frames ++ concat (replicate k ab_frames)).
  rewrite fmap_app, IH. reflexivity.
Qed.


(** *** The properties of the specification *)

(** C1, as the specification states it, fails: for the phrase sequence
    [ab], the world reached after three invocations of [type] has
    charIndex 3, above the length 2 of the indexed phrase. *)
Lemma cursor_bound_refuted :
  reachable [] [ab] 80 50 (run 2 (start (new [] [ab] 80 50))) /\
  charIndex (anim (run 2 (start (new [] [ab] 80 50)))) = 3 /\
  ~ cursor_within_phrase (run 2 (start (new [] [ab] 80 50))).
Proof.
  split; [|split].
  - apply reachable_run; [discriminate | apply reach_start].
  - reflexivity.
  - intros (phrase & Hp & Hc). vm_compute in Hp. injection Hp as <-.
    vm_compute in Hc. destruct Hc as [_ Hc]. apply Hc. reflexivity.
Qed.

(** C1, amended: for every phrase sequence of length >= 1, at every
    reachable state the indexed phrase is defined and charIndex lies in
    [0, length(currentPhrase) + 1]; it never goes below 0 and exceeds
    the length of the phrase by at most one (the overshoot that starts
    the pause). *)
Theorem cursor_bound (el : jsstring) (ts : list jsstring) (tsp dsp : Z)
    (w : World) :
  ts <> [] ->
  reachable el ts tsp dsp w ->
  cursor_within_overshoot w.
Proof.
  intros Hne Hw.
  destruct (inv_reachable el ts tsp dsp Hne w Hw)
    as (Ht & _ & _ & _ & phrase & Hp & Hph).
  exists phrase. rewrite Ht. split; [exact Hp|].
  unfold str_length in *.
  destruct Hph as [(_ & _ & Hc) | [(_ & _ & Hc) | (_ & _ & Hc)]]; lia.
Qed.

Lemma cursor_bound_witness :
  cursor_within_overshoot (run 2 (start (new [] [ab] 80 50))).
Proof.
  apply (cursor_bound [] [ab] 80 50).
  - discriminate.
  - apply reachable_run; [discriminate | apply reach_start].
Defined.

(** C2, as the specification states it, fails: for the phrase sequence
    [ab] the first five writes are Typing@0, Typing@1, Typing@2,
    Deleting@3, Deleting@2, not Typing@0, Typing@1, Typing@2,
    Deleting@1, Deleting@0. *)
Lemma ab_sequence_refuted :
  rendered (run 4 (start (new [] [ab] 80 50)))
  = [(false, 0); (false, 1); (false, 2); (true, 3); (true, 2)] /\
  rendered (run 4 (start (new [] [ab] 80 50))) <> ab_cycle_spec.
Proof. split; [reflexivity | discriminate]. Qed.

(** C2, amended: for the phrase sequence [ab], from the initial state
    the writes are Typing@0, Typing@1, Typing@2 (then the pause),
    Deleting@3, Deleting@2, Deleting@1, and then the same cycle of six
    repeats from Typing@0; the texts written in one cycle are the
    empty prefix, a, ab, ab, ab, a, each followed by the cursor. *)
Theorem ab_sequence (el : jsstring) (tsp dsp : Z) :
  (forall k : nat,
     rendered (run (6 * k + 5) (start (new el [ab] tsp dsp)))
     = concat (replicate (S k) ab_cycle)) /\
  (forall n : nat,
     rendered (run n (start (new el [ab] tsp dsp)))
     = take (S n) (concat (replicate (S n) ab_cycle))) /\
  frames (run 5 (start (new el [ab] tsp dsp))) = ab_frames /\
  pending (run 2 (start (new el [ab] tsp dsp)))
  = [mkTimer PauseThenType 2000].
Proof.
  assert (Hk : forall k : nat,
     rendered (run (6 * k + 5) (start (new el [ab] tsp dsp)))
     = concat (replicate (S k) ab_cycle)).
  { intros k. rewrite run_start.
    replace (S (6 * k + 5)) with (6 * S k)%nat by lia.
    unfold armed, new; simpl typingSpeed.
    destruct (ab_cycles_run (S k) el tsp dsp [] 0%nat) as [h' ->].
    unfold rendered.
    change (frames (mkWorld ?a ?p ?f ?u)) with f.
    rewrite app_nil_l. apply rendered_cycles. }
  split; [exact Hk|]. split; [|split; reflexivity].
  intros n.
  assert (Hpre : forall m w,
    reachable el [ab] tsp dsp w ->
    frames w `prefix_of` frames (run m w) /\
    length (frames (run m w)) = (length (frames w) + m)%nat).
  { induction m as [|m IH]; intros w Hw.
    - simpl. split; [reflexivity | lia].
    - simpl run.
      assert (Hne : [ab] <> []) by discriminate.
      assert (Hi := inv_reachable el [ab] tsp dsp Hne w Hw).
      assert (Hn := inv_next _ _ _ _ Hi).
      destruct (fire_frames _ _ _ _ _ _ Hi Hn) as (f & Hf & _).
      destruct (IH (next w) (reachable_next el [ab] tsp dsp Hne w Hw))
        as [Hp Hl].
      rewrite Hf in Hp, Hl. rewrite length_app in Hl. simpl in Hl.
      split; [|lia].
      etransitivity; [|exact Hp]. apply prefix_app_r. reflexivity. }
  set (w := run n (start (new el [ab] tsp dsp))).
  assert (Hw : reachable el [ab] tsp dsp w).
  { apply reachable_run; [discriminate | apply reach_start]. }
  destruct (Hpre (5 * n + 5)%nat w Hw) as [[rest Hrest] _].
  destruct (Hpre n _ (reach_start el [ab] tsp dsp)) as [_ Hlen].
  fold w in Hlen. change (length (frames (start (new el [ab] tsp dsp))))
    with 1%nat in Hlen.
  unfold w in Hrest. rewrite <- run_add in Hrest.
  replace (n + (5 * n + 5))%nat with (6 * n + 5)%nat in Hrest by lia.
  fold w in Hrest. rewrite <- (Hk n). unfold rendered.
  rewrite Hrest, fmap_app, take_app_length'; [reflexivity|].
  rewrite length_fmap. lia.
Qed.


(** C5: for every phrase sequence of length N >= 1 and every phrase
    index i, the start of phrase i is reached in every round from
    [start()], and the type/delete cycle of phrase i (the phrase is shown
    in full after length + 1 invocations, the cycle ends after
    2 * (length + 1)) leaves the machine at the start of phrase
    (i + 1) mod N; after any number of rounds of N cycles the machine is
    back at the start of phrase 0; and for N = 1 it returns to the start
    of the one phrase after every cycle, for ever. *)
Theorem cycle_advances (el : jsstring) (ts : list jsstring) (tsp dsp : Z) :
  ts <> [] ->
  (forall w i phrase,
     begins ts tsp dsp i w ->
     index ts i = Some phrase ->
     innerHTML (anim (run (S (length phrase)) w)) = phrase ++ cursor /\
     begins ts tsp dsp ((i + 1) mod arr_length ts)
            (run (cycle_steps phrase) w)) /\
  (forall (k i : nat) phrase,
     ts !! i = Some phrase ->
     begins ts tsp dsp (Z.of_nat i)
       (run (S k * round_steps ts + round_steps (take i ts) - 1)
            (start (new el ts tsp dsp)))) /\
  (forall k : nat,
     begins ts tsp dsp 0
       (run (S k * round_steps ts - 1) (start (new el ts tsp dsp)))) /\
  (forall phrase, ts = [phrase] ->
     forall k : nat,
       begins ts tsp dsp 0
         (run (S k * cycle_steps phrase - 1)
              (start (new el ts tsp dsp)))).
Proof.
  intros Hne.
  pose proof (round_steps_pos ts Hne) as Hpos.
  assert (Hrounds : forall k : nat,
     begins ts tsp dsp 0
       (run (S k * round_steps ts - 1) (start (new el ts tsp dsp)))).
  { intros k. rewrite run_start.
    replace (S (S k * round_steps ts - 1))
      with (S k * round_steps ts)%nat by lia.
    apply run_rounds; [exact Hne | apply armed_begins]. }
  split; [|split; [|split]].
  - intros w i phrase Hw Hp. split.
    + apply (run_typed ts tsp dsp w i phrase Hw Hp).
    + rewrite <- Z.rem_mod_nonneg.
      * apply run_cycle; assumption.
      * apply index_Some_range in Hp. lia.
      * apply index_Some_range in Hp. lia.
  - intros k i phrase Hp. rewrite run_start.
    replace (S (S k * round_steps ts + round_steps (take i ts) - 1))
      with (S k * round_steps ts + round_steps (take i ts))%nat by lia.
    rewrite run_add. apply run_prefix.
    + eapply lookup_lt_Some, Hp.
    + apply run_rounds; [exact Hne | apply armed_begins].
  - exact Hrounds.
  - intros phrase -> k. specialize (Hrounds k).
    simpl round_steps in Hrounds. rewrite Nat.add_0_r in Hrounds.
    exact Hrounds.
Qed.

Lemma cycle_advances_witness :
  innerHTML (anim (run 3 (armed (new [] [ab] 80 50)))) = ab ++ cursor /\
  begins [ab] 80 50 ((0 + 1) mod 1) (run 6 (armed (new [] [ab] 80 50))).
Proof.
  apply (proj1 (cycle_advances [] [ab] 80 50 ltac:(discriminate))
           (armed (new [] [ab] 80 50)) 0 ab).
  - repeat split.
  - reflexivity.
Defined.

Lemma reachable_empty el tsp dsp w :
  reachable el [] tsp dsp w -> pending w = [] /\ uncaught w = 1%nat.
Proof.
  induction 1 as [|w i w' _ [IH _] Hf]; [split; reflexivity|].
  unfold fire in Hf. rewrite IH in Hf. discriminate.
Qed.

(** C6: every invocation of [type] that returns hands exactly one timer
    to [setTimeout], the pause or a tick, never both; from [start()] on
    at most one timer is pending in every reachable world; and for a
    non-empty phrase sequence the call made by [start()] and the callback
    of the pending timer of every reachable world return, so exactly one
    timer is pending there. *)
Theorem one_pending_timer (el : jsstring) (ts : list jsstring)
    (tsp dsp : Z) :
  (forall a, match type a with
             | Returned (_, timers) =>
               exists tm, timers = [tm] /\
                 (tm = mkTimer PauseThenType 2000 \/
                  tm = mkTimer JustType (typingSpeed a) \/
                  tm = mkTimer JustType (deletingSpeed a))
             | TypeError => True
             end) /\
  (forall w, reachable el ts tsp dsp w -> (length (pending w) <= 1)%nat) /\
  (ts <> [] ->
   (exists a' tm, type (new el ts tsp dsp) = Returned (a', [tm])) /\
   (forall w, reachable el ts tsp dsp w ->
      (exists tm, pending w = [tm] /\
         (tm = mkTimer PauseThenType 2000 \/
          tm = mkTimer JustType tsp \/ tm = mkTimer JustType dsp)) /\
      (forall i t, pending w !! i = Some t ->
         exists a' tm,
           type (prepare (callback t) (anim w)) = Returned (a', [tm])))).
Proof.
  assert (Hone : ts <> [] -> forall w, reachable el ts tsp dsp w ->
            exists tm, pending w = [tm] /\
              (tm = mkTimer PauseThenType 2000 \/
               tm = mkTimer JustType tsp \/ tm = mkTimer JustType dsp)).
  { intros Hne w Hw.
    destruct (inv_reachable el ts tsp dsp Hne w Hw)
      as (_ & _ & _ & _ & phrase & _ & Hph).
    destruct Hph as [(_ & -> & _) | [(_ & -> & _) | (_ & -> & _)]];
      eexists; split; eauto. }
  split; [|split; [|intros Hne; split]].
  - intros a. unfold type. destruct (index _ _); [|exact I].
    destruct (isDeleting a) eqn:Hd; simpl.
    + eexists. split; [reflexivity|].
      destruct (_ =? _); simpl; rewrite ?Hd;
        [right; left | right; right]; reflexivity.
    + destruct (_ >? _); eexists; (split; [reflexivity|]); simpl.
      * left. reflexivity.
      * rewrite Hd. right; left. reflexivity.
  - intros w Hw. destruct ts as [|phrase ts'].
    + destruct (reachable_empty el tsp dsp w Hw) as [-> _]. simpl. lia.
    + destruct (Hone ltac:(discriminate) w Hw) as (tm & -> & _). simpl. lia.
  - destruct (index_0 ts Hne) as [phrase Hp].
    destruct (type_returns (new el ts tsp dsp) phrase Hp) as (a' & tm & Hty & _).
    eauto.
  - intros w Hw. split; [apply Hone; assumption|].
    destruct (inv_reachable el ts tsp dsp Hne w Hw)
      as (Ht & _ & _ & _ & phrase & Hp & _).
    intros i t _.
    destruct (prepare_fields (callback t) (anim w)) as (Hpt & Hpi & _).
    destruct (type_returns (prepare (callback t) (anim w)) phrase)
      as (a' & tm & Hty & _); [|eauto].
    rewrite Hpt, Hpi, Ht. exact Hp.
Qed.

Lemma one_pending_timer_witness :
  exists tm, pending (run 2 (start (new [] [ab] 80 50))) = [tm] /\
    (tm = mkTimer PauseThenType 2000 \/
     tm = mkTimer JustType 80 \/ tm = mkTimer JustType 50).
Proof.
  apply (proj2 (proj2 (proj2 (one_pending_timer [] [ab] 80 50))
                  ltac:(discriminate))
           (run 2 (start (new [] [ab] 80 50)))).
  apply reachable_run; [discriminate | apply reach_start].
Defined.

(** C7: for a non-empty phrase sequence no step accesses an undefined
    phrase or fails: in every reachable world texts[textIndex] is
    defined, no exception was thrown, and the callback of every pending
    timer returns; for the empty sequence the call of [type] made by
    [start()] reads the undefined texts[0] and throws, leaving nothing
    pending. *)
Theorem no_error_path (el : jsstring) (tsp dsp : Z) :
  (forall ts, ts <> [] ->
     is_Some (index ts 0) /\
     uncaught (start (new el ts tsp dsp)) = 0%nat /\
     forall w, reachable el ts tsp dsp w ->
       uncaught w = 0%nat /\
       is_Some (index (texts (anim w)) (textIndex (anim w))) /\
       forall i t, pending w !! i = Some t ->
         type (prepare (callback t) (anim w)) <> TypeError) /\
  (index (texts (new el [] tsp dsp)) (textIndex (new el [] tsp dsp)) = None /\
   type (new el [] tsp dsp) = TypeError /\
   uncaught (start (new el [] tsp dsp)) = 1%nat /\
   pending (start (new el [] tsp dsp)) = []).
Proof.
  split; [|repeat split].
  intros ts Hne. split; [apply index_0, Hne|].
  split; [apply (inv_start el ts tsp dsp Hne)|].
  intros w Hw.
  destruct (inv_reachable el ts tsp dsp Hne w Hw)
    as (Ht & _ & _ & Hu & phrase & Hp & _).
  split; [exact Hu|]. split; [rewrite Ht, Hp; eauto|].
  intros i t _.
  destruct (prepare_fields (callback t) (anim w)) as (Hpt & Hpi & _).
  destruct (type_returns (prepare (callback t) (anim w)) phrase)
    as (a' & tm & Hty & _).
  - rewrite Hpt, Hpi, Ht. exact Hp.
  - rewrite Hty. discriminate.
Qed.

Lemma no_error_path_witness :
  uncaught (run 7 (start (new [] [ab] 80 50))) = 0%nat /\
  is_Some (index (texts (anim (run 7 (start (new [] [ab] 80 50)))))
                 (textIndex (anim (run 7 (start (new [] [ab] 80 50)))))).
Proof.
  destruct (proj2 (proj2 (proj1 (no_error_path [] 80 50) [ab]
                                ltac:(discriminate)))
              (run 7 (start (new [] [ab] 80 50)))) as (Hu & Hi & _).
  - apply reachable_run; [discriminate | apply reach_start].
  - split; [exact Hu | exact Hi].
Defined.

(** C10: for every non-empty phrase sequence, every write to the
    display surface is currentText.substring(0, charIndex) followed by
    the cursor marker, a prefix of the phrase indexed at the time; the
    overshoot state charIndex = length + 1 is reached, and the write
    made there is still the full phrase followed by the cursor. *)
Theorem rendered_prefix (el : jsstring) (ts : list jsstring)
    (tsp dsp : Z) :
  ts <> [] ->
  (forall w, reachable el ts tsp dsp w ->
     Forall (frame_ok ts) (frames w)) /\
  (exists phrase w f,
     index ts 0 = Some phrase /\
     reachable el ts tsp dsp w /\
     textIndex (anim w) = 0 /\
     charIndex (anim w) = str_length phrase + 1 /\
     frames (next w) = frames w ++ [f] /\
     frame_cursor f = str_length phrase + 1 /\
     frame_html f = phrase ++ cursor).
Proof.
  intros Hne. split; [apply frames_reachable, Hne|].
  destruct (index_0 ts Hne) as [phrase Hp].
  set (w := run (length phrase) (start (new el ts tsp dsp))).
  assert (Hw : reachable el ts tsp dsp w).
  { apply reachable_run; [exact Hne | apply reach_start]. }
  destruct (run_typed ts tsp dsp (armed (new el ts tsp dsp)) 0 phrase
              (armed_begins el ts tsp dsp) Hp) as [Hcore _].
  rewrite <- run_start in Hcore. fold w in Hcore.
  destruct Hcore as (Ht & _ & _ & _ & Hi & Hc & _ & Hq).
  assert (Hnext : next w = invoke PauseThenType
                     (mkWorld (anim w) [] (frames w) (uncaught w))).
  { unfold next, fire. rewrite Hq. reflexivity. }
  destruct (invoke_frames PauseThenType
              (mkWorld (anim w) [] (frames w) (uncaught w)) phrase)
    as (f & Hf & _ & Hfc & Hfh).
  { simpl. rewrite Ht, Hi. exact Hp. }
  simpl in Hf, Hfc, Hfh. exists phrase, w, f. rewrite Hnext, Hc in *.
  rewrite substring_0_full in Hfh by lia.
  repeat split; assumption.
Qed.

Lemma rendered_prefix_witness :
  Forall (frame_ok [ab]) (frames (run 9 (start (new [] [ab] 80 50)))).
Proof.
  apply (proj1 (rendered_prefix [] [ab] 80 50 ltac:(discriminate))).
  apply reachable_run; [discriminate | apply reach_start].
Defined.

End TypingFacts.

(** ** Facts about the two animators *)

Module RevealFacts.
Import Reveal.

Lemma evolves_refl el : evolves el el.
Proof. repeat split; left; reflexivity. Qed.

Lemma evolves_trans el1 el2 el3 :
  evolves el1 el2 -> evolves el2 el3 -> evolves el1 el3.
Proof.
  intros (Hw1 & Hp1 & Hc1 & Hs1) (Hw2 & Hp2 & Hc2 & Hs2).
  split; [congruence|]. split; [congruence|]. split.
  - destruct Hc1 as [Hc1 | [Hn1 Hc1]], Hc2 as [Hc2 | [Hn2 Hc2]].
    + left; congruence.
    + right. rewrite Hc1 in Hn2, Hc2. auto.
    + right. split; [exact Hn1 | congruence].
    + exfalso. apply Hn2. rewrite Hc1.
      apply elem_of_app. right. apply list_elem_of_singleton. reflexivity.
  - destruct Hs2 as [Hs2 | Hs2].
    + rewrite Hs2. exact Hs1.
    + right. rewrite Hs2, Hw1. reflexivity.
Qed.

Lemma dom_evolves_refl d : dom_evolves d d.
Proof.
  intros id. destruct (elements d !! id) as [el|]; [|reflexivity].
  exists el. split; [reflexivity | apply evolves_refl].
Qed.

Lemma dom_evolves_trans d1 d2 d3 :
  dom_evolves d1 d2 -> dom_evolves d2 d3 -> dom_evolves d1 d3.
Proof.
  intros H12 H23 id. specialize (H12 id). specialize (H23 id).
  destruct (elements d1 !! id) as [el1|].
  - destruct H12 as (el2 & He2 & Hev2). rewrite He2 in H23.
    destruct H23 as (el3 & He3 & Hev3).
    exists el3. split; [exact He3 | eapply evolves_trans; eassumption].
  - rewrite H12 in H23. exact H23.
Qed.

Lemma classList_add_evolves el : evolves el (classList_add "visible" el).
Proof.
  unfold classList_add. repeat split; simpl; try (left; reflexivity).
  case_bool_decide; [left; reflexivity | right; auto].
Qed.

Lemma setProperty_evolves el : evolves el (setProperty (data_width el) el).
Proof.
  repeat split; simpl; [left; reflexivity | right; reflexivity].
Qed.

Lemma update_evolves d id el el' :
  elements d !! id = Some el -> evolves el el' ->
  dom_evolves d (update id el' d).
Proof.
  intros He Hev j. unfold update; simpl.
  destruct (decide (id = j)) as [<-|Hne].
  - rewrite He, lookup_insert_eq. eauto.
  - rewrite lookup_insert_ne by exact Hne.
    destruct (elements d !! j) as [elj|] eqn:Hj; [|reflexivity].
    exists elj. split; [reflexivity | apply evolves_refl].
Qed.

Lemma record_write_evolves d wr : dom_evolves d (record_write wr d).
Proof.
  intros id. simpl. destruct (elements d !! id) as [el|]; [|reflexivity].
  exists el. split; [reflexivity | apply evolves_refl].
Qed.

Lemma scroll_entry_evolves d e : dom_evolves d (scroll_entry d e).
Proof.
  unfold scroll_entry. destruct (isIntersecting e); [|apply dom_evolves_refl].
  destruct (elements d !! target e) as [el|] eqn:He; [|apply dom_evolves_refl].
  eapply update_evolves; [exact He | apply classList_add_evolves].
Qed.

Lemma skill_entry_evolves d e : dom_evolves d (skill_entry d e).
Proof.
  unfold skill_entry. destruct (isIntersecting e); [|apply dom_evolves_refl].
  destruct (elements d !! target e) as [el|] eqn:He; [|apply dom_evolves_refl].
  assert (H1 : dom_evolves d (update (target e) (classList_add "visible" el) d)).
  { eapply update_evolves; [exact He | apply classList_add_evolves]. }
  destruct (skill_progress el) as [p|]; [|exact H1].
  destruct (elements (update _ _ d) !! p) as [progress|] eqn:Hp; [|exact H1].
  eapply dom_evolves_trans; [exact H1|].
  eapply dom_evolves_trans; [|apply record_write_evolves].
  eapply update_evolves; [exact Hp | apply setProperty_evolves].
Qed.

Lemma foldl_evolves (step : Dom -> Entry -> Dom) :
  (forall d e, dom_evolves d (step d e)) ->
  forall es d, dom_evolves d (foldl step d es).
Proof.
  intros Hstep es. induction es as [|e es IH]; intros d; simpl.
  - apply dom_evolves_refl.
  - eapply dom_evolves_trans; [apply Hstep | apply IH].
Qed.

Lemma scroll_callback_evolves es d : dom_evolves d (scroll_callback es d).
Proof. apply foldl_evolves, scroll_entry_evolves. Qed.

Lemma skill_callback_evolves es d : dom_evolves d (skill_callback es d).
Proof. apply foldl_evolves, skill_entry_evolves. Qed.

Lemma handle_evolves pg ev : dom_evolves (dom pg) (dom (handle pg ev)).
Proof.
  destruct ev; simpl;
    [apply scroll_callback_evolves | apply skill_callback_evolves].
Qed.

Lemma handle_all_evolves evs :
  forall pg, dom_evolves (dom pg) (dom (handle_all pg evs)).
Proof.
  induction evs as [|ev evs IH]; intros pg; simpl.
  - apply dom_evolves_refl.
  - eapply dom_evolves_trans; [apply handle_evolves | apply IH].
Qed.

Lemma handle_all_observers evs : forall pg,
  scrollAnimator (handle_all pg evs) = scrollAnimator pg /\
  skillBarsAnimator (handle_all pg evs) = skillBarsAnimator pg.
Proof.
  induction evs as [|ev evs IH]; intros pg; simpl; [auto|].
  destruct (IH (handle pg ev)) as [-> ->]. destruct ev; auto.
Qed.

Lemma evolves_visible el el' :
  evolves el el' -> "visible" ∈ classList el ->
  classList el' = classList el.
Proof. intros (_ & _ & [Hc | [Hn _]] & _) Hv; [exact Hc | contradiction]. Qed.

Lemma revealed_evolves d d' id :
  dom_evolves d d' -> revealed d id -> revealed d' id.
Proof.
  intros Hev (el & He & Hv). specialize (Hev id). rewrite He in Hev.
  destruct Hev as (el' & He' & Hev). exists el'. split; [exact He'|].
  rewrite (evolves_visible el el' Hev Hv). exact Hv.
Qed.

(** C4: once an element carries the [visible] marker, no batch of
    entries handed to ScrollAnimator's or SkillBarsAnimator's callback,
    and no sequence of visibility-change events of the page, removes
    it. *)
Theorem revealed_is_latched (d : Dom) (id : nat) :
  revealed d id ->
  (forall entries, revealed (scroll_callback entries d) id) /\
  (forall entries, revealed (skill_callback entries d) id) /\
  (forall pg evs, dom pg = d -> revealed (dom (handle_all pg evs)) id).
Proof.
  intros Hr. split; [|split].
  - intros es. eapply revealed_evolves; [apply scroll_callback_evolves | exact Hr].
  - intros es. eapply revealed_evolves; [apply skill_callback_evolves | exact Hr].
  - intros pg evs <-. eapply revealed_evolves; [apply handle_all_evolves | exact Hr].
Qed.

Lemma card88_revealed :
  revealed (dom (handle_all (initApp card88) (take 1 in_out_in))) 0.
Proof.
  exists (mkElement ["skill-card"; "fade-in"; "visible"] None None
                    (Some 1%nat)).
  split; [vm_compute; reflexivity | repeat constructor].
Qed.

Lemma revealed_is_latched_witness :
  revealed
    (skill_callback [mkEntry 0 false; mkEntry 0 true]
       (dom (handle_all (initApp card88) (take 1 in_out_in)))) 0.
Proof.
  apply (proj1 (proj2 (revealed_is_latched _ 0 card88_revealed))).
Defined.

(** *** Counting the writes of the width *)

Section Writes.

Variable d0 : Dom.
Variable p : nat.
Variable progress : Element.
Hypothesis progress_at : elements d0 !! p = Some progress.

Local Abbreviation written := (written d0 p (data_width progress)).

Lemma written_evolves n d d' :
  written n d -> dom_evolves d d' ->
  style_writes d' = style_writes d ->
  written n d'.
Proof.
  intros (Hev & Hws & Hsw) Hev' Hst. split; [|split].
  - eapply dom_evolves_trans; eassumption.
  - rewrite Hst. exact Hws.
  - intros Hn. destruct (Hsw Hn) as (el & He & Hs).
    specialize (Hev' p). rewrite He in Hev'.
    destruct Hev' as (el' & He' & Hw & _ & _ & Hs').
    exists el'. split; [exact He'|].
    assert (Hd : data_width el = data_width progress).
    { specialize (Hev p). rewrite progress_at in Hev.
      destruct Hev as (el1 & He1 & Hw1 & _). congruence. }
    destruct Hs' as [Hs' | Hs']; rewrite Hs'; congruence.
Qed.

Lemma scroll_entry_writes d e : style_writes (scroll_entry d e) = style_writes d.
Proof.
  unfold scroll_entry. destruct (isIntersecting e); [|reflexivity].
  destruct (elements d !! target e); reflexivity.
Qed.

Lemma scroll_entry_written n d e : written n d -> written n (scroll_entry d e).
Proof.
  intros Hw. eapply written_evolves;
    [exact Hw | apply scroll_entry_evolves | apply scroll_entry_writes].
Qed.

Lemma hit_dom_evolved d e :
  dom_evolves d0 d -> hit_dom d p e = hit_dom d0 p e.
Proof.
  intros Hev. unfold hit_dom. f_equal; [f_equal|].
  - apply bool_decide_ext. specialize (Hev (target e)).
    destruct (elements d0 !! target e) as [el|].
    + destruct Hev as (el' & -> & _ & Hp & _). simpl. rewrite Hp. reflexivity.
    + rewrite Hev. reflexivity.
  - apply bool_decide_ext. specialize (Hev p). rewrite progress_at in Hev.
    destruct Hev as (el' & -> & _). split; eauto.
Qed.

Lemma skill_entry_written n d e :
  written n d ->
  written (n + (if hit_dom d0 p e then 1 else 0)) (skill_entry d e).
Proof.
  intros Hw. rewrite <- (hit_dom_evolved d e (proj1 Hw)).
  assert (Hskip : forall d', dom_evolves d d' ->
            style_writes d' = style_writes d -> written (n + 0) d').
  { intros d' Hev Hst. rewrite Nat.add_0_r.
    eapply written_evolves; eassumption. }
  destruct Hw as (Hev & Hws & Hsw).
  assert (Hprog : exists pr, elements d !! p = Some pr /\
                             data_width pr = data_width progress).
  { specialize (Hev p). rewrite progress_at in Hev.
    destruct Hev as (pr & Hpr & Hd & _). eauto. }
  destruct Hprog as (pr & Hpr & Hprd).
  unfold hit_dom, skill_entry.
  destruct (isIntersecting e); cbn [andb];
    [|apply Hskip; [apply dom_evolves_refl | reflexivity]].
  destruct (elements d !! target e) as [el|] eqn:He; cbn [mbind option_bind];
    [|apply Hskip; [apply dom_evolves_refl | reflexivity]].
  set (d1 := update (target e) (classList_add "visible" el) d).
  assert (H1 : dom_evolves d d1).
  { eapply update_evolves; [exact He | apply classList_add_evolves]. }
  assert (Hp1 : exists pr1, elements d1 !! p = Some pr1 /\
                            data_width pr1 = data_width progress).
  { specialize (H1 p). rewrite Hpr in H1.
    destruct H1 as (pr1 & Hpr1 & Hd1 & _). exists pr1. split; congruence. }
  destruct Hp1 as (pr1 & Hpr1 & Hd1).
  rewrite (bool_decide_eq_true_2 (is_Some _)) by eauto.
  rewrite andb_true_r.
  destruct (skill_progress el) as [q|] eqn:Hq.
  2:{ rewrite bool_decide_eq_false_2 by discriminate.
      apply Hskip; [exact H1 | reflexivity]. }
  destruct (decide (q = p)) as [->|Hne].
  - rewrite Hpr1.
    rewrite bool_decide_eq_true_2 by reflexivity.
    split; [|split].
    + eapply dom_evolves_trans; [exact Hev|].
      eapply dom_evolves_trans; [exact H1|].
      eapply dom_evolves_trans; [|apply record_write_evolves].
      eapply update_evolves; [exact Hpr1 | apply setProperty_evolves].
    + cbn [record_write update style_writes d1].
      rewrite filter_app, Hws, <- app_assoc. f_equal.
      rewrite filter_cons_True by reflexivity. rewrite filter_nil.
      rewrite Hd1. replace (n + 1)%nat with (S n) by lia.
      rewrite replicate_S_end. reflexivity.
    + intros _. cbn [record_write update elements].
      rewrite lookup_insert_eq.
      eexists. split; [reflexivity|]. simpl. rewrite Hd1. reflexivity.
  - rewrite (bool_decide_eq_false_2 (Some q = Some p)) by congruence.
    destruct (elements d1 !! q) as [prq|] eqn:Hprq;
      [|apply Hskip; [exact H1 | reflexivity]].
    rewrite Nat.add_0_r. split; [|split].
    + eapply dom_evolves_trans; [exact Hev|].
      eapply dom_evolves_trans; [exact H1|].
      eapply dom_evolves_trans; [|apply record_write_evolves].
      eapply update_evolves; [exact Hprq | apply setProperty_evolves].
    + cbn [record_write update style_writes d1].
      rewrite filter_app, Hws.
      rewrite filter_cons_False by (simpl; exact Hne).
      rewrite filter_nil, app_nil_r. reflexivity.
    + intros Hn.
      cbn [record_write update elements].
      rewrite lookup_insert_ne by exact Hne.
      exists pr1. split; [exact Hpr1|].
      destruct (Hsw Hn) as (elp & Help & Hsp).
      specialize (H1 p). rewrite Help in H1.
      destruct H1 as (elp' & Help' & Hw' & _ & _ & Hs').
      assert (elp' = pr1) by congruence. subst elp'.
      assert (data_width elp = data_width progress) by congruence.
      destruct Hs' as [Hs' | Hs']; rewrite Hs'; congruence.
Qed.

Lemma skill_callback_written es : forall n d,
  written n d ->
  written (n + length (filter (fun e => hit_dom d0 p e = true) es))
          (skill_callback es d).
Proof.
  unfold skill_callback.
  induction es as [|e es IH]; intros n d Hw.
  - simpl. rewrite Nat.add_0_r. exact Hw.
  - simpl foldl. apply (skill_entry_written n d e) in Hw.
    apply IH in Hw. rewrite filter_cons.
    destruct (hit_dom d0 p e); simpl in *.
    + replace (n + S (length (filter (λ e0, hit_dom d0 p e0 = true) es)))%nat
        with (n + 1 + length (filter (λ e0, hit_dom d0 p e0 = true) es))%nat
        by lia.
      exact Hw.
    + rewrite Nat.add_0_r in Hw. exact Hw.
Qed.

Lemma scroll_callback_written es : forall n d,
  written n d -> written n (scroll_callback es d).
Proof.
  unfold scroll_callback.
  induction es as [|e es IH]; intros n d Hw; [exact Hw|].
  simpl. apply IH, scroll_entry_written, Hw.
Qed.

Variable pg0 : Page.
Hypothesis dom_pg0 : dom pg0 = d0.

Lemma delivered_hits es :
  length (filter (fun e => hit_dom d0 p e = true)
                 (delivered (skillBarsAnimator pg0) es))
  = length (filter (fun e => hits pg0 p e = true) es).
Proof.
  unfold delivered. rewrite list_filter_filter. f_equal.
  apply list_filter_iff. intros e. unfold hits.
  rewrite dom_pg0. rewrite andb_true_iff, bool_decide_eq_true. tauto.
Qed.

Lemma handle_written pg ev n :
  skillBarsAnimator pg = skillBarsAnimator pg0 ->
  written n (dom pg) ->
  written (n + event_hits pg0 p ev) (dom (handle pg ev)).
Proof.
  intros Ho Hw. destruct ev as [es|es]; simpl.
  - rewrite Nat.add_0_r. apply scroll_callback_written, Hw.
  - rewrite <- delivered_hits, Ho. apply skill_callback_written, Hw.
Qed.

Lemma handle_all_written evs : forall pg n,
  skillBarsAnimator pg = skillBarsAnimator pg0 ->
  written n (dom pg) ->
  written (n + hit_count pg0 p evs) (dom (handle_all pg evs)).
Proof.
  unfold hit_count.
  induction evs as [|ev evs IH]; intros pg n Ho Hw.
  - simpl. rewrite Nat.add_0_r. exact Hw.
  - simpl. rewrite Nat.add_assoc. apply IH.
    + destruct ev; exact Ho.
    + apply handle_written; assumption.
Qed.

Lemma written_initially : written 0 d0.
Proof.
  split; [apply dom_evolves_refl|]. split.
  - simpl. rewrite app_nil_r. reflexivity.
  - lia.
Qed.

End Writes.

Lemma hit_count_app pg p evs evs' :
  hit_count pg p (evs ++ evs') = (hit_count pg p evs + hit_count pg p evs')%nat.
Proof. apply sum_list_with_app. Qed.

Lemma handle_all_app pg evs evs' :
  handle_all pg (evs ++ evs') = handle_all (handle_all pg evs) evs'.
Proof. apply foldl_app. Qed.

(** C3, as the specification states it, fails: a skill card that
    enters the viewport, leaves it and enters it again has its width
    written twice; the second write is made although the card is
    already revealed. *)
Lemma width_written_twice :
  revealed (dom (handle_all (initApp card88) (take 1 in_out_in))) 0 /\
  writes_to 1 (handle_all (initApp card88) (take 1 in_out_in))
  = [mkWrite 1 (Some (lit "88%"))] /\
  writes_to 1 (handle_all (initApp card88) in_out_in)
  = [mkWrite 1 (Some (lit "88%")); mkWrite 1 (Some (lit "88%"))] /\
  length (writes_to 1 (handle_all (initApp card88) in_out_in)) <> 1%nat.
Proof.
  split; [|split; [|split]].
  - apply card88_revealed.
  - vm_compute. reflexivity.
  - vm_compute. reflexivity.
  - vm_compute. discriminate.
Qed.

(** C3, amended: for every skill-bar target, SkillBarsAnimator writes
    the value recorded in data-width to the --skill-width output once
    for every intersecting entry of its card that the observer
    delivers, the first time at the first such entry (so exactly once
    only when the card intersects once); every write carries the
    recorded value, so from the first write on the output keeps the
    value that data-width gives whatever events follow, and the class
    list of a revealed element is unchanged by every later event. *)
Theorem skill_width_writes (pg : Page) (p : nat) (progress : Element)
    (evs : list Event) :
  elements (dom pg) !! p = Some progress ->
  writes_to p (handle_all pg evs)
  = writes_to p pg
    ++ replicate (hit_count pg p evs) (mkWrite p (data_width progress)) /\
  ((1 <= hit_count pg p evs)%nat ->
   forall evs', exists el,
     elements (dom (handle_all pg (evs ++ evs'))) !! p = Some el /\
     skill_width el = css_value (data_width progress)) /\
  (forall c evs',
     revealed (dom (handle_all pg evs)) c ->
     classList <$> elements (dom (handle_all pg (evs ++ evs'))) !! c
     = classList <$> elements (dom (handle_all pg evs)) !! c).
Proof.
  intros Hp.
  assert (Hall : forall evs0,
    written (dom pg) p (data_width progress) (hit_count pg p evs0)
            (dom (handle_all pg evs0))).
  { intros evs0.
    apply (handle_all_written (dom pg) p progress Hp pg eq_refl evs0 pg 0%nat
             eq_refl).
    apply written_initially. }
  split; [|split].
  - apply (Hall evs).
  - intros Hn evs'. destruct (Hall (evs ++ evs')) as (_ & _ & Hs).
    apply Hs. rewrite hit_count_app. lia.
  - intros c evs' (el & He & Hv). rewrite handle_all_app.
    pose proof (handle_all_evolves evs' (handle_all pg evs) c) as Hev.
    rewrite He in Hev. destruct Hev as (el' & -> & Hev). rewrite He.
    simpl. f_equal. apply evolves_visible; assumption.
Qed.

Lemma skill_width_writes_witness :
  writes_to 1 (handle_all (initApp card88) in_out_in)
  = writes_to 1 (initApp card88)
    ++ replicate (hit_count (initApp card88) 1 in_out_in)
                 (mkWrite 1 (Some (lit "88%"))).
Proof.
  apply (proj1 (skill_width_writes (initApp card88) 1
                  (mkElement ["skill-progress"] (Some (lit "88%")) None None)
                  in_out_in ltac:(vm_compute; reflexivity))).
Defined.

End RevealFacts.

(** ** Facts about ContactForm *)

Module ContactFacts.
Import Contact.

Example email_accepted :
  test emailRegex (lit "nigelberewere@gmail.com") = true /\
  test emailRegex (lit "a.b@c.d.e") = true.
Proof. split; reflexivity. Qed.

Example email_rejected :
  test emailRegex (lit "a@b") = false /\
  test emailRegex (lit "a@@b.c") = false /\
  test emailRegex (lit "a b@c.d") = false /\
  test emailRegex (lit "@b.c") = false /\
  test emailRegex (lit "a@b.") = false /\
  test emailRegex [] = false.
Proof. repeat split; reflexivity. Qed.

Example trim_both_ends : trim (lit "  ab c  ") = lit "ab c".
Proof. reflexivity. Qed.

Lemma validateField_keeps fld :
  fid (validated fld) = fid fld /\
  ftype (validated fld) = ftype fld /\
  required (validated fld) = required fld /\
  value (validated fld) = value fld.
Proof.
  unfold validated, validateField.
  destruct (required fld && _); destruct (_ && _);
    try destruct (negb (test _ _)); repeat split.
Qed.

Lemma validateForm_fold flds : forall ok done,
  foldl (fun '(isValid, done) input =>
           let '(ok, input') := validateField input in
           (if negb ok then false else isValid, done ++ [input']))
        (ok, done) flds
  = (ok && forallb field_ok flds, done ++ (validated <$> flds)).
Proof.
  induction flds as [|fld flds IH]; intros ok done; simpl.
  - rewrite andb_true_r, app_nil_r. reflexivity.
  - assert (Hv : validateField fld = (field_ok fld, validated fld)).
    { unfold field_ok, validated. destruct (validateField fld); reflexivity. }
    rewrite Hv, IH, <- app_assoc. simpl.
    destruct (field_ok fld), ok; reflexivity.
Qed.

Lemma validateForm_spec f :
  validateForm f
  = (forallb field_ok (fields f),
     mkForm (validated <$> fields f) (status f) (submitBtn f)).
Proof. unfold validateForm. rewrite validateForm_fold. reflexivity. Qed.

Lemma values_validated (flds : list Field) :
  value <$> (validated <$> flds) = value <$> flds.
Proof.
  rewrite <- list_fmap_compose. apply list_fmap_ext.
  intros i fld _. apply validateField_keeps.
Qed.

Lemma value_of_validated id (flds : list Field) st btn :
  value_of id (mkForm (validated <$> flds) st btn)
  = value_of id (mkForm flds st btn).
Proof.
  unfold value_of; simpl.
  induction flds as [|fld flds IH]; [reflexivity|].
  rewrite fmap_cons. simpl.
  destruct (validateField_keeps fld) as (Hid & _ & _ & Hv).
  rewrite Hid. destruct (decide (fid fld = id)); simpl; [congruence|].
  destruct (list_find _ (validated <$> flds)) as [[? ?]|];
    destruct (list_find _ flds) as [[? ?]|]; simpl in *; congruence.
Qed.

Lemma required_empty_not_ok fld :
  required fld = true -> value fld = [] -> field_ok fld = false.
Proof.
  intros Hr Hv. unfold field_ok, validateField. rewrite Hr, Hv. simpl.
  destruct (bool_decide _); reflexivity.
Qed.

Lemma email_malformed_not_ok fld :
  required fld = true -> ftype fld = "email" ->
  test emailRegex (value fld) = false -> field_ok fld = false.
Proof.
  intros Hr Ht Hm. unfold field_ok, validateField. rewrite Hr, Ht, Hm.
  destruct (truthy (trim (value fld))); reflexivity.
Qed.

Lemma forallb_false_Exists {A} (ok : A -> bool) (P : A -> Prop) l :
  (forall x, x ∈ l -> P x -> ok x = false) ->
  Exists P l -> forallb ok l = false.
Proof.
  intros Hok Hex. induction Hex as [x l Hx | x l _ IH]; simpl.
  - rewrite (Hok x); [reflexivity | left | exact Hx].
  - rewrite IH; [apply andb_false_r|].
    intros y Hy. apply Hok. right. exact Hy.
Qed.

Lemma contact_email_required f fld :
  is_contact_form f -> fld ∈ fields f -> ftype fld = "email" ->
  required fld = true.
Proof.
  intros (Hc & _) Hin Ht.
  assert (Hin' : control fld ∈ control <$> fields f).
  { apply list_elem_of_fmap. eauto. }
  rewrite Hc in Hin'. unfold control in Hin'. rewrite Ht in Hin'.
  repeat (apply elem_of_cons in Hin'; destruct Hin' as [Hin'|Hin']);
    try congruence.
  inversion Hin'.
Qed.

Lemma refused_not_valid f :
  is_contact_form f ->
  required_empty f \/ email_malformed f ->
  forallb field_ok (fields f) = false.
Proof.
  intros Hf [Hex | Hex].
  - eapply forallb_false_Exists; [|exact Hex].
    intros fld _ [Hr Hv]. apply required_empty_not_ok; assumption.
  - eapply forallb_false_Exists; [|exact Hex].
    intros fld Hin (Ht & _ & Hm).
    apply email_malformed_not_ok; try assumption.
    eapply contact_email_required; eassumption.
Qed.

Lemma contact_values f :
  is_contact_form f ->
  exists n e s m,
    values f = [n; e; s; m] /\
    value_of "name" f = Some n /\ value_of "email" f = Some e /\
    value_of "subject" f = Some s /\ value_of "message" f = Some m.
Proof.
  intros (Hc & _). destruct f as [flds st btn]. simpl in Hc.
  destruct flds as [|[i1 t1 r1 v1 g1 e1] [|[i2 t2 r2 v2 g2 e2]
    [|[i3 t3 r3 v3 g3 e3] [|[i4 t4 r4 v4 g4 e4] [|? ?]]]]];
    try discriminate.
  unfold control in Hc. simpl in Hc. simplify_eq.
  exists v1, v2, v3, v4. repeat split.
Qed.

Lemma resume_resolved aw g :
  is_Some (status g) -> is_Some (submitBtn g) ->
  exists g',
    resume Resolved aw g = (g', [SetTimeout HideStatus 5000]) /\
    status g' = Some success_banner /\
    values g' = (fun _ => []) <$> values g /\
    submitBtn g' = Some (mkButton false (originalText aw)).
Proof.
  intros [st Hst] [btn Hbtn]. unfold resume, showStatus. rewrite Hst.
  simpl. rewrite Hbtn. eexists. split; [reflexivity|]. simpl.
  repeat split. unfold values. simpl.
  rewrite <- !list_fmap_compose. reflexivity.
Qed.

(** C8: on submission of the page's contact form the handler returns
    and makes no network request.  If a required field is empty, or the
    e-mail field is non-empty and malformed, the error banner is shown,
    nothing is sent and nothing is awaited, and the values and the
    button are as they were.  If every field validates, the form data is
    logged and one timer of 1500 ms is started whose firing resolves the
    awaited promise; the handler then shows the success banner, resets
    every value and re-enables the button, without taking the failure
    branch.  Every submission is one of the two. *)
Theorem submit_outcomes (now : jsstring) (f : Form) :
  is_contact_form f ->
  exists f' effs aw,
    handleSubmit now f = Returned (f', effs, aw) /\
    Forall (fun e => is_network e = false) effs /\
    values f' = values f /\
    (required_empty f \/ email_malformed f ->
     fst (validateForm f) = false) /\
    (fst (validateForm f) = false ->
     status f' = Some error_banner /\
     aw = None /\
     Forall (fun e => is_send e = false) effs /\
     submitBtn f' = submitBtn f) /\
    (fst (validateForm f) = true ->
     exists btn n e s m,
       submitBtn f = Some btn /\
       values f = [n; e; s; m] /\
       aw = Some (mkAwaiting (label btn)) /\
       effs = [PreventDefault;
               ConsoleLog (mkData n e s m now (lit "new"));
               SetTimeout ResolvePromise 1500] /\
       forall g, is_contact_form g ->
         exists g',
           fire_timer ResolvePromise aw g = (g', [SetTimeout HideStatus 5000]) /\
           status g' = Some success_banner /\
           values g' = [[]; []; []; []] /\
           submitBtn g' = Some (mkButton false (label btn))).
Proof.
  intros Hf.
  pose proof (refused_not_valid f Hf) as Hrefused.
  destruct (contact_values f Hf) as (n & e & s & m & Hvals & Hn & He & Hs & Hm).
  destruct Hf as (Hc & Herr & [st Hst] & [btn Hbtn]).
  unfold handleSubmit. rewrite validateForm_spec in *. simpl fst in *.
  destruct (forallb field_ok (fields f)) eqn:Hok; simpl negb; cbv iota.
  - simpl submitBtn. rewrite Hbtn. simpl fields. simpl status.
    assert (Hvo : forall id,
      value_of id (mkForm (validated <$> fields f) (status f)
                          (Some (mkButton true loading_label)))
      = value_of id f).
    { intros id. rewrite value_of_validated. reflexivity. }
    rewrite !Hvo, Hn, He, Hs, Hm.
    eexists _, _, _. split; [reflexivity|].
    split; [repeat constructor|].
    split; [unfold values; simpl; apply values_validated|].
    split; [exact Hrefused|]. split; [discriminate|].
    intros _. exists btn, n, e, s, m.
    split; [reflexivity|]. split; [exact Hvals|].
    split; [reflexivity|]. split; [reflexivity|].
    intros g Hg.
    destruct (contact_values g Hg) as (gn & ge & gs & gm & Hgv & _).
    destruct Hg as (_ & _ & Hgst & Hgbtn).
    destruct (resume_resolved (mkAwaiting (label btn)) g Hgst Hgbtn)
      as (g' & Hr & Hst' & Hv' & Hb').
    exists g'. simpl. rewrite Hr, Hgv in *. repeat split; assumption.
  - unfold showStatus. simpl status. rewrite Hst.
    eexists _, _, _. split; [reflexivity|].
    split; [repeat constructor|].
    split; [unfold values; simpl; apply values_validated|].
    split; [exact Hrefused|]. split; [|discriminate].
    intros _. repeat split. repeat constructor.
Qed.

Lemma submit_outcomes_witness :
  exists f' effs aw,
    handleSubmit (lit "2025-01-01T00:00:00.000Z")
      (contact_form (lit "Ada") (lit "ada@example.org") []
                    (lit "hello"))
    = Returned (f', effs, aw) /\
    Forall (fun e => is_network e = false) effs.
Proof.
  destruct (submit_outcomes (lit "2025-01-01T00:00:00.000Z")
              (contact_form (lit "Ada") (lit "ada@example.org") []
                            (lit "hello")))
    as (f' & effs & aw & Hret & Hnet & _).
  - split; [reflexivity|]. split; [repeat constructor; eauto|].
    split; eauto.
  - exists f', effs, aw. split; assumption.
Defined.

End ContactFacts.

(** ** Facts about the render functions *)

Module RenderFacts.
Import Render.

Lemma join_empty parts : join [] parts = concat parts.
Proof.
  induction parts as [|part parts IH]; [reflexivity|].
  destruct parts as [|part' parts].
  - simpl. rewrite app_nil_r. reflexivity.
  - change (join [] (part :: part' :: parts))
      with (part ++ [] ++ join [] (part' :: parts)).
    rewrite IH. reflexivity.
Qed.

Lemma is_prefix_decided tag : forall u r,
  decided tag u = true -> is_prefix tag (u ++ r) = is_prefix tag u.
Proof.
  unfold decided.
  induction tag as [|a tag IH]; intros u r Hd; [reflexivity|].
  destruct u as [|b u]; [discriminate|].
  simpl in *. destruct (N.eqb_spec a b) as [<-|Hne]; [|reflexivity].
  rewrite N.eqb_refl in Hd. simpl in Hd. apply IH. exact Hd.
Qed.

Lemma count_tag_safe tag lit : forall r,
  safe tag lit = true ->
  count_tag tag (lit ++ r) = (count_tag tag lit + count_tag tag r)%nat.
Proof.
  induction lit as [|c lit IH]; intros r Hs; [reflexivity|].
  simpl in Hs. apply andb_true_iff in Hs. destruct Hs as [Hd Hs].
  change (count_tag tag ((c :: lit) ++ r))
    with ((if is_prefix tag ((c :: lit) ++ r) then 1 else 0)
          + count_tag tag (lit ++ r))%nat.
  rewrite (is_prefix_decided tag (c :: lit) r Hd), (IH r Hs).
  simpl count_tag. lia.
Qed.

Lemma count_tag_plain tag field : forall r,
  head tag = Some 60%N -> plain field = true ->
  count_tag tag (field ++ r) = count_tag tag r.
Proof.
  destruct tag as [|a tag]; [discriminate|]. intros r [= ->].
  induction field as [|c field IH]; intros Hp; [reflexivity|].
  simpl in Hp. apply andb_true_iff in Hp. destruct Hp as [Hc Hp].
  change (count_tag (60%N :: tag) ((c :: field) ++ r))
    with ((if (60 =? c)%N && is_prefix tag (field ++ r) then 1 else 0)
          + count_tag (60%N :: tag) (field ++ r))%nat.
  rewrite N.eqb_sym. apply negb_true_iff in Hc. rewrite Hc. simpl.
  apply IH, Hp.
Qed.

Lemma plain_uint u : plain (uint_units u) = true.
Proof. induction u; simpl; auto. Qed.

Lemma plain_number n : plain (number_toString n) = true.
Proof. apply plain_uint. Qed.

End RenderFacts.

(** ** Facts about the validation of the contact form *)

Module ContactValidation.
Import Contact.

(** *** The matcher and the denotation agree *)

Lemma nullable_matches r : nullable r = true <-> matches r [].
Proof.
  split.
  - induction r; simpl; intros Hn; try discriminate.
    + constructor.
    + apply andb_true_iff in Hn. destruct Hn as [H1 H2].
      apply (matches_cat _ _ [] []); auto.
    + apply orb_true_iff in Hn. destruct Hn as [H1 | H2];
        [apply matches_alt_l | apply matches_alt_r]; auto.
    + constructor.
  - remember [] as s eqn:Hs. induction 1; simpl; try reflexivity;
      try discriminate.
    + apply app_eq_nil in Hs. destruct Hs as [-> ->].
      rewrite IHmatches1, IHmatches2; reflexivity.
    + rewrite IHmatches by assumption. reflexivity.
    + rewrite IHmatches by assumption. apply orb_true_r.
Qed.

Lemma matches_star_cons_inv r c s :
  matches (Star r) (c :: s) ->
  exists s1 s2, s = s1 ++ s2 /\ matches r (c :: s1) /\ matches (Star r) s2.
Proof.
  remember (Star r) as r' eqn:Hr. remember (c :: s) as s' eqn:Hs.
  intros Hm. revert s Hs.
  induction Hm as [| | | | | |r0 s1 s2 Hm1 _ Hm2 IH2]; intros t Ht;
    try discriminate.
  injection Hr as ->.
  destruct s1 as [|c1 s1].
  - simpl in Ht. apply IH2; [reflexivity | exact Ht].
  - simpl in Ht. injection Ht as -> <-. eauto.
Qed.

Lemma matches_cat_inv r1 r2 s :
  matches (Cat r1 r2) s ->
  exists s1 s2, s = s1 ++ s2 /\ matches r1 s1 /\ matches r2 s2.
Proof. inversion 1; subst; eauto. Qed.

Lemma deriv_matches r : forall c s,
  matches (deriv c r) s <-> matches r (c :: s).
Proof.
  induction r as [| |p|r1 IH1 r2 IH2|r1 IH1 r2 IH2|r IH]; intros c s; simpl.
  - split; inversion 1.
  - split; inversion 1.
  - destruct (p c) eqn:Hp; split; intros Hm.
    + inversion Hm; subst. constructor. exact Hp.
    + inversion Hm; subst. constructor.
    + inversion Hm.
    + inversion Hm; subst. congruence.
  - assert (Hcat : matches (Cat (deriv c r1) r2) s ->
                   matches (Cat r1 r2) (c :: s)).
    { intros Hm. apply matches_cat_inv in Hm.
      destruct Hm as (s1 & s2 & -> & H1 & H2).
      apply IH1 in H1. apply (matches_cat _ _ (c :: s1) s2); assumption. }
    assert (Hinv : matches (Cat r1 r2) (c :: s) ->
                   matches (Cat (deriv c r1) r2) s \/
                   (matches r1 [] /\ matches (deriv c r2) s)).
    { intros Hm. apply matches_cat_inv in Hm.
      destruct Hm as (s1 & s2 & Hs & H1 & H2).
      destruct s1 as [|c1 s1].
      - simpl in Hs. subst s2. right. split; [exact H1 | apply IH2, H2].
      - simpl in Hs. injection Hs as -> ->. left.
        apply matches_cat; [apply IH1, H1 | exact H2]. }
    destruct (nullable r1) eqn:Hn; split; intros Hm.
    + inversion Hm; subst; [apply Hcat; assumption|].
      apply (matches_cat _ _ [] (c :: s)); [|apply IH2; assumption].
      apply nullable_matches, Hn.
    + destruct (Hinv Hm) as [H | [_ H]];
        [apply matches_alt_l | apply matches_alt_r]; assumption.
    + apply Hcat, Hm.
    + destruct (Hinv Hm) as [H | [H _]]; [exact H|].
      apply nullable_matches in H. congruence.
  - split; intros Hm; inversion Hm; subst;
      try (apply matches_alt_l, IH1; assumption);
      try (apply matches_alt_r, IH2; assumption).
  - split; intros Hm.
    + apply matches_cat_inv in Hm. destruct Hm as (s1 & s2 & -> & H1 & H2).
      apply (matches_star_cons r (c :: s1) s2); [apply IH, H1 | exact H2].
    + apply matches_star_cons_inv in Hm.
      destruct Hm as (s1 & s2 & -> & H1 & H2).
      apply matches_cat; [apply IH, H1 | exact H2].
Qed.

Lemma test_matches r s : test r s = true <-> matches r s.
Proof.
  unfold test. revert r. induction s as [|c s IH]; intros r; simpl.
  - apply nullable_matches.
  - rewrite IH. apply deriv_matches.
Qed.

(** *** What the e-mail pattern accepts *)

Lemma matches_sym_inv p s :
  matches (Sym p) s <-> exists c, s = [c] /\ p c = true.
Proof.
  split.
  - inversion 1; subst; eauto.
  - intros (c & -> & Hp). constructor. exact Hp.
Qed.

Lemma matches_star_sym p s :
  matches (Star (Sym p)) s <-> Forall (fun c => p c = true) s.
Proof.
  split.
  - remember (Star (Sym p)) as r eqn:Hr. intros Hm.
    induction Hm as [| | | | | |r0 s1 s2 Hm1 _ Hm2 IH2]; try discriminate.
    + constructor.
    + injection Hr as ->. apply matches_sym_inv in Hm1.
      destruct Hm1 as (c & -> & Hp). constructor; [exact Hp|].
      apply IH2. reflexivity.
  - induction 1 as [|c s Hp _ IH]; [constructor|].
    apply (matches_star_cons _ [c] s); [constructor; exact Hp | exact IH].
Qed.

Lemma matches_plus_sym p s :
  matches (Plus (Sym p)) s <-> s <> [] /\ Forall (fun c => p c = true) s.
Proof.
  unfold Plus. split.
  - intros Hm. apply matches_cat_inv in Hm.
    destruct Hm as (s1 & s2 & -> & H1 & H2).
    apply matches_sym_inv in H1. destruct H1 as (c & -> & Hp).
    apply matches_star_sym in H2. split; [discriminate|].
    constructor; assumption.
  - intros [Hne Hall]. destruct Hall as [|c s Hp Hall]; [congruence|].
    apply (matches_cat _ _ [c] s); [constructor; exact Hp|].
    apply matches_star_sym, Hall.
Qed.

Lemma matches_char k s : matches (Sym (N.eqb k)) s <-> s = [k].
Proof.
  rewrite matches_sym_inv. split.
  - intros (c & -> & Hc). apply N.eqb_eq in Hc. congruence.
  - intros ->. exists k. split; [reflexivity | apply N.eqb_refl].
Qed.

Lemma test_email_shape (s : jsstring) :
  test emailRegex s = true <-> email_shape s.
Proof.
  rewrite test_matches. unfold emailRegex, email_shape, word. split.
  - intros Hm.
    apply matches_cat_inv in Hm. destruct Hm as (u & s1 & -> & Hu & Hm).
    apply matches_cat_inv in Hm. destruct Hm as (a & s2 & -> & Ha & Hm).
    apply matches_cat_inv in Hm. destruct Hm as (v & s3 & -> & Hv & Hm).
    apply matches_cat_inv in Hm. destruct Hm as (d & w & -> & Hd & Hw).
    apply matches_char in Ha, Hd. subst a d.
    apply matches_plus_sym in Hu, Hv, Hw.
    exists u, v, w. auto.
  - intros (u & v & w & -> & Hu & Hv & Hw).
    apply matches_cat; [apply matches_plus_sym, Hu|].
    apply matches_cat; [apply matches_char; reflexivity|].
    apply matches_cat; [apply matches_plus_sym, Hv|].
    apply matches_cat; [apply matches_char; reflexivity|].
    apply matches_plus_sym, Hw.
Qed.

(** *** [trim] *)

Lemma trimStart_split s :
  exists pre, s = pre ++ trimStart s /\ blank pre /\ no_lead (trimStart s).
Proof.
  induction s as [|c s (pre & Hs & Hb & Hl)].
  - exists []. repeat split. constructor.
  - simpl. destruct (is_space c) eqn:Hc.
    + exists (c :: pre). split; [simpl; congruence|].
      split; [constructor; assumption | exact Hl].
    + exists []. repeat split; [constructor | exact Hc].
Qed.

Lemma trimStart_id s : no_lead s -> trimStart s = s.
Proof. destruct s as [|c s]; simpl; [reflexivity|]. intros ->. reflexivity. Qed.

Lemma trimStart_blank s : blank s -> trimStart s = [].
Proof. induction 1 as [|c s Hc _ IH]; simpl; [reflexivity|]. rewrite Hc. exact IH. Qed.

Lemma blank_reverse s : blank s -> blank (reverse s).
Proof. unfold blank. rewrite Forall_reverse. auto. Qed.

Lemma no_lead_prefix (s t : jsstring) : no_lead (s ++ t) -> s <> [] -> no_lead s.
Proof. destruct s; simpl; [congruence | auto]. Qed.

Lemma trim_parts (s : jsstring) :
  (exists pre post,
     s = pre ++ trim s ++ post /\ blank pre /\ blank post) /\
  no_lead (trim s) /\
  no_lead (reverse (trim s)) /\
  trim (trim s) = trim s /\
  (trim s = [] <-> blank s).
Proof.
  unfold trim.
  destruct (trimStart_split s) as (pre & Hs & Hpre & Ht).
  set (t := trimStart s) in *.
  destruct (trimStart_split (reverse t)) as (pre2 & Hrt & Hpre2 & Hu).
  set (u := trimStart (reverse t)) in *.
  assert (Ht' : t = reverse u ++ reverse pre2).
  { rewrite <- reverse_app, <- Hrt, reverse_involutive. reflexivity. }
  assert (Hlead : no_lead (reverse u)).
  { destruct (reverse u) as [|c ru] eqn:Hru; [exact I|].
    rewrite Ht' in Ht. exact Ht. }
  split; [|split; [|split; [|split]]].
  - exists pre, (reverse pre2). split; [|split].
    + rewrite <- Ht'. exact Hs.
    + exact Hpre.
    + apply blank_reverse, Hpre2.
  - exact Hlead.
  - rewrite reverse_involutive. exact Hu.
  - rewrite (trimStart_id _ Hlead), reverse_involutive, (trimStart_id _ Hu).
    reflexivity.
  - split.
    + intros Hnil. rewrite Hs, Ht', Hnil. simpl.
      apply Forall_app. split; [exact Hpre | apply blank_reverse, Hpre2].
    + intros Hb. unfold u, t. rewrite (trimStart_blank s Hb).
      reflexivity.
Qed.

(** X1: The pattern of the e-mail check accepts exactly the strings of
    the shape local-part [@] domain [.] rest, where each part is
    non-empty and holds neither whitespace nor [@]; no leading or
    trailing whitespace is tolerated, and the domain and the rest may
    hold further dots. *)
Theorem emailRegex_accepts (s : jsstring) :
  test emailRegex s = true <-> email_shape s.
Proof. exact (test_email_shape s). Qed.

Lemma truthy_trim s : truthy (trim s) = false <-> blank s.
Proof.
  rewrite <- (proj2 (proj2 (proj2 (proj2 (trim_parts s))))).
  destruct (trim s); simpl; split; congruence.
Qed.

Lemma truthy_trim_true s : truthy (trim s) = true <-> ~ blank s.
Proof.
  rewrite <- truthy_trim. destruct (truthy (trim s)); split; congruence.
Qed.

(** *** The verdict on a field *)

Lemma field_ok_eq fld :
  field_ok fld
  = negb (required fld && negb (truthy (trim (value fld))))
    && negb (bool_decide (ftype fld = "email")
             && truthy (trim (value fld))
             && negb (test emailRegex (value fld))).
Proof.
  unfold field_ok, validateField.
  destruct (required fld), (truthy (trim (value fld))),
    (bool_decide (ftype fld = "email")), (test emailRegex (value fld));
    reflexivity.
Qed.

(** X2: [validateField] accepts a field exactly when it is [acceptable]: a
    required field that holds only whitespace is refused, and so is an
    e-mail field whose value, untrimmed, is not an address (an address
    with a space before or after it is refused). *)
Theorem field_ok_acceptable (fld : Field) :
  field_ok fld = true <-> acceptable fld.
Proof.
  rewrite field_ok_eq. unfold acceptable.
  rewrite andb_true_iff, !negb_true_iff, !andb_false_iff, !negb_false_iff.
  rewrite bool_decide_eq_false, truthy_trim, <- test_email_shape.
  rewrite <- truthy_trim_true.
  destruct (required fld), (truthy (trim (value fld))) eqn:Ht,
    (test emailRegex (value fld)), (decide (ftype fld = "email"));
    rewrite ?truthy_trim_true, ?truthy_trim in *; intuition congruence.
Qed.

(** *** Marks *)

Lemma validated_eq fld :
  validated fld
  = mkField (fid fld) (ftype fld) (required fld) (value fld)
            (negb (field_ok fld))
            (if field_ok fld then error_element fld
             else match error_element fld with
                  | Some _ => Some (refusal_message fld)
                  | None => None
                  end).
Proof.
  unfold validated, field_ok, refusal_message, validateField.
  destruct (required fld), (truthy (trim (value fld))),
    (bool_decide (ftype fld = "email")), (test emailRegex (value fld));
    reflexivity.
Qed.

Lemma field_ok_validated fld : field_ok (validated fld) = field_ok fld.
Proof. rewrite !field_ok_eq, validated_eq. reflexivity. Qed.

Lemma validated_idem fld : validated (validated fld) = validated fld.
Proof.
  rewrite (validated_eq (validated fld)), field_ok_validated.
  rewrite validated_eq. unfold refusal_message. simpl.
  destruct (field_ok fld); [reflexivity|].
  destruct (error_element fld); reflexivity.
Qed.

Lemma forallb_validated (flds : list Field) :
  forallb field_ok (validated <$> flds) = forallb field_ok flds.
Proof.
  induction flds as [|fld flds IH]; [reflexivity|].
  rewrite fmap_cons. cbn [forallb].
  rewrite field_ok_validated, IH. reflexivity.
Qed.

(** X3: [validateForm] validates every control, not only the first one that
    fails: afterwards each group carries [error] exactly when its control
    is refused, each refused control that has a [.form-error] element
    shows its message, no value has changed, and the verdict is that all
    controls are accepted.  Validating again changes nothing. *)
Theorem validateForm_marks (f : Form) :
  fst (validateForm f) = forallb field_ok (fields f) /\
  (forall i fld, fields f !! i = Some fld ->
     exists fld',
       fields (snd (validateForm f)) !! i = Some fld' /\
       value fld' = value fld /\
       group_error fld' = negb (field_ok fld) /\
       (field_ok fld = false -> is_Some (error_element fld) ->
        error_element fld' = Some (refusal_message fld))) /\
  length (fields (snd (validateForm f))) = length (fields f) /\
  validateForm (snd (validateForm f)) = validateForm f.
Proof.
  rewrite !ContactFacts.validateForm_spec. simpl.
  split; [reflexivity|]. split; [|split].
  - intros i fld Hi. exists (validated fld).
    rewrite list_lookup_fmap, Hi. split; [reflexivity|].
    rewrite validated_eq. simpl. repeat split.
    intros Hok [e He]. rewrite Hok, He. reflexivity.
  - apply length_fmap.
  - f_equal.
    + apply forallb_validated.
    + f_equal. rewrite <- list_fmap_compose. apply list_fmap_ext.
      intros i fld _. apply validated_idem.
Qed.

(** X4: Typing into a control whose group carries no [error] never marks
    it, whatever is typed; typing into a marked control validates it at
    once, so the mark goes as soon as the value is accepted.  The value
    is the one typed in both cases. *)
Theorem typing_never_marks (v : jsstring) (fld : Field) :
  value (type_value v fld) = v /\
  (group_error fld = false -> type_value v fld
     = mkField (fid fld) (ftype fld) (required fld) v false
               (error_element fld)) /\
  (group_error fld = true ->
   group_error (type_value v fld)
   = negb (field_ok (mkField (fid fld) (ftype fld) (required fld) v true
                             (error_element fld)))).
Proof.
  unfold type_value, on_input. simpl.
  destruct (group_error fld); simpl.
  - fold (validated (mkField (fid fld) (ftype fld) (required fld) v true
                             (error_element fld))).
    rewrite validated_eq. simpl. repeat split. discriminate.
  - repeat split. discriminate.
Qed.

(** *** A send and what follows it *)

Lemma contact_form_fields f :
  is_contact_form f ->
  exists v1 g1 e1 v2 g2 e2 v3 g3 e3 v4 g4 e4 st btn,
    f = mkForm [mkField "name" "text" true v1 g1 (Some e1);
                mkField "email" "email" true v2 g2 (Some e2);
                mkField "subject" "text" false v3 g3 (Some e3);
                mkField "message" "textarea" true v4 g4 (Some e4)]
               (Some st) (Some btn).
Proof.
  intros (Hc & He & [st Hst] & [btn Hbtn]).
  destruct f as [flds st' btn']. simpl in *. subst st' btn'.
  destruct flds as [|[i1 t1 r1 v1 g1 e1] [|[i2 t2 r2 v2 g2 e2]
    [|[i3 t3 r3 v3 g3 e3] [|[i4 t4 r4 v4 g4 e4] [|? ?]]]]];
    try discriminate.
  unfold control in Hc. simpl in Hc. simplify_eq.
  repeat (apply Forall_cons in He; destruct He as [[? ?] He]).
  simpl in *. subst. repeat eexists.
Qed.

(** X5: After a send has succeeded the form is the page's contact form
    again, with every control empty and unmarked and the button enabled
    with its old label; submitting it at once is refused: the error
    banner is shown, nothing is sent, and exactly the required controls
    are marked as required. *)
Theorem send_then_resubmit (now now' : jsstring) (f : Form) :
  is_contact_form f ->
  fst (validateForm f) = true ->
  exists f1 effs aw g btn,
    handleSubmit now f = Returned (f1, effs, Some aw) /\
    fst (fire_timer ResolvePromise (Some aw) f1) = g /\
    is_contact_form g /\
    Forall cleared (fields g) /\
    submitBtn f = Some btn /\
    submitBtn g = Some (mkButton false (label btn)) /\
    exists g' effs',
      handleSubmit now' g = Returned (g', effs', None) /\
      status g' = Some error_banner /\
      Forall (fun e => is_send e = false) effs' /\
      Forall marked_required (fields g').
Proof.
  intros Hf Hok.
  destruct (contact_form_fields f Hf)
    as (v1 & g1 & e1 & v2 & g2 & e2 & v3 & g3 & e3 & v4 & g4 & e4
        & st & btn & ->).
  rewrite ContactFacts.validateForm_spec in Hok.
  cbn [fst fields forallb] in Hok.
  repeat (apply andb_true_iff in Hok; destruct Hok as [? Hok]).
  unfold handleSubmit at 1. rewrite ContactFacts.validateForm_spec.
  cbn [fields forallb fmap list_fmap status submitBtn].
  rewrite !validated_eq.
  repeat match goal with H : field_ok _ = true |- _ => rewrite H; clear H end.
  cbn.
  eexists _, _, _, _, btn. split; [reflexivity|].
  split; [reflexivity|]. split; [|split; [|split; [|split]]].
  - split; [reflexivity|]. split; [repeat constructor; eauto|].
    split; eauto.
  - repeat constructor.
  - reflexivity.
  - reflexivity.
  - eexists _, _. split; [vm_compute; reflexivity|].
    split; [reflexivity|]. split; repeat constructor; discriminate.
Qed.

Lemma send_then_resubmit_witness :
  exists f1 effs aw g' effs',
    handleSubmit (lit "2025-01-01T00:00:00.000Z")
      (contact_form (lit "Ada") (lit "ada@example.org") [] (lit "hello"))
    = Returned (f1, effs, Some aw) /\
    handleSubmit (lit "2025-01-01T00:00:05.000Z")
      (fst (fire_timer ResolvePromise (Some aw) f1))
    = Returned (g', effs', None) /\
    status g' = Some error_banner.
Proof.
  destruct (send_then_resubmit (lit "2025-01-01T00:00:00.000Z")
              (lit "2025-01-01T00:00:05.000Z")
              (contact_form (lit "Ada") (lit "ada@example.org") []
                            (lit "hello")))
    as (f1 & effs & aw & g & btn & Hret & Hg & _ & _ & _ & _
        & g' & effs' & Hret' & Hst & _).
  - split; [reflexivity|]. split; [repeat constructor; eauto|].
    split; eauto.
  - vm_compute. reflexivity.
  - exists f1, effs, aw, g', effs'. rewrite Hg. auto.
Defined.

End ContactValidation.

(** ** Facts about the timing and the frames of TypingAnimation *)

Module TypingTiming.
Import Typing TypingFacts.

Section Timing.

Variable ts : list jsstring.
Variables tsp dsp : Z.

Local Abbreviation core := (core ts tsp dsp).

Lemma elapsed_add n : forall m w,
  elapsed (n + m) w = elapsed n w + elapsed m (run n w).
Proof.
  induction n as [|n IH]; intros m w; simpl; [reflexivity|].
  rewrite IH. lia.
Qed.

Lemma core_pending w i c d p : core w i c d p -> pending w = p.
Proof. intros (_ & _ & _ & _ & _ & _ & _ & Hp). exact Hp. Qed.

Lemma elapsed_typing k : forall w i c phrase,
  core w i c false [mkTimer JustType tsp] ->
  index ts i = Some phrase ->
  0 <= c -> c + Z.of_nat k <= str_length phrase + 1 ->
  elapsed k w = Z.of_nat k * tsp.
Proof.
  induction k as [|k IH]; intros w i c phrase Hw Hp Hc Hk; [reflexivity|].
  cbn [elapsed]. rewrite (core_pending _ _ _ _ _ Hw). cbn [delay].
  destruct k as [|k].
  - simpl. lia.
  - rewrite (IH (next w) i (c + 1) phrase); [lia| |assumption|lia|lia].
    apply step_typing with phrase; [assumption|assumption|lia].
Qed.

Lemma elapsed_deleting k : forall w i c phrase,
  core w i c true [mkTimer JustType dsp] ->
  index ts i = Some phrase ->
  Z.of_nat k <= c ->
  elapsed k w = Z.of_nat k * dsp.
Proof.
  induction k as [|k IH]; intros w i c phrase Hw Hp Hk; [reflexivity|].
  cbn [elapsed]. rewrite (core_pending _ _ _ _ _ Hw). cbn [delay].
  destruct k as [|k].
  - simpl. lia.
  - rewrite (IH (next w) i (c - 1) phrase); [lia| |assumption|lia].
    apply step_deleting with phrase; [assumption|assumption|lia].
Qed.

(** X6: A phrase of length L holds the display for
    (L + 1) * typingSpeed + 2000 + L * deletingSpeed milliseconds: that
    is the time from the invocation of [type] that starts typing it to
    the one that starts typing the next phrase. *)
Theorem cycle_duration (w : World) (i : Z) (phrase : jsstring) :
  begins ts tsp dsp i w ->
  index ts i = Some phrase ->
  elapsed (cycle_steps phrase) w
  = (str_length phrase + 1) * tsp + 2000 + str_length phrase * dsp.
Proof.
  intros Hw Hp. unfold cycle_steps.
  replace (2 * S (length phrase))%nat
    with (S (length phrase) + (1 + length phrase))%nat by lia.
  rewrite elapsed_add.
  rewrite (elapsed_typing (S (length phrase)) w i 0 phrase Hw Hp)
    by (unfold str_length; lia).
  destruct (run_typed ts tsp dsp w i phrase Hw Hp) as [Hfull _].
  set (w1 := run (S (length phrase)) w) in *.
  rewrite elapsed_add. cbn [elapsed run].
  rewrite (core_pending _ _ _ _ _ Hfull). cbn [delay].
  destruct (length phrase) as [|n] eqn:Hlen.
  - cbn [elapsed]. unfold str_length. rewrite Hlen. lia.
  - rewrite (elapsed_deleting (S n) (next w1) i (str_length phrase) phrase).
    + unfold str_length. rewrite Hlen. lia.
    + apply step_pause; [assumption | assumption |].
      unfold str_length. lia.
    + assumption.
    + unfold str_length. lia.
Qed.

End Timing.

(** *** Frames *)

Lemma clamp_range len x : 0 <= len -> 0 <= clamp len x <= len.
Proof. unfold clamp. lia. Qed.

Lemma substring_0_len (s : jsstring) c :
  str_length (substring s 0 c) = clamp (str_length s) c.
Proof.
  rewrite substring_0. unfold str_length at 1. rewrite length_take.
  pose proof (clamp_range (str_length s) c ltac:(unfold str_length; lia)).
  unfold str_length in *. lia.
Qed.

Lemma shown_frame (f : Frame) phrase c :
  frame_html f = substring phrase 0 c ++ cursor ->
  shown f = clamp (str_length phrase) c.
Proof.
  intros Hh. unfold shown. rewrite Hh. unfold str_length at 1.
  rewrite length_app. fold (str_length cursor).
  pose proof (substring_0_len phrase c) as Hl. unfold str_length in *. lia.
Qed.

Lemma smooth_snoc fs f g :
  smooth fs -> last fs = Some f -> -1 <= shown g - shown f <= 1 ->
  smooth (fs ++ [g]).
Proof.
  intros Hs Hl Hd i a b Ha Hb.
  destruct (decide (S i < length fs)%nat) as [Hlt|Hge].
  - rewrite lookup_app_l in Ha, Hb by lia. eapply Hs; eassumption.
  - assert (Hi : S i = length fs).
    { apply lookup_lt_Some in Hb. rewrite length_app in Hb. simpl in Hb. lia. }
    rewrite lookup_app_l in Ha by lia.
    rewrite lookup_app_r in Hb by lia.
    rewrite Hi, Nat.sub_diag in Hb. injection Hb as <-.
    rewrite last_lookup in Hl.
    replace (pred (length fs)) with i in Hl by lia.
    rewrite Ha in Hl. injection Hl as ->. exact Hd.
Qed.

Section Frames.

Variable el : jsstring.
Variable ts : list jsstring.
Variables tsp dsp : Z.
Hypothesis nonempty : ts <> [].

Lemma next_shown_at w i c d p phrase :
  core ts tsp dsp w i c d p ->
  index ts i = Some phrase ->
  next_shown w = clamp (str_length phrase) c.
Proof.
  intros (Ht & _ & _ & _ & Hi & Hc & _) Hp.
  unfold next_shown. rewrite Ht, Hi, Hp, Hc. reflexivity.
Qed.

Lemma next_shown_zero w i d p :
  core ts tsp dsp w i 0 d p -> next_shown w = 0.
Proof.
  intros (Ht & _ & _ & _ & Hi & Hc & _).
  unfold next_shown. rewrite Hc. destruct (index _ _) as [phrase|]; [|reflexivity].
  unfold clamp, str_length. lia.
Qed.

(** After the next invocation, what will be shown differs by at most one
    from what that invocation shows. *)
Lemma next_shown_step w :
  inv ts tsp dsp w ->
  -1 <= next_shown (next w) - next_shown w <= 1.
Proof.
  intros (Ht & Htsp & Hdsp & Hu & phrase & Hp & Hph).
  pose proof (Nat2Z.is_nonneg (length phrase)) as Hlen.
  fold (str_length phrase) in Hlen.
  assert (Hcore : forall d p, isDeleting (anim w) = d -> pending w = p ->
            core ts tsp dsp w (textIndex (anim w)) (charIndex (anim w)) d p).
  { intros d p Hd Hq. repeat split; assumption. }
  destruct Hph as [(Hd & Hq & Hc) | [(Hd & Hq & Hc) | (Hd & Hq & Hc)]];
    specialize (Hcore _ _ Hd Hq);
    rewrite (next_shown_at _ _ _ _ _ _ Hcore Hp).
  - destruct (decide (charIndex (anim w) < str_length phrase)) as [Hlt|Hge].
    + rewrite (next_shown_at _ _ _ _ _ phrase
                 (step_typing ts tsp dsp w _ _ phrase Hcore Hp ltac:(lia)) Hp).
      unfold clamp. lia.
    + assert (He : charIndex (anim w) = str_length phrase) by lia.
      rewrite He in Hcore.
      destruct (step_typed ts tsp dsp w _ phrase Hcore Hp) as [Hn _].
      rewrite (next_shown_at _ _ _ _ _ phrase Hn Hp), He.
      unfold clamp. lia.
  - rewrite Hc in Hcore.
    destruct (decide (0 < str_length phrase)) as [Hpos|Hz].
    + rewrite (next_shown_at _ _ _ _ _ phrase
                 (step_pause ts tsp dsp w _ phrase Hcore Hp Hpos) Hp), Hc.
      unfold clamp. lia.
    + rewrite (next_shown_zero _ _ _ _
                 (step_pause_empty ts tsp dsp w _ phrase Hcore Hp ltac:(lia))).
      rewrite Hc. unfold clamp. lia.
  - destruct (decide (1 < charIndex (anim w))) as [Hgt|Hle].
    + rewrite (next_shown_at _ _ _ _ _ phrase
                 (step_deleting ts tsp dsp w _ _ phrase Hcore Hp Hgt) Hp).
      unfold clamp. lia.
    + assert (He : charIndex (anim w) = 1) by lia.
      rewrite He in Hcore.
      rewrite (next_shown_zero _ _ _ _
                 (step_deleted ts tsp dsp w _ phrase Hcore Hp)).
      rewrite He. unfold clamp. lia.
Qed.

Lemma next_frame w :
  inv ts tsp dsp w ->
  exists g, frames (next w) = frames w ++ [g] /\ shown g = next_shown w.
Proof.
  intros Hi. destruct (inv_pending ts tsp dsp w Hi) as [t Ht].
  destruct Hi as (Hts & _ & _ & _ & phrase & Hp & _).
  unfold next, fire. rewrite Ht. cbn [lookup list_lookup callback].
  destruct (invoke_frames (callback t)
              (mkWorld (anim w) (delete 0%nat [t]) (frames w) (uncaught w))
              phrase) as (g & Hg & _ & _ & Hh).
  { simpl. rewrite Hts. exact Hp. }
  exists g. split; [exact Hg|].
  simpl in Hh. rewrite (shown_frame g phrase _ Hh).
  unfold next_shown. rewrite Hts, Hp. reflexivity.
Qed.

Lemma smooth_next w :
  inv ts tsp dsp w -> smooth_so_far w -> smooth_so_far (next w).
Proof.
  intros Hi (Hs & f & Hl & Hd).
  destruct (next_frame w Hi) as (g & Hg & Hsg).
  split.
  - rewrite Hg. apply smooth_snoc with f; [assumption|assumption|].
    rewrite Hsg. exact Hd.
  - exists g. split; [rewrite Hg; apply last_snoc|].
    rewrite Hsg. apply next_shown_step, Hi.
Qed.

Lemma smooth_start : smooth_so_far (start (new el ts tsp dsp)).
Proof.
  rewrite start_armed.
  assert (Hb := armed_begins el ts tsp dsp).
  destruct (index_0 ts nonempty) as [phrase Hp].
  assert (Ha : frames (next (armed (new el ts tsp dsp))) = [] ++
          [mkFrame 0 false 0 (substring phrase 0 0 ++ cursor)]).
  { unfold next, fire, armed, invoke, type, new. simpl. rewrite Hp. simpl.
    destruct (_ >? _); reflexivity. }
  assert (Hg : shown (mkFrame 0 false 0 (substring phrase 0 0 ++ cursor))
               = next_shown (armed (new el ts tsp dsp))).
  { rewrite (shown_frame (mkFrame 0 false 0 (substring phrase 0 0 ++ cursor))
               phrase 0 eq_refl).
    rewrite (next_shown_zero _ _ _ _ Hb). unfold clamp, str_length. lia. }
  split.
  - rewrite Ha. intros i f g Hf Hgl. destruct i; discriminate.
  - eexists. split; [rewrite Ha; reflexivity|].
    rewrite Hg.
    assert (Hinv : inv ts tsp dsp (armed (new el ts tsp dsp))).
    { repeat split. exists phrase. split; [exact Hp|]. left.
      repeat split; simpl; unfold str_length; lia. }
    apply next_shown_step, Hinv.
Qed.

Lemma smooth_reachable w :
  reachable el ts tsp dsp w -> smooth_so_far w.
Proof.
  induction 1 as [|w i w' Hw IH Hf]; [apply smooth_start|].
  assert (Hi := inv_reachable el ts tsp dsp nonempty w Hw).
  destruct (inv_pending ts tsp dsp w Hi) as [t Ht].
  assert (i = 0%nat) as ->.
  { unfold fire in Hf. rewrite Ht in Hf. destruct i; [reflexivity|discriminate]. }
  rewrite (inv_next ts tsp dsp w Hi) in Hf. injection Hf as <-.
  apply smooth_next; assumption.
Qed.

End Frames.

(** X7: The animation never jumps: for a non-empty phrase sequence the first
    frame shows the empty prefix, and every later frame shows exactly one
    code unit more, one less, or as many as the frame before it, also
    from the last frame of one phrase to the first frame of the next. *)
Theorem frames_smooth (el : jsstring) (ts : list jsstring) (tsp dsp : Z)
    (w : World) :
  ts <> [] ->
  reachable el ts tsp dsp w ->
  smooth (frames w) /\
  exists f, frames w !! 0%nat = Some f /\ shown f = 0.
Proof.
  intros Hne Hw. split; [apply (smooth_reachable el ts tsp dsp Hne w Hw)|].
  induction Hw as [|w i w' Hw IH Hf].
  - destruct (index_0 ts Hne) as [phrase Hp].
    exists (mkFrame 0 false 0 (substring phrase 0 0 ++ cursor)). split.
    + unfold start, invoke, type, new. simpl. rewrite Hp. simpl.
      destruct (_ >? _); reflexivity.
    + rewrite (shown_frame (mkFrame 0 false 0 (substring phrase 0 0 ++ cursor))
               phrase 0 eq_refl). unfold clamp, str_length. lia.
  - destruct IH as (f & Hf0 & Hs). exists f. split; [|exact Hs].
    destruct (fire_frames ts tsp dsp w i w'
                (inv_reachable el ts tsp dsp Hne w Hw) Hf) as (g & -> & _).
    apply lookup_app_l_Some. exact Hf0.
Qed.

Lemma frames_smooth_witness :
  smooth (frames (run 9 (start (new [] [ab] 80 50)))).
Proof.
  apply (frames_smooth [] [ab] 80 50).
  - discriminate.
  - apply reachable_run; [discriminate | apply reach_start].
Defined.

Lemma cycle_duration_witness :
  elapsed (cycle_steps ab) (armed (new [] [ab] 80 50))
  = (str_length ab + 1) * 80 + 2000 + str_length ab * 50.
Proof.
  apply (cycle_duration [ab] 80 50 (armed (new [] [ab] 80 50)) 0 ab).
  - repeat split.
  - reflexivity.
Defined.

End TypingTiming.

(** ** Facts about ThemeManager *)

Module ThemeFacts.
Import Theme.

Lemma theme_clicks_S n : forall s, clicks (S n) s = click (clicks n s).
Proof. induction n as [|n IH]; intros s; [reflexivity|]. simpl in *. apply IH. Qed.

Lemma click_consistent s : consistent (click s).
Proof. unfold click, toggle; simpl. repeat split. Qed.

Lemma loaded_consistent stored icon0 : consistent (loaded stored icon0).
Proof. repeat split. Qed.

Lemma click_theme s :
  theme (click s) = if bool_decide (theme s = "dark") then "light" else "dark".
Proof. reflexivity. Qed.

Lemma click_click s :
  consistent s -> theme s = "dark" \/ theme s = "light" ->
  click (click s) = s.
Proof.
  destruct s as [t c d i]. intros (Hc & Hd & Hi) [Ht | Ht];
    simpl in *; subst; reflexivity.
Qed.

(** X8: After the page has loaded and the toggle button has been clicked any
    number of times, [theme], [window.currentTheme] and the [data-theme]
    attribute hold the same theme and the icon shows the sun exactly in
    the dark theme; after the first click the theme is dark or light
    whatever was stored; from a stored theme that is absent, empty or
    dark the theme is dark after an even number of clicks and light after
    an odd one; and two clicks on a dark or light theme restore the
    state. *)
Theorem theme_toggles (stored : option string) (icon0 : string) (n : nat) :
  consistent (clicks n (loaded stored icon0)) /\
  ((1 <= n)%nat ->
   theme (clicks n (loaded stored icon0)) = "dark" \/
   theme (clicks n (loaded stored icon0)) = "light") /\
  (or_else stored "dark" = "dark" ->
   theme (clicks n (loaded stored icon0))
   = if Nat.even n then "dark" else "light") /\
  (theme (clicks n (loaded stored icon0)) = "dark" \/
   theme (clicks n (loaded stored icon0)) = "light" ->
   clicks (n + 2) (loaded stored icon0) = clicks n (loaded stored icon0)).
Proof.
  set (s0 := loaded stored icon0).
  assert (Hcons : forall k, consistent (clicks k s0)).
  { intros [|k]; [apply loaded_consistent|].
    rewrite theme_clicks_S. apply click_consistent. }
  split; [apply Hcons|]. split; [|split].
  - intros Hn. destruct n as [|n]; [lia|].
    rewrite theme_clicks_S, click_theme. case_bool_decide; auto.
  - intros Hd. induction n as [|n IH].
    + simpl. unfold s0, loaded, new, getStoredTheme. simpl.
      destruct stored as [[|a s]|]; simpl in *; try reflexivity;
        rewrite Hd; reflexivity.
    + rewrite theme_clicks_S, click_theme, IH, Nat.even_succ, <- Nat.negb_even.
      destruct (Nat.even n); reflexivity.
  - intros Ht. replace (n + 2)%nat with (S (S n)) by lia.
    rewrite !theme_clicks_S. apply click_click; [apply Hcons | exact Ht].
Qed.

End ThemeFacts.

(** ** Facts about Navigation *)

Module NavigationFacts.
Import Navigation.

Lemma mark_links_twice id id' (links : list NavLink) :
  mark_links id (mark_links id' links) = mark_links id links.
Proof.
  unfold mark_links. rewrite <- list_fmap_compose.
  apply list_fmap_ext. intros i link _. reflexivity.
Qed.

Lemma highlight_last scrollY (sections : list PageSection) :
  forall links,
    highlightActiveSection scrollY sections links
    = match last (under scrollY sections) with
      | Some section => mark_links (section_id section) links
      | None => links
      end.
Proof.
  unfold highlightActiveSection, under.
  induction sections as [|sec secs IH]; intros links; [reflexivity|].
  cbn [foldl]. rewrite IH, filter_cons.
  destruct (contains (scrollY + 100) sec) eqn:Hc.
  - rewrite decide_True by reflexivity.
    destruct (filter _ secs) as [|s' rest]; [reflexivity|].
    change (last (sec :: s' :: rest)) with (last (s' :: rest)).
    destruct (last (s' :: rest)) as [sec'|] eqn:Hl.
    + apply mark_links_twice.
    + apply last_None in Hl. discriminate.
  - rewrite decide_False by discriminate. reflexivity.
Qed.

(** X9: [highlightActiveSection] leaves the links as they are when no
    section lies under the scroll position (offset by 100); otherwise the
    last such section in document order decides: exactly the links whose
    [href] is [#] followed by its id are active afterwards, whatever was
    active before.  The [href]s never change. *)
Theorem highlight_spec (scrollY : Z) (sections : list PageSection)
    (links : list NavLink) :
  (under scrollY sections = [] ->
   highlightActiveSection scrollY sections links = links) /\
  (forall section,
     last (under scrollY sections) = Some section ->
     forall i link,
       links !! i = Some link ->
       highlightActiveSection scrollY sections links !! i
       = Some (mkLink (href link)
                      (bool_decide
                         (href link = Some (hash (section_id section)))))) /\
  href <$> highlightActiveSection scrollY sections links = href <$> links.
Proof.
  rewrite highlight_last. split; [|split].
  - intros ->. reflexivity.
  - intros sec -> i link Hi. unfold mark_links.
    rewrite list_lookup_fmap, Hi. reflexivity.
  - destruct (last _); [|reflexivity].
    unfold mark_links. rewrite <- list_fmap_compose. reflexivity.
Qed.

End NavigationFacts.

(** ** Facts about the particle presets *)

Module ParticlesFacts.
Import Particles.

Section Presets.

Variable Config : Type.
Variable network : Config.
Variable particlePresets : string -> option Config.
Variable throws : Config -> bool.
Variable presets : list string.
Hypothesis presets_nonempty : presets <> [].

Local Abbreviation click := (click Config network particlePresets throws presets).
Local Abbreviation clicks := (clicks Config network particlePresets throws presets).

Lemma preset_clicks_S n : forall t, clicks (S n) t = click (clicks n t).
Proof. induction n as [|n IH]; intros t; [reflexivity|]. simpl in *. apply IH. Qed.

Lemma presets_length : 0 < arr_length presets.
Proof. unfold arr_length. destruct presets; [congruence | simpl; lia]. Qed.

Lemma click_fields t :
  current (click t)
  = Z.rem (current t + 1) (arr_length presets) /\
  library (click t) = library t /\
  textContent (click t)
  = match index presets (Z.rem (current t + 1) (arr_length presets)) with
    | Some s => s
    | None => EmptyString
    end.
Proof.
  unfold Particles.click, initParticlesWithPreset. simpl.
  destruct (library t); repeat split.
Qed.

Lemma clicks_current n : forall t,
  0 <= current t < arr_length presets ->
  current (clicks n t) = (current t + Z.of_nat n) mod arr_length presets /\
  library (clicks n t) = library t.
Proof.
  pose proof presets_length as Hlen.
  induction n as [|n IH]; intros t Ht.
  - simpl. rewrite Z.add_0_r, Z.mod_small by lia. auto.
  - rewrite preset_clicks_S. destruct (click_fields (clicks n t)) as (Hc & Hl & _).
    destruct (IH t Ht) as [IHc IHl]. rewrite Hc, Hl, IHc, IHl.
    split; [|reflexivity].
    rewrite Z.rem_mod_nonneg; try lia.
    + rewrite Zplus_mod_idemp_l. f_equal. lia.
    + pose proof (Z.mod_pos_bound (current t + Z.of_nat n)
                    (arr_length presets) Hlen). lia.
Qed.

Lemma clicks_off n : forall t,
  library t = false -> calls (clicks n t) = calls t.
Proof.
  induction n as [|n IH]; intros t Hoff; [reflexivity|].
  cbn [Particles.clicks]. rewrite IH.
  - unfold Particles.click, initParticlesWithPreset. simpl.
    rewrite Hoff. reflexivity.
  - destruct (click_fields t) as (_ & -> & _). exact Hoff.
Qed.

End Presets.

Lemma clicks_cycle (Config : Type) (network : Config)
    (particlePresets : string -> option Config) (throws : Config -> bool)
    (presets : list string) (t : Toggle Config) (k : nat) :
  presets <> [] ->
  0 <= current t < arr_length presets ->
  let t' := clicks Config network particlePresets throws presets (S k) t in
  let before := clicks Config network particlePresets throws presets k t in
  current t' = (current t + Z.of_nat (S k)) mod arr_length presets /\
  index presets (current t') = Some (textContent t') /\
  current (clicks Config network particlePresets throws presets
                  (length presets) t) = current t /\
  (library t = false -> calls t' = calls t) /\
  (library t = true ->
   calls t'
   = calls before
     ++ [DestroyParticles;
         ParticlesJS "particles-js"
           (selected Config network particlePresets (textContent t'))]
     ++ (if throws (selected Config network particlePresets (textContent t'))
         then [ConsoleWarn] else [])).
Proof.
  intros Hne Ht t' before.
  pose proof (presets_length presets Hne) as Hlen.
  destruct (clicks_current Config network particlePresets throws presets Hne
              (S k) t Ht) as [Hc Hl].
  destruct (clicks_current Config network particlePresets throws presets Hne
              k t Ht) as [Hck Hlk].
  fold t' in Hc, Hl. fold before in Hck, Hlk.
  assert (Hstep : t' = click Config network particlePresets throws presets before).
  { unfold t', before. apply preset_clicks_S. }
  assert (Hidx : is_Some (index presets (current t'))).
  { apply TypingFacts.index_in_range. rewrite Hc.
    apply Z.mod_pos_bound. exact Hlen. }
  destruct Hidx as [name Hname].
  assert (Htext : textContent t' = name).
  { rewrite Hstep in Hname |- *.
    destruct (click_fields Config network particlePresets throws presets before)
      as (Hcur & _ & Htxt).
    rewrite Htxt. rewrite Hcur in Hname. rewrite Hname. reflexivity. }
  split; [exact Hc|]. split; [rewrite Htext; exact Hname|]. split; [|split].
  - destruct (clicks_current Config network particlePresets throws presets Hne
                (length presets) t Ht) as [-> _].
    fold (arr_length presets).
    rewrite <- (Z.mul_1_l (arr_length presets)) at 1.
    rewrite Z.mod_add by lia. apply Z.mod_small. exact Ht.
  - intros Hoff. unfold t'.
    apply (clicks_off Config network particlePresets throws presets).
    exact Hoff.
  - intros Hon. rewrite <- Htext in Hname.
    destruct (click_fields Config network particlePresets throws presets before)
      as (Hcur & _ & _).
    rewrite <- Hstep in Hcur. rewrite Hcur in Hname.
    rewrite Hstep at 1.
    unfold Particles.click, initParticlesWithPreset.
    cbn [library negb calls current]. rewrite Hlk, Hon. cbn [negb calls].
    rewrite Hname. unfold selected. cbn [mbind option_bind]. reflexivity.
Qed.

Section Events.

Variable Config : Type.
Variable network : Config.
Variable particlePresets : string -> option Config.
Variable throws : Config -> bool.
Variable presets : list string.

Local Abbreviation click := (click Config network particlePresets throws presets).
Local Abbreviation clicks := (clicks Config network particlePresets throws presets).
Local Abbreviation run := (run Config network particlePresets throws presets).

Lemma click_text (t u : Toggle Config) :
  current t = current u -> library t = library u -> calls t = calls u ->
  click t = click u.
Proof.
  unfold Particles.click, initParticlesWithPreset. simpl.
  intros -> -> ->. destruct (library u); reflexivity.
Qed.

Lemma clicks_restore n (t : Toggle Config) :
  current (clicks n (restore Config t)) = current (clicks n t) /\
  library (clicks n (restore Config t)) = library (clicks n t) /\
  calls (clicks n (restore Config t)) = calls (clicks n t).
Proof.
  destruct n as [|n]; [repeat split|].
  cbn [Particles.clicks].
  rewrite (click_text (restore Config t) t) by reflexivity.
  repeat split.
Qed.

Lemma run_clicks evs : forall t : Toggle Config,
  current (run evs t) = current (clicks (click_count evs) t) /\
  library (run evs t) = library (clicks (click_count evs) t) /\
  calls (run evs t) = calls (clicks (click_count evs) t).
Proof.
  induction evs as [|[|] evs IH]; intros t.
  - repeat split.
  - exact (IH (click t)).
  - destruct (IH (restore Config t)) as (Hc & Hl & Hk).
    destruct (clicks_restore (click_count evs) t) as (Hc' & Hl' & Hk').
    change (run (TimerFires :: evs) t) with (run evs (restore Config t)).
    cbn [click_count]. rewrite Hc, Hl, Hk. auto.
Qed.

Lemma run_click evs t :
  run (evs ++ [Click]) t = clicks (S (click_count evs)) t.
Proof.
  unfold Particles.run. rewrite fold_left_app. cbn [fold_left handle].
  fold (run evs t).
  destruct (run_clicks evs t) as (Hc & Hl & Hk).
  rewrite (click_text _ _ Hc Hl Hk).
  symmetry. apply preset_clicks_S.
Qed.

Lemma run_repeat n : forall t, run (repeat Click n) t = clicks n t.
Proof. induction n as [|n IH]; intros t; [reflexivity|]. apply IH. Qed.

End Events.

(** X10: Each click on the style button moves to the next name of the
    list and wraps after the last, whenever the timers of earlier clicks
    fire: after a run of events with k clicks [current] is
    (current + k) mod n, so n clicks return to the preset the cycle
    started from.  When the listener returns the button shows the name;
    when a timer fires it shows [Style] again and nothing else changes.
    With the library loaded a click destroys the running instances and
    starts one with the configuration the name selects ([network]'s when
    the table has no such name), logging a warning when the library
    throws; without the library a click calls nothing. *)
Theorem preset_cycle (Config : Type) (network : Config)
    (particlePresets : string -> option Config) (throws : Config -> bool)
    (presets : list string) (t : Toggle Config) (evs : list Event) :
  presets <> [] ->
  0 <= current t < arr_length presets ->
  let run := run Config network particlePresets throws presets in
  let before := run evs t in
  let t' := run (evs ++ [Click]) t in
  let late := run (evs ++ [TimerFires]) t in
  current t'
  = (current t + Z.of_nat (S (click_count evs))) mod arr_length presets /\
  index presets (current t') = Some (textContent t') /\
  (textContent late = "Style" /\ current late = current before /\
   calls late = calls before) /\
  current (run (repeat Click (length presets)) t) = current t /\
  (library t = false -> calls t' = calls t) /\
  (library t = true ->
   calls t'
   = calls before
     ++ [DestroyParticles;
         ParticlesJS "particles-js"
           (selected Config network particlePresets (textContent t'))]
     ++ (if throws (selected Config network particlePresets (textContent t'))
         then [ConsoleWarn] else [])).
Proof.
  intros Hne Ht run0 before t' late.
  destruct (clicks_cycle Config network particlePresets throws presets t
              (click_count evs) Hne Ht) as (Hc & Hi & Hn & Hoff & Hon).
  cbv zeta in Hc, Hi, Hoff, Hon.
  assert (Ht' : t' = clicks Config network particlePresets throws presets
                       (S (click_count evs)) t) by apply run_click.
  destruct (run_clicks Config network particlePresets throws presets evs t)
    as (_ & _ & Hk).
  fold (run0 evs t) in Hk. fold before in Hk.
  rewrite Ht', Hk.
  split; [exact Hc|]. split; [exact Hi|]. split; [|split; [|split]].
  - unfold late, before, run0, Particles.run.
    rewrite fold_left_app. repeat split. exact Hk.
  - unfold run0. rewrite run_repeat. exact Hn.
  - exact Hoff.
  - exact Hon.
Qed.

Lemma preset_cycle_witness :
  current
    (run nat 0%nat (fun _ => None) (fun _ => false) ["network"; "bubbles"]
       [Click; TimerFires; Click]
       (mkToggle 0 "Style" true ([] : list (Call nat)))) = 0.
Proof.
  destruct (preset_cycle nat 0%nat (fun _ => None) (fun _ => false)
              ["network"; "bubbles"]
              (mkToggle 0 "Style" true ([] : list (Call nat)))
              [Click; TimerFires]) as (Hc & _).
  - discriminate.
  - unfold arr_length. simpl. lia.
  - exact Hc.
Defined.

End ParticlesFacts.

(** ** Where the animators leave the document *)

Module RevealOrder.
Import Reveal.

Lemma settle_none el : settle false false el = el.
Proof. destruct el. reflexivity. Qed.

Lemma settle_settle v1 w1 v2 w2 el :
  settle v2 w2 (settle v1 w1 el) = settle (v1 || v2) (w1 || w2) el.
Proof.
  unfold settle. simpl. f_equal.
  - destruct v1, v2; simpl; try reflexivity;
      destruct (bool_decide ("visible" ∈ classList el)) eqn:Hin;
      simpl; try reflexivity; try (rewrite Hin; reflexivity).
    rewrite bool_decide_eq_true_2; [reflexivity|].
    apply elem_of_app. right. apply list_elem_of_singleton. reflexivity.
  - destruct w1, w2; reflexivity.
Qed.

Lemma classList_add_settle el : classList_add "visible" el = settle true false el.
Proof.
  unfold classList_add, settle. simpl.
  destruct (bool_decide ("visible" ∈ classList el)); reflexivity.
Qed.

Lemma setProperty_settle el : setProperty (data_width el) el = settle false true el.
Proof. reflexivity. Qed.

Lemma scroll_entry_lookup d e id :
  elements (scroll_entry d e) !! id
  = settle (shows id e) false <$> elements d !! id.
Proof.
  unfold scroll_entry, shows.
  destruct (isIntersecting e); simpl.
  2:{ destruct (elements d !! id) as [el|]; simpl; [|reflexivity].
      rewrite settle_none. reflexivity. }
  destruct (elements d !! target e) as [el|] eqn:He.
  - simpl. destruct (decide (target e = id)) as [<-|Hne].
    + rewrite lookup_insert_eq, He, bool_decide_eq_true_2 by reflexivity.
      simpl. rewrite classList_add_settle. reflexivity.
    + rewrite lookup_insert_ne, bool_decide_eq_false_2 by assumption.
      destruct (elements d !! id); simpl; [|reflexivity].
      rewrite settle_none. reflexivity.
  - destruct (decide (target e = id)) as [<-|Hne].
    + rewrite He. reflexivity.
    + rewrite bool_decide_eq_false_2 by assumption.
      destruct (elements d !! id); simpl; [|reflexivity].
      rewrite settle_none. reflexivity.
Qed.

Lemma fmap_settle_none (o : option Element) : settle false false <$> o = o.
Proof. destruct o; simpl; [rewrite settle_none|]; reflexivity. Qed.

Lemma hit_dom_spec d p e :
  hit_dom d p e = true <->
  isIntersecting e = true /\
  (exists el, elements d !! target e = Some el /\ skill_progress el = Some p) /\
  is_Some (elements d !! p).
Proof.
  unfold hit_dom. rewrite !andb_true_iff, !bool_decide_eq_true.
  destruct (elements d !! target e) as [el|]; simpl.
  - split.
    + intros [[Hi Hp] Hs]. eauto.
    + intros (Hi & (el' & [= <-] & Hp) & Hs). auto.
  - split.
    + intros [[_ Hp] _]. discriminate.
    + intros (_ & (el' & Hn & _) & _). discriminate.
Qed.

Lemma shown_lookup d e el id :
  isIntersecting e = true ->
  elements d !! target e = Some el ->
  elements (update (target e) (classList_add "visible" el) d) !! id
  = settle (shows id e) false <$> elements d !! id.
Proof.
  intros Hi He. unfold update, shows. cbn [elements]. rewrite Hi. cbn [andb].
  destruct (decide (target e = id)) as [<-|Hne].
  - rewrite lookup_insert_eq, He, bool_decide_eq_true_2 by reflexivity.
    simpl. rewrite classList_add_settle. reflexivity.
  - rewrite lookup_insert_ne, bool_decide_eq_false_2 by assumption.
    rewrite fmap_settle_none. reflexivity.
Qed.

Lemma skill_entry_lookup d e id :
  elements (skill_entry d e) !! id
  = settle (shows id e) (hit_dom d id e) <$> elements d !! id.
Proof.
  destruct (hit_dom d id e) eqn:Hhit.
  - apply hit_dom_spec in Hhit.
    destruct Hhit as (Hi & (el & He & Hp) & [pr Hpr]).
    unfold skill_entry. cbv zeta. rewrite Hi, He, Hp.
    assert (H1 := shown_lookup d e el id Hi He). rewrite Hpr in H1.
    rewrite H1. cbn [fmap option_fmap option_map].
    cbn [record_write update elements].
    rewrite lookup_insert_eq.
    rewrite setProperty_settle, settle_settle, orb_false_r, Hpr. reflexivity.
  - assert (Hno : forall el p, isIntersecting e = true ->
              elements d !! target e = Some el ->
              skill_progress el = Some p ->
              is_Some (elements d !! p) -> p <> id).
    { intros el p Hi He Hp Hs ->.
      assert (hit_dom d id e = true) by (apply hit_dom_spec; eauto).
      congruence. }
    unfold skill_entry. cbv zeta.
    destruct (isIntersecting e) eqn:Hi.
    2:{ unfold shows. rewrite Hi. cbn [andb].
        rewrite fmap_settle_none. reflexivity. }
    destruct (elements d !! target e) as [el|] eqn:He.
    2:{ unfold shows. rewrite Hi. cbn [andb].
        destruct (decide (target e = id)) as [<-|Hne].
        - rewrite He. reflexivity.
        - rewrite bool_decide_eq_false_2 by assumption.
          rewrite fmap_settle_none. reflexivity. }
    assert (H1 := shown_lookup d e el id Hi He).
    destruct (skill_progress el) as [p|] eqn:Hp; [|exact H1].
    destruct (elements (update _ _ d) !! p) as [progress|] eqn:Hprog;
      [|exact H1].
    cbn [record_write update elements].
    rewrite lookup_insert_ne; [exact H1|].
    apply (Hno el p eq_refl eq_refl Hp).
    rewrite (shown_lookup d e el p Hi He) in Hprog.
    destruct (elements d !! p); [eauto | discriminate].
Qed.

Section Settled.

Variable pg0 : Page.

Local Abbreviation d0 := (dom pg0).

Lemma hit_dom_settled d vis wid p e :
  settled d0 d vis wid -> hit_dom d p e = hit_dom d0 p e.
Proof.
  intros Hs. apply Bool.eq_iff_eq_true. rewrite !hit_dom_spec.
  rewrite (Hs (target e)), (Hs p).
  destruct (elements d0 !! target e) as [el0|]; simpl.
  - rewrite fmap_is_Some. split.
    + intros (Hi & (el & [= <-] & Hp) & Hsome). eauto.
    + intros (Hi & (el & [= <-] & Hp) & Hsome). eauto.
  - split; intros (_ & (el & Hn & _) & _); discriminate.
Qed.

Lemma skill_entries_settled es : forall d vis wid,
  settled d0 d vis wid ->
  settled d0 (foldl skill_entry d es)
          (fun id => vis id || existsb (shows id) es)
          (fun id => wid id || existsb (hit_dom d0 id) es).
Proof.
  induction es as [|e es IH]; intros d vis wid Hs id.
  - simpl. rewrite !orb_false_r. apply Hs.
  - cbn [foldl existsb]. rewrite !orb_assoc.
    apply (IH (skill_entry d e)
              (fun id => vis id || shows id e)
              (fun id => wid id || hit_dom d0 id e)).
    intros j. rewrite skill_entry_lookup, (Hs j).
    rewrite (hit_dom_settled d vis wid j e Hs).
    destruct (elements d0 !! j); simpl; [|reflexivity].
    rewrite settle_settle. reflexivity.
Qed.

Lemma scroll_entries_settled es : forall d vis wid,
  settled d0 d vis wid ->
  settled d0 (foldl scroll_entry d es)
          (fun id => vis id || existsb (shows id) es) wid.
Proof.
  induction es as [|e es IH]; intros d vis wid Hs id.
  - simpl. rewrite !orb_false_r. apply Hs.
  - cbn [foldl existsb]. rewrite !orb_assoc.
    apply (IH (scroll_entry d e) (fun id => vis id || shows id e) wid).
    intros j. rewrite scroll_entry_lookup, (Hs j).
    destruct (elements d0 !! j); simpl; [|reflexivity].
    rewrite settle_settle, orb_false_r. reflexivity.
Qed.

Lemma handle_all_settled evs : forall pg vis wid,
  scrollAnimator pg = scrollAnimator pg0 ->
  skillBarsAnimator pg = skillBarsAnimator pg0 ->
  settled d0 (dom pg) vis wid ->
  settled d0 (dom (handle_all pg evs))
          (fun id => vis id || revealed_by pg0 id evs)
          (fun id => wid id || width_written pg0 id evs).
Proof.
  induction evs as [|ev evs IH]; intros pg vis wid Hsc Hsk Hs id.
  - simpl. rewrite !orb_false_r. apply Hs.
  - cbn [handle_all foldl revealed_by width_written existsb].
    rewrite !orb_assoc.
    destruct ev as [es|es].
    + rewrite orb_false_r.
      apply (IH (handle pg (ScrollEntries es))
                (fun id => vis id
                   || existsb (shows id) (delivered (scrollAnimator pg0) es))
                wid); [exact Hsc | exact Hsk |].
      simpl. rewrite Hsc. apply scroll_entries_settled, Hs.
    + apply (IH (handle pg (SkillEntries es))
                (fun id => vis id
                   || existsb (shows id) (delivered (skillBarsAnimator pg0) es))
                (fun id => wid id
                   || existsb (hit_dom d0 id)
                              (delivered (skillBarsAnimator pg0) es)));
        [exact Hsc | exact Hsk |].
      simpl. rewrite Hsk. apply skill_entries_settled, Hs.
Qed.

Lemma final_lookup evs id :
  elements (dom (handle_all pg0 evs)) !! id
  = settle (revealed_by pg0 id evs) (width_written pg0 id evs)
      <$> elements d0 !! id.
Proof.
  apply (handle_all_settled evs pg0 (fun _ => false) (fun _ => false)
           eq_refl eq_refl).
  intros j. rewrite fmap_settle_none. reflexivity.
Qed.

End Settled.

Lemma existsb_perm {A} (f : A -> bool) l l' :
  l ≡ₚ l' -> existsb f l = existsb f l'.
Proof.
  induction 1 as [|x l l' _ IH|x y l|l l' l'' _ IH1 _ IH2]; simpl.
  - reflexivity.
  - rewrite IH. reflexivity.
  - destruct (f x), (f y); reflexivity.
  - congruence.
Qed.

(** X11: Where every element ends up after any sequence of visibility-change
    events: it is in the document exactly if it was, its data-width and
    its progress element are what they were, it has gained the [visible]
    token exactly if it lacked it and some delivered entry for it was
    intersecting, and its width is the one its data-width gives exactly
    if some delivered intersecting entry of SkillBarsAnimator was for a
    card whose progress element it is; otherwise its width is what it
    was. *)
Theorem final_state (pg : Page) (evs : list Event) (id : nat) :
  elements (dom (handle_all pg evs)) !! id
  = settle (revealed_by pg id evs) (width_written pg id evs)
      <$> elements (dom pg) !! id.
Proof. apply final_lookup. Qed.

(** X12: The order of the notifications does not matter for the elements: the
    events of a sequence in another order, and the entries of a batch in
    another order, leave every element the same. *)
Theorem order_independent (pg : Page) :
  (forall evs evs',
     evs ≡ₚ evs' ->
     elements (dom (handle_all pg evs)) = elements (dom (handle_all pg evs'))) /\
  (forall es es',
     es ≡ₚ es' ->
     elements (dom (handle pg (SkillEntries es)))
     = elements (dom (handle pg (SkillEntries es'))) /\
     elements (dom (handle pg (ScrollEntries es)))
     = elements (dom (handle pg (ScrollEntries es')))).
Proof.
  split.
  - intros evs evs' Hp. apply map_eq. intros id.
    rewrite !final_lookup. unfold revealed_by, width_written.
    rewrite (existsb_perm _ evs evs' Hp).
    rewrite (existsb_perm _ evs evs' Hp). reflexivity.
  - intros es es' Hp.
    assert (Hd : forall o, delivered o es ≡ₚ delivered o es').
    { intros o. unfold delivered. rewrite Hp. reflexivity. }
    split; apply map_eq; intros id.
    + change (handle pg (SkillEntries es))
        with (handle_all pg [SkillEntries es]).
      change (handle pg (SkillEntries es'))
        with (handle_all pg [SkillEntries es']).
      rewrite !final_lookup. unfold revealed_by, width_written.
      cbn [existsb].
      rewrite (existsb_perm _ _ _ (Hd (skillBarsAnimator pg))).
      rewrite (existsb_perm _ _ _ (Hd (skillBarsAnimator pg))).
      reflexivity.
    + change (handle pg (ScrollEntries es))
        with (handle_all pg [ScrollEntries es]).
      change (handle pg (ScrollEntries es'))
        with (handle_all pg [ScrollEntries es']).
      rewrite !final_lookup. unfold revealed_by, width_written.
      cbn [existsb].
      rewrite (existsb_perm _ _ _ (Hd (scrollAnimator pg))).
      reflexivity.
Qed.

End RevealOrder.

(** ** Facts about the markup of the page *)

Module PageFacts.
Import Render PageRender.

(** *** Templates and their parts *)

Lemma flatten_app ps qs : flatten (ps ++ qs) = flatten ps ++ flatten qs.
Proof.
  induction ps as [|p ps IH]; [reflexivity|].
  cbn [app flatten]. rewrite IH, app_assoc. reflexivity.
Qed.

Lemma join_flat {A} (g : A -> jsstring) (gp : A -> list Part) (l : list A) :
  (forall x, g x = flatten (gp x)) ->
  join [] (g <$> l) = flatten (concat (gp <$> l)).
Proof.
  intros Hg. rewrite RenderFacts.join_empty.
  induction l as [|x l IH]; [reflexivity|].
  rewrite !fmap_cons.
  change (concat (g x :: (g <$> l))) with (g x ++ concat (g <$> l)).
  change (concat (gp x :: (gp <$> l))) with (gp x ++ concat (gp <$> l)).
  rewrite flatten_app, IH, Hg. reflexivity.
Qed.

Ltac flat :=
  rewrite ?flatten_app; cbn [flatten part_string app];
  rewrite ?app_nil_r, <- ?app_assoc; reflexivity.

Lemma skill_card_flat x : skill_card x = flatten (skill_parts x).
Proof. unfold skill_card, skill_parts. flat. Qed.

Lemma tech_tag_flat x : tech_tag x = flatten (tech_parts x).
Proof. unfold tech_tag, tech_parts. flat. Qed.

Lemma project_card_flat x : project_card x = flatten (project_parts x).
Proof.
  unfold project_card, project_parts.
  rewrite (join_flat tech_tag tech_parts _ tech_tag_flat). flat.
Qed.

Lemma other_card_flat x : other_card x = flatten (other_card_parts x).
Proof. unfold other_card, other_card_parts. flat. Qed.

Lemma education_item_flat x :
  education_item x = flatten (education_item_parts x).
Proof. unfold education_item, education_item_parts. flat. Qed.

Lemma experience_item_flat x :
  experience_item x = flatten (experience_item_parts x).
Proof. unfold experience_item, experience_item_parts. flat. Qed.

Lemma certification_item_flat x :
  certification_item x = flatten (certification_item_parts x).
Proof. unfold certification_item, certification_item_parts. flat. Qed.

Lemma renderSkills_flat pd : renderSkills pd = flatten (skills_parts pd).
Proof.
  unfold renderSkills, skills_parts.
  rewrite (join_flat skill_card skill_parts _ skill_card_flat). flat.
Qed.

Lemma renderProjects_flat pd : renderProjects pd = flatten (projects_parts pd).
Proof.
  unfold renderProjects, projects_parts.
  rewrite (join_flat project_card project_parts _ project_card_flat). flat.
Qed.

Lemma renderHeader_flat : renderHeader = flatten header_parts.
Proof. unfold renderHeader, header_parts. flat. Qed.

Lemma renderHero_flat : renderHero = flatten hero_parts.
Proof. unfold renderHero, hero_parts. flat. Qed.

Lemma renderAbout_flat d : renderAbout d = flatten (about_parts d).
Proof. unfold renderAbout, about_parts. flat. Qed.

Lemma renderOtherProjects_flat d :
  renderOtherProjects d = flatten (other_parts d).
Proof.
  unfold renderOtherProjects, other_parts.
  rewrite (join_flat other_card other_card_parts _ other_card_flat). flat.
Qed.

Lemma renderResume_flat d : renderResume d = flatten (resume_parts d).
Proof.
  unfold renderResume, resume_parts.
  rewrite (join_flat education_item education_item_parts _
             education_item_flat).
  rewrite (join_flat experience_item experience_item_parts _
             experience_item_flat).
  rewrite (join_flat certification_item certification_item_parts _
             certification_item_flat).
  flat.
Qed.

Lemma renderContact_flat d : renderContact d = flatten (contact_parts d).
Proof. unfold renderContact, contact_parts. flat. Qed.

Lemma renderFooter_flat d : renderFooter d = flatten (footer_parts d).
Proof. unfold renderFooter, footer_parts. flat. Qed.

Lemma app_innerHTML_flat d : app_innerHTML d = flatten (app_parts d).
Proof.
  unfold app_innerHTML, app_parts.
  rewrite renderHeader_flat, renderHero_flat, renderAbout_flat,
    renderSkills_flat, renderProjects_flat, renderOtherProjects_flat,
    renderResume_flat, renderContact_flat, renderFooter_flat.
  flat.
Qed.

(** *** Counting a tag in a list of parts *)

Lemma lits_count_lit tag s ps :
  lits_count tag (Lit s :: ps) = (count_tag tag s + lits_count tag ps)%nat.
Proof. reflexivity. Qed.

Lemma lits_count_data tag s ps :
  lits_count tag (Data s :: ps) = lits_count tag ps.
Proof. reflexivity. Qed.

Lemma lits_count_app tag ps qs :
  lits_count tag (ps ++ qs) = (lits_count tag ps + lits_count tag qs)%nat.
Proof.
  induction ps as [|p ps IH]; [reflexivity|].
  rewrite <- app_comm_cons. destruct p.
  - rewrite !lits_count_lit, IH. lia.
  - rewrite !lits_count_data, IH. reflexivity.
Qed.

Lemma lits_count_concat {A} tag (gp : A -> list Part) (c : nat) (l : list A) :
  (forall x, x ∈ l -> lits_count tag (gp x) = c) ->
  lits_count tag (concat (gp <$> l)) = (length l * c)%nat.
Proof.
  induction l as [|x l IH]; intros Hc; [reflexivity|].
  rewrite fmap_cons.
  change (concat (gp x :: (gp <$> l))) with (gp x ++ concat (gp <$> l)).
  rewrite lits_count_app, IH, Hc; [cbn [length]; lia | left|].
  intros y Hy. apply Hc. right. exact Hy.
Qed.

Lemma Forall_concat_fmap {A} (P : Part -> Prop) (gp : A -> list Part) l :
  (forall x, x ∈ l -> Forall P (gp x)) -> Forall P (concat (gp <$> l)).
Proof.
  induction l as [|x l IH]; intros Hl; [constructor|].
  rewrite fmap_cons.
  change (concat (gp x :: (gp <$> l))) with (gp x ++ concat (gp <$> l)).
  apply Forall_app. split; [apply Hl; left|].
  apply IH. intros y Hy. apply Hl. right. exact Hy.
Qed.

Lemma forallb_elem {A} (f : A -> bool) l x :
  forallb f l = true -> x ∈ l -> f x = true.
Proof.
  intros Hf Hx. induction Hx as [x l | x y l _ IH]; cbn [forallb] in Hf;
    apply andb_true_iff in Hf; destruct Hf as [H1 H2]; auto.
Qed.

Section Tag.

Variable tag : jsstring.
Hypothesis tag_opens : head tag = Some 60%N.
Hypothesis literals_safe : forallb (safe tag) page_literals = true.
Hypothesis tech_free : pieces_count tag tech_pieces = 0%nat.

Lemma count_parts parts : forall r,
  Forall (part_ok tag) parts ->
  count_tag tag (flatten parts ++ r)
  = (lits_count tag parts + count_tag tag r)%nat.
Proof.
  intros r Hok. induction Hok as [|p parts Hp _ IH]; [reflexivity|].
  cbn [flatten]. rewrite <- app_assoc.
  destruct p as [s|s]; cbn [part_string part_ok] in *.
  - rewrite (RenderFacts.count_tag_safe tag s _ Hp), IH, lits_count_lit.
    lia.
  - rewrite (RenderFacts.count_tag_plain tag s _ tag_opens Hp), IH,
      lits_count_data.
    reflexivity.
Qed.

Ltac find_lit :=
  lazymatch goal with
  | |- ?x ∈ ?y :: _ =>
    tryif constr_eq x y then apply list_elem_of_here
    else (apply list_elem_of_further; find_lit)
  end.

Ltac lit_safe :=
  apply (forallb_elem (safe tag) page_literals _ literals_safe);
  unfold page_literals; find_lit.

Ltac parts_ok :=
  repeat first
    [ apply List.Forall_nil
    | apply List.Forall_cons; cbn [part_ok];
      [first [lit_safe | assumption | apply RenderFacts.plain_number]|] ].

Ltac split_plain H :=
  repeat (apply andb_true_iff in H;
          let H' := fresh "Hplain" in destruct H as [H H']).

Lemma skill_parts_ok x : plain_skill x = true -> Forall (part_ok tag) (skill_parts x).
Proof. intros Hp. unfold plain_skill in Hp. split_plain Hp. unfold skill_parts. parts_ok. Qed.

Lemma tech_parts_ok x : plain x = true -> Forall (part_ok tag) (tech_parts x).
Proof. intros Hp. unfold tech_parts. parts_ok. Qed.

Lemma project_parts_ok x :
  plain_project x = true -> Forall (part_ok tag) (project_parts x).
Proof.
  intros Hp. unfold plain_project in Hp. split_plain Hp.
  unfold project_parts. repeat (apply Forall_app; split); [parts_ok| |parts_ok].
  apply Forall_concat_fmap. intros tech Ht. apply tech_parts_ok.
  eapply forallb_elem; eassumption.
Qed.

Lemma other_card_parts_ok x :
  plain_other x = true -> Forall (part_ok tag) (other_card_parts x).
Proof.
  intros Hp. unfold plain_other in Hp. split_plain Hp.
  unfold other_card_parts. cbn [app]. parts_ok.
Qed.

Lemma education_item_parts_ok x :
  plain_education x = true -> Forall (part_ok tag) (education_item_parts x).
Proof.
  intros Hp. unfold plain_education in Hp. split_plain Hp.
  unfold education_item_parts. cbn [app]. parts_ok.
Qed.

Lemma experience_item_parts_ok x :
  plain_experience x = true -> Forall (part_ok tag) (experience_item_parts x).
Proof.
  intros Hp. unfold plain_experience in Hp. split_plain Hp.
  unfold experience_item_parts. cbn [app]. parts_ok.
Qed.

Lemma certification_item_parts_ok x :
  plain_certification x = true ->
  Forall (part_ok tag) (certification_item_parts x).
Proof.
  intros Hp. unfold plain_certification in Hp. split_plain Hp.
  unfold certification_item_parts. cbn [app]. parts_ok.
Qed.

Ltac entries_ok lemma :=
  apply Forall_concat_fmap; intros ? ?; apply lemma;
  eapply forallb_elem; eassumption.

Lemma app_parts_ok d : plain_site d = true -> Forall (part_ok tag) (app_parts d).
Proof.
  intros Hp. unfold plain_site in Hp. split_plain Hp.
  unfold plain_data in *. split_plain Hplain3.
  unfold app_parts, header_parts, hero_parts, about_parts, skills_parts,
    projects_parts, other_parts, resume_parts, contact_parts, footer_parts.
  repeat (apply Forall_app; split);
    first [ entries_ok skill_parts_ok
          | entries_ok project_parts_ok
          | entries_ok other_card_parts_ok
          | entries_ok education_item_parts_ok
          | entries_ok experience_item_parts_ok
          | entries_ok certification_item_parts_ok
          | parts_ok ].
Qed.

Lemma project_parts_count x :
  lits_count tag (project_parts x) = pieces_count tag project_pieces.
Proof.
  unfold project_parts. rewrite !lits_count_app.
  rewrite (lits_count_concat tag tech_parts (pieces_count tag tech_pieces))
    by reflexivity.
  rewrite tech_free. unfold pieces_count, project_pieces.
  cbn [lits_count foldr]. lia.
Qed.

Lemma app_parts_count d : lits_count tag (app_parts d) = expected_count tag d.
Proof.
  unfold app_parts, header_parts, hero_parts, about_parts, skills_parts,
    projects_parts, other_parts, resume_parts, contact_parts, footer_parts.
  rewrite !lits_count_app.
  rewrite (lits_count_concat tag skill_parts (pieces_count tag skill_pieces))
    by reflexivity.
  rewrite (lits_count_concat tag project_parts
             (pieces_count tag project_pieces))
    by (intros; apply project_parts_count).
  rewrite (lits_count_concat tag other_card_parts
             (pieces_count tag other_pieces)) by reflexivity.
  rewrite (lits_count_concat tag education_item_parts
             (pieces_count tag education_pieces)) by reflexivity.
  rewrite (lits_count_concat tag experience_item_parts
             (pieces_count tag experience_pieces)) by reflexivity.
  rewrite (lits_count_concat tag certification_item_parts
             (pieces_count tag certification_pieces)) by reflexivity.
  unfold expected_count.
  generalize (pieces_count tag skill_pieces), (pieces_count tag project_pieces),
    (pieces_count tag other_pieces), (pieces_count tag education_pieces),
    (pieces_count tag experience_pieces),
    (pieces_count tag certification_pieces).
  intros a b c e f g. unfold pieces_count, fixed_literals.
  cbn [lits_count foldr]. lia.
Qed.

Lemma page_count d :
  plain_site d = true ->
  count_tag tag (app_innerHTML d) = expected_count tag d.
Proof.
  intros Hp. rewrite app_innerHTML_flat, <- (app_nil_r (flatten _)).
  rewrite (count_parts _ _ (app_parts_ok d Hp)), app_parts_count.
  cbn [count_tag]. lia.
Qed.

End Tag.

Ltac count_in_page Hp :=
  rewrite page_count by (first [exact Hp | vm_compute; reflexivity]);
  unfold expected_count;
  repeat match goal with
         | |- context [pieces_count ?t ?ps] =>
           let n := eval vm_compute in (pieces_count t ps) in
           replace (pieces_count t ps) with n by (vm_compute; reflexivity)
         end;
  lia.

(** X13: For data that is plain text, the markup [initApp] writes holds
    exactly one opening tag of each element the components of the page
    look up: the header, the menu, the theme and menu toggles, the
    particle canvas and its toggle, the typing surface, the contact form
    with its status element, its four controls and its submit button. *)
Theorem page_anchors (d : SiteData) :
  plain_site d = true ->
  Forall (fun tag => count_tag tag (app_innerHTML d) = 1%nat) anchors.
Proof.
  intros Hp. unfold anchors.
  repeat (apply List.Forall_cons; [count_in_page Hp|]).
  apply List.Forall_nil.
Qed.

(** X14: For data that holds no [<], the opening tag of a skill card,
    as the template writes it, occurs in the markup that [initApp]
    writes exactly as many times as there are skills, that of a project
    card as many times as there are featured projects, that of the card
    of another project as many times as there are other projects, and
    that of a timeline item as many times as the resume has entries:
    neither the text of the templates nor a field adds an occurrence.
    The count is of the text of the tags in the markup. *)
Theorem page_cards (d : SiteData) :
  plain_site d = true ->
  (count_tag skill_tag (app_innerHTML d) = length (skills (portfolio d))) /\
  (count_tag project_tag (app_innerHTML d)
   = length (featuredProjects (portfolio d))) /\
  (count_tag other_tag (app_innerHTML d) = length (otherProjects d)) /\
  (count_tag timeline_tag (app_innerHTML d)
   = (length (education (resume d)) + length (experience (resume d))
      + length (certifications (resume d)))%nat).
Proof.
  intros Hp. repeat split; count_in_page Hp.
Qed.

Lemma page_anchors_witness :
  Forall (fun tag => count_tag tag (app_innerHTML sample_site) = 1%nat)
         anchors.
Proof. apply (page_anchors sample_site). vm_compute. reflexivity. Defined.

Lemma page_cards_witness :
  (count_tag skill_tag (app_innerHTML sample_site) = 6%nat) /\
  (count_tag other_tag (app_innerHTML sample_site) = 1%nat).
Proof.
  destruct (page_cards sample_site ltac:(vm_compute; reflexivity))
    as (Hs & _ & Ho & _).
  split; [exact Hs | exact Ho].
Defined.

End PageFacts.

(** ** Facts about the cards in the markup *)

Module CardFacts.
Import JS Render Html Cards.

(** *** The parser over the pieces of a template *)














(** *** The skill cards *)



(** *** The project cards *)






(** *** The sections *)










(** *** The class selector *)




























End CardFacts.
